(** * A growable array on raw memory: [RawMemory<T>] and [Vector<T>] (vector.h)

    The development embeds the two classes of vector.h and the parts of the
    C++ standard library they call, and states properties of the container
    against that embedding.

    Modelling choices.
    - A block of raw memory is a list of cells; a cell is [None] while it is
      raw storage and [Some x] while it holds a constructed object of value
      [x].  A [T*] into a block is the offset of the cell, an integer: the
      source forms [end() - 1] also when the vector is empty.
    - A [RawMemory] owns its block, and blocks are never shared (the copy
      operations are deleted), so [buffer_] holds the block itself;
      [nullptr] is [None].
    - [size_t] is [nat]: a block lives in memory, so sizes and capacities
      stay far below the point where [size_ + 1] or [Capacity() * 2] would
      wrap, and [operator new] is taken to succeed.  [--size_] is [- 1] on
      [nat]: on a vector of size 0, where the source would wrap, [PopBack]
      and [Erase] are outside their contract.
    - A count chosen by the caller, in [Vector(n)] and [Reserve(n)], is
      bounded by nothing that is stored.  [Allocate(n)] asks for
      [n * sizeof(T)] bytes, a product taken in [size_t]
      ([RawMemory.Allocate_size_t]); it is the block of [n] cells of
      [RawMemory.Allocate] when the product does not wrap
      ([RawMemory.fits]), and the properties of these two calls are
      stated for such counts.
    - Arguments are values built by the caller.  A [const T&] to an
      element of the vector itself, as in [v.PushBack(v[i])], is read when
      the constructor of the new element runs: the variants
      [EmplaceBack_from], [PushBack_from], [Emplace_from] and
      [Insert_from] take such an argument too.
    - The element type is an interface ([Element]): the value [T()] builds,
      what a move leaves in its source, which copies and moves raise, and the
      two traits the transfer policy asks for.  Default construction,
      assignment and destruction do not raise.
    - A call ends in one of three ways ([outcome]): it returns, an exception
      leaves it (with the state it leaves behind), or it steps outside
      defined behaviour (an access outside the block, the use of a cell that
      holds no object, an invalid iterator range, a failed [assert]).
    - The one loop of the source that is not a bounded traversal, in
      [Resize], runs on fuel.

    The definitions come first: the element interface, outcomes, the
    lifetime operations and standard algorithms on blocks, [RawMemory],
    [Vector], element types for examples, and the well-formed vectors
    [vector_of xs cap].  The properties follow: what each loop does to a run
    of cells, what each operation does to a well-formed vector, the claims
    C1 to C10, and last further properties of the operations. *)

From stdpp Require Import prelude.

Open Scope Z_scope.

(** ** The element type *)

Class Element (T : Type) := {
  (** the value of [T()] *)
  T_default : T;
  (** the value a move (construction or assignment) leaves in its source *)
  moved_from : T → T;
  (** [T(const T&)] raises on this value *)
  copy_throws : T → bool;
  (** [T(T&&)] raises on this value *)
  move_throws : T → bool;
  (** [std::is_nothrow_move_constructible_v<T>] *)
  is_nothrow_move_constructible : bool;
  (** [std::is_copy_constructible_v<T>] *)
  is_copy_constructible : bool;
  nothrow_move_never_throws :
    is_nothrow_move_constructible = true → ∀ x, move_throws x = false
}.

(** ** Sizes in bytes

    [sizeof(T)] and the largest value of [size_t] on the platform. *)

Class Sized (T : Type) := {
  sizeof_T : Z;
  SIZE_MAX : Z;
  sizeof_T_pos : 0 < sizeof_T;
  sizeof_T_le : sizeof_T ≤ SIZE_MAX
}.

(** ** Outcomes of a call *)

Inductive fault : Type :=
| OutOfBlock (p : Z)            (* access to a cell outside the block *)
| NotAlive (p : Z)              (* use of an object in a cell that holds none *)
| InvalidRange (first last : Z) (* [first, last) with last before first *)
| AssertionFailed.

Inductive outcome (St A : Type) : Type :=
| Done (a : A)        (* the call returns a *)
| Raised (s : St)     (* an exception leaves the call, leaving the state s *)
| Undefined (u : fault).

Arguments Done {St A} a.
Arguments Raised {St A} s.
Arguments Undefined {St A} u.

#[export] Instance outcome_ret {St} : MRet (outcome St) := λ A a, Done a.

#[export] Instance outcome_bind {St} : MBind (outcome St) := λ A B k m,
  match m with
  | Done a => k a
  | Raised s => Raised s
  | Undefined u => Undefined u
  end.

(** The state an exception leaves behind, seen from the caller's frame. *)
Definition unwind {St St' A} (f : St → St') (m : outcome St A)
  : outcome St' A :=
  match m with
  | Done a => Done a
  | Raised s => Raised (f s)
  | Undefined u => Undefined u
  end.

(** A call whose local objects go out of scope when it ends. *)
Definition leave {St St' A A'} (f : St → St') (g : A → A')
    (m : outcome St A) : outcome St' A' :=
  match m with
  | Done a => Done (g a)
  | Raised s => Raised (f s)
  | Undefined u => Undefined u
  end.

Definition assert {St} (c : bool) : outcome St unit :=
  if c then Done () else Undefined AssertionFailed.

(** ** Raw memory and the object lifetime operations *)

Section Memory.
Context {T : Type} `{!Element T}.

Local Abbreviation block := (list (option T)).

Definition cell (b : block) (p : Z) : option (option T) :=
  if bool_decide (0 ≤ p) then b !! Z.to_nat p else None.

Definition put (b : block) (p : Z) (c : option T) : block :=
  if bool_decide (0 ≤ p) then <[Z.to_nat p := c]> b else b.

(** the objects alive in a block *)
Definition alive (b : block) : list T := omap id b.

(** [*p] *)
Definition read {St} (b : block) (p : Z) : outcome St T :=
  match cell b p with
  | Some (Some x) => Done x
  | Some None => Undefined (NotAlive p)
  | None => Undefined (OutOfBlock p)
  end.

(** [new (p) T(...)], once the constructor has built [x] *)
Definition construct_at {St} (b : block) (p : Z) (x : T) : outcome St block :=
  match cell b p with
  | Some _ => Done (put b p (Some x))
  | None => Undefined (OutOfBlock p)
  end.

(** [std::destroy_at(p)] *)
Definition destroy_at {St} (b : block) (p : Z) : outcome St block :=
  match cell b p with
  | Some (Some _) => Done (put b p None)
  | Some None => Undefined (NotAlive p)
  | None => Undefined (OutOfBlock p)
  end.

(** [*p = x] *)
Definition assign {St} (b : block) (p : Z) (x : T) : outcome St block :=
  match cell b p with
  | Some (Some _) => Done (put b p (Some x))
  | Some None => Undefined (NotAlive p)
  | None => Undefined (OutOfBlock p)
  end.

(** [std::destroy_n(p, n)] *)
Fixpoint destroy_n {St} (b : block) (p : Z) (n : nat) : outcome St block :=
  match n with
  | O => Done b
  | S n' => b' ← destroy_at b p; destroy_n b' (p + 1) n'
  end.

(** [std::uninitialized_value_construct_n(p, n)] *)
Fixpoint uninitialized_value_construct_n {St} (b : block) (p : Z) (n : nat)
  : outcome St block :=
  match n with
  | O => Done b
  | S n' => b' ← construct_at b p T_default;
            uninitialized_value_construct_n b' (p + 1) n'
  end.

(** [std::uninitialized_copy_n(first, n, d_first)] from one block into
    another.  When a copy raises, the objects built so far are destroyed
    and the exception goes on. *)
Fixpoint uninitialized_copy_n (src : block) (first : Z) (n : nat)
    (dst : block) (d_first : Z) : outcome block block :=
  match n with
  | O => Done dst
  | S n' =>
      x ← read src first;
      if copy_throws x then Raised dst
      else
        dst' ← construct_at dst d_first x;
        match uninitialized_copy_n src (first + 1) n' dst' (d_first + 1) with
        | Raised d => d' ← destroy_at d d_first; Raised d'
        | r => r
        end
  end.

(** [std::uninitialized_move_n(first, n, d_first)] from one block into
    another; the state is the pair (source block, destination block).
    When a move raises, the objects built so far are destroyed; their
    sources stay moved-from. *)
Fixpoint uninitialized_move_n (src : block) (first : Z) (n : nat)
    (dst : block) (d_first : Z) : outcome (block * block) (block * block) :=
  match n with
  | O => Done (src, dst)
  | S n' =>
      x ← read src first;
      if move_throws x then Raised (src, dst)
      else
        dst' ← construct_at dst d_first x;
        let src' := put src first (Some (moved_from x)) in
        match uninitialized_move_n src' (first + 1) n' dst' (d_first + 1) with
        | Raised (s, d) => d' ← destroy_at d d_first; Raised (s, d')
        | r => r
        end
  end.

(** [std::copy_n(first, n, d_first)] from one block into another: copy
    assignment, cell by cell. *)
Fixpoint copy_n {St} (src : block) (first : Z) (n : nat)
    (dst : block) (d_first : Z) : outcome St block :=
  match n with
  | O => Done dst
  | S n' =>
      x ← read src first;
      dst' ← assign dst d_first x;
      copy_n src (first + 1) n' dst' (d_first + 1)
  end.

(** One step of a move assignment inside a block: the object at [d] is
    assigned from the one at [s], which is left moved-from. *)
Definition move_assign {St} (b : block) (s d : Z) : outcome St block :=
  x ← read b s;
  b' ← assign b d x;
  Done (put b' s (Some (moved_from x))).

Fixpoint move_forward {St} (b : block) (first : Z) (n : nat) (d_first : Z)
  : outcome St block :=
  match n with
  | O => Done b
  | S n' => b' ← move_assign b first d_first;
            move_forward b' (first + 1) n' (d_first + 1)
  end.

(** [std::move(first, last, d_first)] inside one block *)
Definition std_move {St} (b : block) (first last d_first : Z)
  : outcome St block :=
  if bool_decide (first ≤ last)
  then move_forward b first (Z.to_nat (last - first)) d_first
  else Undefined (InvalidRange first last).

Fixpoint move_back {St} (b : block) (last : Z) (n : nat) (d_last : Z)
  : outcome St block :=
  match n with
  | O => Done b
  | S n' => b' ← move_assign b (last - 1) (d_last - 1);
            move_back b' (last - 1) n' (d_last - 1)
  end.

(** [std::move_backward(first, last, d_last)] inside one block *)
Definition move_backward {St} (b : block) (first last d_last : Z)
  : outcome St block :=
  if bool_decide (first ≤ last)
  then move_back b last (Z.to_nat (last - first)) d_last
  else Undefined (InvalidRange first last).
End Memory.

(** ** [RawMemory<T>]: an owned block of raw cells *)

Module RawMemory.
Section RawMemory.
Context {T : Type}.
Local Abbreviation block := (list (option T)).

Record t : Type := Build {
  buffer_ : option block;   (* [None] is [nullptr] *)
  capacity_ : nat
}.

(** [Allocate(n)] for a count [n] that fits ([fits], below): raw storage
    for [n] elements, [nullptr] for none.  The counts the vector computes
    itself, 1, an existing size and twice an existing capacity, fit by the
    standing assumption on sizes; a count chosen by the caller need not,
    and [Allocate_size_t] is what the source computes then. *)
Definition Allocate (n : nat) : option block :=
  if bool_decide (n ≠ 0%nat) then Some (replicate n None) else None.

(** The count [n] fits: [n * sizeof(T)] does not wrap in [size_t]. *)
Definition fits `{!Sized T} (n : nat) : Prop :=
  Z.of_nat n * sizeof_T ≤ SIZE_MAX.

(** [Allocate(n)] with the product [n * sizeof(T)] taken in [size_t], as
    [operator new] receives it: the block has room for the cells that fit
    in that many bytes.  For a count that fits this is [Allocate n]. *)
Definition Allocate_size_t `{!Sized T} (n : nat) : option block :=
  if bool_decide (n ≠ 0%nat) then
    Some (replicate
            (Z.to_nat (((Z.of_nat n * sizeof_T) `mod` (SIZE_MAX + 1))
                       `div` sizeof_T))
            None)
  else None.

(** [RawMemory()] *)
Definition ctor_default : t := {| buffer_ := None; capacity_ := 0 |}.

(** [RawMemory(capacity)] *)
Definition ctor (capacity : nat) : t :=
  {| buffer_ := Allocate capacity; capacity_ := capacity |}.

(** [Swap(other)]: the pair is ([*this], [other]) after the call *)
Definition Swap (this other : t) : t * t :=
  ({| buffer_ := buffer_ other; capacity_ := capacity_ other |},
   {| buffer_ := buffer_ this; capacity_ := capacity_ this |}).

(** [RawMemory(RawMemory&& other)]: the new object starts from its default
    member initialisers and swaps with [other] *)
Definition ctor_move (other : t) : t * t := Swap ctor_default other.

(** [operator=(RawMemory&& rhs)] with [rhs] another object than [*this] *)
Definition assign_move (this rhs : t) : t * t := Swap this rhs.

(** [operator=(RawMemory&& rhs)] with [rhs] being [*this]: the guard
    [this != &rhs] skips the swap *)
Definition assign_move_self (this : t) : t := this.

Definition GetAddress (m : t) : Z := 0.

Definition Capacity (m : t) : nat := capacity_ m.

(** [operator+(offset)] *)
Definition plus {St} (m : t) (offset : nat) : outcome St Z :=
  _ ← assert (bool_decide (offset ≤ capacity_ m)%nat);
  Done (GetAddress m + Z.of_nat offset).

(** [operator[](index)]: the cell the returned reference names *)
Definition index {St} (m : t) (index : nat) : outcome St Z :=
  _ ← assert (bool_decide (index < capacity_ m)%nat);
  Done (GetAddress m + Z.of_nat index).

(** the cells [buffer_] points to, and the object with these cells
    written through its pointer *)
Definition cells (m : t) : block := default [] (buffer_ m).

Definition with_cells (m : t) (b : block) : t :=
  {| buffer_ := (λ _, b) <$> buffer_ m; capacity_ := capacity_ m |}.

(** [~RawMemory()] releases the storage and runs no destructor: the
    objects still alive in the block are lost with it *)
Definition lost (m : t) : list T := alive (cells m).
End RawMemory.
Arguments t T : clear implicits.
End RawMemory.

(** ** [Vector<T>] *)

Module Vector.
Section Vector.
Context {T : Type} `{!Element T}.
Local Abbreviation block := (list (option T)).

Record t : Type := Build {
  data_ : RawMemory.t T;
  size_ : nat
}.

Definition Size (v : t) : nat := size_ v.
Definition Capacity (v : t) : nat := RawMemory.Capacity (data_ v).

Definition begin (v : t) : Z := RawMemory.GetAddress (data_ v).
Definition end_ (v : t) : Z :=
  RawMemory.GetAddress (data_ v) + Z.of_nat (Size v).
Definition cbegin (v : t) : Z := RawMemory.GetAddress (data_ v).
Definition cend (v : t) : Z :=
  RawMemory.GetAddress (data_ v) + Z.of_nat (Size v).

(** the cells behind [data_], and [*this] with these cells written *)
Definition mem (v : t) : block := RawMemory.cells (data_ v).
Definition with_mem (v : t) (b : block) : t :=
  {| data_ := RawMemory.with_cells (data_ v) b; size_ := size_ v |}.
Definition with_size (v : t) (n : nat) : t :=
  {| data_ := data_ v; size_ := n |}.

(** [Vector()] *)
Definition ctor_default : t :=
  {| data_ := RawMemory.ctor_default; size_ := 0 |}.

(** [Vector(size)] *)
Definition ctor_sized (size : nat) : outcome () t :=
  let data := RawMemory.ctor size in
  b ← uninitialized_value_construct_n
         (RawMemory.cells data) (RawMemory.GetAddress data) size;
  Done {| data_ := RawMemory.with_cells data b; size_ := size |}.

(** [Vector(const Vector& other)]; when a copy raises no object exists *)
Definition ctor_copy (other : t) : outcome () t :=
  let data := RawMemory.ctor (size_ other) in
  b ← unwind (λ _, ())
        (uninitialized_copy_n
           (mem other) (RawMemory.GetAddress (data_ other)) (size_ other)
           (RawMemory.cells data) (RawMemory.GetAddress data));
  Done {| data_ := RawMemory.with_cells data b; size_ := size_ other |}.

(** [~Vector()], then [~RawMemory()] on [data_]: the result is what the
    release of the block loses *)
Definition dtor {St} (v : t) : outcome St (list T) :=
  b ← destroy_n (mem v) (RawMemory.GetAddress (data_ v)) (size_ v);
  Done (RawMemory.lost (RawMemory.with_cells (data_ v) b)).

(** [Vector(Vector&& other)]: the pair is (new object, [other]) *)
Definition ctor_move (other : t) : t * t :=
  let '(d, od) := RawMemory.ctor_move (data_ other) in
  ({| data_ := d; size_ := size_ other |}, {| data_ := od; size_ := 0 |}).

(** [Swap(other)]: the pair is ([*this], [other]) after the call *)
Definition Swap (this other : t) : t * t :=
  let '(d, od) := RawMemory.Swap (data_ this) (data_ other) in
  ({| data_ := d; size_ := size_ other |},
   {| data_ := od; size_ := size_ this |}).

(** [operator=(const Vector& rhs)] with [rhs] another object than [*this] *)
Definition assign_copy (this rhs : t) : outcome t t :=
  if bool_decide (RawMemory.Capacity (data_ this) < size_ rhs)%nat then
    rhs_copy ← unwind (λ _, this) (ctor_copy rhs);
    let '(this', rhs_copy') := Swap this rhs_copy in
    _ ← dtor rhs_copy';
    Done this'
  else if bool_decide (size_ rhs < size_ this)%nat then
    b1 ← copy_n (mem rhs) (RawMemory.GetAddress (data_ rhs))
            (size_ rhs) (mem this) (RawMemory.GetAddress (data_ this));
    b ← destroy_n b1
           (RawMemory.GetAddress (data_ this) + Z.of_nat (size_ rhs))
           (size_ this - size_ rhs);
    Done (with_size (with_mem this b) (size_ rhs))
  else
    b1 ← copy_n (mem rhs) (RawMemory.GetAddress (data_ rhs))
            (size_ this) (mem this) (RawMemory.GetAddress (data_ this));
    b ← unwind (with_mem this)
           (uninitialized_copy_n
              (mem rhs)
              (RawMemory.GetAddress (data_ rhs) + Z.of_nat (size_ this))
              (size_ rhs - size_ this)
              b1
              (RawMemory.GetAddress (data_ this) + Z.of_nat (size_ this)));
    Done (with_size (with_mem this b) (size_ rhs)).

(** [operator=(const Vector& rhs)] with [rhs] being [*this] *)
Definition assign_copy_self (this : t) : t := this.

(** [operator=(Vector&& rhs)] with [rhs] another object than [*this]: the
    pair is ([*this], [rhs]) after the call *)
Definition assign_move (this rhs : t) : t * t :=
  let '(d, rd) := RawMemory.assign_move (data_ this) (data_ rhs) in
  ({| data_ := d; size_ := size_ rhs |}, {| data_ := rd; size_ := 0 |}).

(** [operator=(Vector&& rhs)] with [rhs] being [*this] *)
Definition assign_move_self (this : t) : t := this.

(** [operator[](index)] *)
Definition index {St} (v : t) (index : nat) : outcome St T :=
  _ ← assert (bool_decide (index < size_ v)%nat);
  p ← RawMemory.index (data_ v) index;
  read (mem v) p.

(** [SafeMemoryTransfer(begin, size, new_address_begin)] from the cells
    [old] into the cells [new]; the state is the pair (old, new) *)
Definition SafeMemoryTransfer (old : block) (begin : Z) (size : nat)
    (new : block) (new_address_begin : Z)
  : outcome (block * block) (block * block) :=
  if is_nothrow_move_constructible || negb is_copy_constructible then
    uninitialized_move_n old begin size new new_address_begin
  else
    leave (λ d, (old, d)) (λ d, (old, d))
      (uninitialized_copy_n old begin size new new_address_begin).

(** [FullSafeMemoryTransfer(begin, size, new_data, new_address_begin)];
    the state is the pair ([*this], [new_data]) *)
Definition FullSafeMemoryTransfer (this : t) (begin : Z) (size : nat)
    (new_data : RawMemory.t T) (new_address_begin : Z)
  : outcome (t * RawMemory.t T) (t * RawMemory.t T) :=
  '(old, new) ←
    unwind (λ '(o, n), (with_mem this o, RawMemory.with_cells new_data n))
      (SafeMemoryTransfer (mem this) begin size
         (RawMemory.cells new_data) new_address_begin);
  old' ← destroy_n old begin size;
  let '(d, nd) :=
    RawMemory.Swap (RawMemory.with_cells (data_ this) old')
                   (RawMemory.with_cells new_data new) in
  Done ({| data_ := d; size_ := size_ this |}, nd).

(** [Reserve(new_capacity)] with its local [new_data]: the state is the
    pair ([*this], [new_data]) when the scope is left *)
Definition Reserve_grow (this : t) (new_capacity : nat)
  : outcome (t * RawMemory.t T) (t * RawMemory.t T) :=
  let new_data := RawMemory.ctor new_capacity in
  FullSafeMemoryTransfer this (RawMemory.GetAddress (data_ this)) (Size this)
    new_data (RawMemory.GetAddress new_data).

(** [Reserve(new_capacity)] *)
Definition Reserve (this : t) (new_capacity : nat) : outcome t t :=
  if bool_decide (new_capacity ≤ RawMemory.Capacity (data_ this))%nat then
    Done this
  else
    leave fst fst (Reserve_grow this new_capacity).

(** The loop of [Resize]: [while (new_size > Capacity()) Reserve(capacity * 2)].
    [None]: the fuel ran out before the loop ended. *)
Fixpoint Resize_loop (fuel : nat) (this : t) (new_size capacity : nat)
  : option (outcome t t) :=
  if bool_decide (Capacity this < new_size)%nat then
    match fuel with
    | O => None
    | S fuel' =>
        match Reserve this (capacity * 2) with
        | Done this' => Resize_loop fuel' this' new_size capacity
        | r => Some r
        end
    end
  else Some (Done this).

(** [Resize(new_size)] *)
Definition Resize (fuel : nat) (this : t) (new_size : nat)
  : option (outcome t t) :=
  if bool_decide (new_size < size_ this)%nat then
    Some (b ← destroy_n (mem this)
                (RawMemory.GetAddress (data_ this) + Z.of_nat new_size)
                (Size this - new_size);
          Done (with_size (with_mem this b) new_size))
  else if bool_decide (size_ this < new_size)%nat then
    let capacity := if bool_decide (Size this = 0%nat) then 1%nat
                    else Capacity this in
    match Resize_loop fuel this new_size capacity with
    | None => None
    | Some (Done this') =>
        Some (b ← uninitialized_value_construct_n (mem this')
                    (RawMemory.GetAddress (data_ this') + Z.of_nat (size_ this'))
                    (new_size - size_ this');
              Done (with_size (with_mem this' b) new_size))
    | Some r => Some r
    end
  else Some (Done (with_size this new_size)).

(** [PopBack()] *)
Definition PopBack (this : t) : outcome t t :=
  b ← destroy_at (mem this)
        (RawMemory.GetAddress (data_ this) + Z.of_nat (size_ this));
  Done (with_size (with_mem this b) (size_ this - 1)).

(** An argument handed on by [std::forward]: a named object or a
    temporary. *)
Inductive forwarded : Type :=
| Lvalue (x : T)
| Rvalue (x : T).

(** [T(std::forward<F>(value))]: the copy constructor on an lvalue, the
    move constructor on an rvalue; [None] when it raises *)
Definition construct_from (a : forwarded) : option T :=
  match a with
  | Lvalue x => if copy_throws x then None else Some x
  | Rvalue x => if move_throws x then None else Some x
  end.

(** The growing branch of [EmplaceBack] with its local [new_data]; the
    state is the pair ([*this], [new_data]) when the scope is left.
    [built] is what [T(std::forward<Args>(args)...)] builds, [None] when
    that constructor raises. *)
Definition EmplaceBack_grow (this : t) (built : option T)
  : outcome (t * RawMemory.t T) (t * RawMemory.t T) :=
  let new_data :=
    RawMemory.ctor (if bool_decide (size_ this = 0%nat) then 1%nat
                    else (Capacity this * 2)%nat) in
  p ← RawMemory.plus new_data (Size this);
  match built with
  | None => Raised (this, new_data)
  | Some x =>
      nb ← construct_at (RawMemory.cells new_data) p x;
      FullSafeMemoryTransfer this
        (RawMemory.GetAddress (data_ this)) (Size this)
        (RawMemory.with_cells new_data nb) (RawMemory.GetAddress new_data)
  end.

(** [EmplaceBack(args...)]: the vector and the cell of the returned
    reference *)
Definition EmplaceBack (this : t) (built : option T) : outcome t (t * Z) :=
  this' ←
    (if bool_decide (Size this < Capacity this)%nat then
       p ← RawMemory.plus (data_ this) (Size this);
       match built with
       | None => Raised this
       | Some x => b ← construct_at (mem this) p x; Done (with_mem this b)
       end
     else
       leave fst fst (EmplaceBack_grow this built));
  let this'' := with_size this' (size_ this' + 1) in
  p ← RawMemory.index (data_ this'') (size_ this'' - 1);
  Done (this'', p).

(** [PushBack(value)] *)
Definition PushBack (this : t) (value : forwarded) : outcome t t :=
  leave id fst (EmplaceBack this (construct_from value)).

(** The growing branch of [Emplace] with its local [new_data]; the state
    is the pair ([*this], [new_data]) when the scope is left. *)
Definition Emplace_grow (this : t) (pos_ind : nat) (built : option T)
  : outcome (t * RawMemory.t T) (t * RawMemory.t T) :=
  let new_data :=
    RawMemory.ctor (if bool_decide (Size this = 0%nat) then 1%nat
                    else (Capacity this * 2)%nat) in
  let frame '(o, n) := (with_mem this o, RawMemory.with_cells new_data n) in
  match built with
  | None => Raised (this, new_data)
  | Some x =>
      nb ← construct_at (RawMemory.cells new_data)
              (RawMemory.GetAddress new_data + Z.of_nat pos_ind) x;
      match SafeMemoryTransfer (mem this) (begin this) pos_ind
              nb (RawMemory.GetAddress new_data) with
      | Undefined u => Undefined u
      | Raised (o, n) =>
          n' ← destroy_at n (RawMemory.GetAddress new_data + Z.of_nat pos_ind);
          Raised (frame (o, n'))
      | Done (o1, n1) =>
          match SafeMemoryTransfer o1 (begin this + Z.of_nat pos_ind)
                  (Z.to_nat (end_ this - begin this - Z.of_nat pos_ind))
                  n1 (RawMemory.GetAddress new_data + Z.of_nat pos_ind + 1) with
          | Undefined u => Undefined u
          | Raised (o, n) =>
              n' ← destroy_n n (RawMemory.GetAddress new_data) (pos_ind + 1);
              Raised (frame (o, n'))
          | Done (o2, n2) =>
              o3 ← destroy_n o2 (begin this) (Size this);
              let '(d, nd) :=
                RawMemory.Swap (RawMemory.with_cells (data_ this) o3)
                               (RawMemory.with_cells new_data n2) in
              Done ({| data_ := d; size_ := size_ this |}, nd)
          end
      end
  end.

(** The first statement of the branch of [Emplace] with spare capacity,
    [new (end()) T(std::forward<T>( *(end() - 1)))]: the last element is
    moved into the cell past the end. *)
Definition Emplace_move_last (this : t) : outcome t block :=
  x ← read (mem this) (end_ this - 1);
  if move_throws x then Raised this
  else
    b ← construct_at (mem this) (end_ this) x;
    Done (put b (end_ this - 1) (Some (moved_from x))).

(** [Emplace(pos, args...)]: the vector and the returned iterator *)
Definition Emplace (this : t) (pos : Z) (built : option T)
  : outcome t (t * Z) :=
  _ ← assert (bool_decide (cbegin this ≤ pos) && bool_decide (pos ≤ cend this));
  let pos_ind := Z.to_nat (pos - cbegin this) in
  this' ←
    (if bool_decide (Size this < Capacity this)%nat then
       b1 ← Emplace_move_last this;
       b2 ← move_backward b1 (begin this + Z.of_nat pos_ind)
               (end_ this - 1) (end_ this);
       (* data_[pos_ind] = T(std::forward<Args>(args)...) *)
       match built with
       | None => Raised (with_mem this b2)
       | Some y =>
           p ← RawMemory.index (data_ this) pos_ind;
           b3 ← assign b2 p y;
           Done (with_mem this b3)
       end
     else
       leave fst fst (Emplace_grow this pos_ind built));
  let this'' := with_size this' (size_ this' + 1) in
  Done (this'', begin this'' + Z.of_nat pos_ind).

(** [Erase(pos)]: the vector and the returned iterator *)
Definition Erase (this : t) (pos : Z) : outcome t (t * Z) :=
  _ ← assert (bool_decide (cbegin this ≤ pos) && bool_decide (pos < cend this));
  let i := Z.to_nat (pos - cbegin this) in
  b1 ← std_move (mem this) (begin this + Z.of_nat i + 1) (end_ this)
          (begin this + Z.of_nat i);
  b2 ← destroy_at b1
          (RawMemory.GetAddress (data_ this) + Z.of_nat (Size this) - 1);
  let this' := with_size (with_mem this b2) (size_ this - 1) in
  Done (this', begin this' + Z.of_nat i).

(** [Insert(pos, value)] *)
Definition Insert (this : t) (pos : Z) (value : forwarded)
  : outcome t (t * Z) :=
  Emplace this pos (construct_from value).

(** *** Arguments that refer into the vector

    In [v.PushBack(v[i])] and [v.Insert(pos, v[i])] the argument is a
    [const T&] to an element of the vector itself: the copy constructor
    of the new element reads that cell at the moment it runs, after
    whatever the operation has done to the block by then. *)
Inductive argument : Type :=
| Outside (a : forwarded)   (* an object outside the vector *)
| Inside (p : Z).           (* the object in the cell [p] of this vector *)

(** [T(std::forward<F>(value))] run while the block holds the cells [b];
    [None] when the constructor raises *)
Definition construct_in {St} (b : block) (a : argument)
  : outcome St (option T) :=
  match a with
  | Outside a => Done (construct_from a)
  | Inside p => x ← read b p; Done (if copy_throws x then None else Some x)
  end.

(** The growing branch of [EmplaceBack]: the new element is built in the
    new block before the elements are transferred. *)
Definition EmplaceBack_grow_from (this : t) (a : argument)
  : outcome (t * RawMemory.t T) (t * RawMemory.t T) :=
  let new_data :=
    RawMemory.ctor (if bool_decide (size_ this = 0%nat) then 1%nat
                    else (Capacity this * 2)%nat) in
  p ← RawMemory.plus new_data (Size this);
  built ← construct_in (mem this) a;
  match built with
  | None => Raised (this, new_data)
  | Some x =>
      nb ← construct_at (RawMemory.cells new_data) p x;
      FullSafeMemoryTransfer this
        (RawMemory.GetAddress (data_ this)) (Size this)
        (RawMemory.with_cells new_data nb) (RawMemory.GetAddress new_data)
  end.

(** [EmplaceBack(value)] *)
Definition EmplaceBack_from (this : t) (a : argument) : outcome t (t * Z) :=
  this' ←
    (if bool_decide (Size this < Capacity this)%nat then
       p ← RawMemory.plus (data_ this) (Size this);
       built ← construct_in (mem this) a;
       match built with
       | None => Raised this
       | Some x => b ← construct_at (mem this) p x; Done (with_mem this b)
       end
     else
       leave fst fst (EmplaceBack_grow_from this a));
  let this'' := with_size this' (size_ this' + 1) in
  p ← RawMemory.index (data_ this'') (size_ this'' - 1);
  Done (this'', p).

(** [PushBack(value)] *)
Definition PushBack_from (this : t) (a : argument) : outcome t t :=
  leave id fst (EmplaceBack_from this a).

(** [Emplace(pos, value)].  With spare capacity the new element is built
    after the elements from [pos] on have been shifted; without, it is
    the first thing built in the new block. *)
Definition Emplace_from (this : t) (pos : Z) (a : argument)
  : outcome t (t * Z) :=
  _ ← assert (bool_decide (cbegin this ≤ pos) && bool_decide (pos ≤ cend this));
  let pos_ind := Z.to_nat (pos - cbegin this) in
  this' ←
    (if bool_decide (Size this < Capacity this)%nat then
       b1 ← Emplace_move_last this;
       b2 ← move_backward b1 (begin this + Z.of_nat pos_ind)
               (end_ this - 1) (end_ this);
       built ← construct_in b2 a;
       match built with
       | None => Raised (with_mem this b2)
       | Some y =>
           p ← RawMemory.index (data_ this) pos_ind;
           b3 ← assign b2 p y;
           Done (with_mem this b3)
       end
     else
       leave fst fst (built ← construct_in (mem this) a;
                      Emplace_grow this pos_ind built));
  let this'' := with_size this' (size_ this' + 1) in
  Done (this'', begin this'' + Z.of_nat pos_ind).

(** [Insert(pos, value)] *)
Definition Insert_from (this : t) (pos : Z) (a : argument)
  : outcome t (t * Z) :=
  Emplace_from this pos a.
End Vector.
Arguments t T : clear implicits.
Arguments forwarded T : clear implicits.
Arguments argument T : clear implicits.
End Vector.

(** ** Element types used in examples *)

(** [int]: copies and moves are plain copies and never raise. *)
#[export] Instance int_element : Element Z := {|
  T_default := 0;
  moved_from := λ x, x;
  copy_throws := λ _, false;
  move_throws := λ _, false;
  is_nothrow_move_constructible := true;
  is_copy_constructible := true;
  nothrow_move_never_throws := λ _ _, eq_refl
|}.

(** [sizeof(int)] is 4, and [size_t] has 64 bits. *)
#[export] Instance int_sized : Sized Z := {|
  sizeof_T := 4;
  SIZE_MAX := 18446744073709551615;
  sizeof_T_pos := eq_refl;
  sizeof_T_le := ltac:(lia)
|}.

(** A class holding a number, whose copy and move constructors raise on
    the value 0; it is copyable and its move is not [noexcept], so that
    transfers copy. *)
Inductive fragile : Type := Fragile (value : nat).

#[export] Instance fragile_element : Element fragile := {|
  T_default := Fragile 1;
  moved_from := λ x, x;
  copy_throws := λ '(Fragile n), bool_decide (n = 0%nat);
  move_throws := λ '(Fragile n), bool_decide (n = 0%nat);
  is_nothrow_move_constructible := false;
  is_copy_constructible := true;
  nothrow_move_never_throws := λ H, False_ind _ (Bool.diff_false_true H)
|}.

#[export] Instance fragile_sized : Sized fragile := {|
  sizeof_T := 4;
  SIZE_MAX := 18446744073709551615;
  sizeof_T_pos := eq_refl;
  sizeof_T_le := ltac:(lia)
|}.

(** A class owning a buffer, in the manner of [std::vector<int>] or
    [std::string]: a move takes the buffer and leaves its source empty, and
    is [noexcept]; nothing raises. *)
Definition owner : Type := list nat.

#[export] Instance owner_element : Element owner := {|
  T_default := [];
  moved_from := λ _, [];
  copy_throws := λ _, false;
  move_throws := λ _, false;
  is_nothrow_move_constructible := true;
  is_copy_constructible := true;
  nothrow_move_never_throws := λ _ _, eq_refl
|}.

#[export] Instance owner_sized : Sized owner := {|
  sizeof_T := 24;
  SIZE_MAX := 18446744073709551615;
  sizeof_T_pos := eq_refl;
  sizeof_T_le := ltac:(lia)
|}.

(** A class holding a number, that cannot be copied and whose move
    constructor may raise (it does on the value 13); a move leaves 0 in
    its source.  Transfers move. *)
Inductive handle : Type := Handle (value : nat).

#[export] Instance handle_element : Element handle := {|
  T_default := Handle 0;
  moved_from := λ _, Handle 0;
  copy_throws := λ _, false;
  move_throws := λ '(Handle n), bool_decide (n = 13%nat);
  is_nothrow_move_constructible := false;
  is_copy_constructible := false;
  nothrow_move_never_throws := λ H, False_ind _ (Bool.diff_false_true H)
|}.

#[export] Instance handle_sized : Sized handle := {|
  sizeof_T := 4;
  SIZE_MAX := 18446744073709551615;
  sizeof_T_pos := eq_refl;
  sizeof_T_le := ltac:(lia)
|}.

(** A class whose copy constructor always raises and whose move
    constructor is [noexcept]: a move leaves 0 in its source. *)
Inductive heavy : Type := Heavy (value : nat).

#[export] Instance heavy_element : Element heavy := {|
  T_default := Heavy 0;
  moved_from := λ _, Heavy 0;
  copy_throws := λ _, true;
  move_throws := λ _, false;
  is_nothrow_move_constructible := true;
  is_copy_constructible := true;
  nothrow_move_never_throws := λ _ _, eq_refl
|}.

#[export] Instance heavy_sized : Sized heavy := {|
  sizeof_T := 4;
  SIZE_MAX := 18446744073709551615;
  sizeof_T_pos := eq_refl;
  sizeof_T_le := ltac:(lia)
|}.

(** ** Well-formed vectors *)

Section Canonical.
Context {T : Type} `{!Element T}.
Local Abbreviation block := (list (option T)).

(** The state invariant of a vector: the size is within the capacity, the
    block has [capacity] cells (none when the capacity is 0), and a cell
    holds an object exactly when its index is below the size. *)
Definition Inv (v : Vector.t T) : Prop :=
  (Vector.size_ v ≤ Vector.Capacity v)%nat ∧
  length (Vector.mem v) = Vector.Capacity v ∧
  (Vector.Capacity v = 0%nat → RawMemory.buffer_ (Vector.data_ v) = None) ∧
  ∀ (i : nat) c, Vector.mem v !! i = Some c →
                 (is_Some c ↔ (i < Vector.size_ v)%nat).

(** The block of a vector holding [xs] in [cap] cells. *)
Definition block_of (xs : list T) (cap : nat) : block :=
  (Some <$> xs) ++ replicate (cap - length xs) None.

(** The [RawMemory] of capacity [cap] whose block, if it has one, has the
    cells [b]. *)
Definition raw_of (b : block) (cap : nat) : RawMemory.t T :=
  {| RawMemory.buffer_ := if bool_decide (cap ≠ 0%nat) then Some b else None;
     RawMemory.capacity_ := cap |}.

(** The vector holding [xs] in a block of [cap] cells. *)
Definition vector_of (xs : list T) (cap : nat) : Vector.t T :=
  {| Vector.data_ := raw_of (block_of xs cap) cap;
     Vector.size_ := length xs |}.

(** [Erase(Insert(pos, value))] *)
Definition insert_then_erase (v : Vector.t T) (pos : Z)
    (value : Vector.forwarded T) : outcome (Vector.t T) (Vector.t T * Z) :=
  '(v', p) ← Vector.Insert v pos value; Vector.Erase v' p.

(** Appending the values [xs] one after the other with [PushBack]. *)
Fixpoint push_all (v : Vector.t T) (xs : list T)
  : outcome (Vector.t T) (Vector.t T) :=
  match xs with
  | [] => Done v
  | x :: xs' => v' ← Vector.PushBack v (Vector.Lvalue x); push_all v' xs'
  end.

(** The capacity the growth policy reaches after [n] appends to an empty
    vector: 0, 1, 2, 4, 4, 8, 8, 8, 8, 16, ... *)
Definition grown (n : nat) : nat :=
  match n with
  | O => 0%nat
  | S _ => (2 ^ Nat.log2_up n)%nat
  end.

(** Neither the copy nor the move constructor raises on [x]. *)
Definition nothrow (x : T) : Prop :=
  copy_throws x = false ∧ move_throws x = false.

(** The constructor a transfer into a new block calls does not raise on
    [x]: the move constructor when the policy moves, the copy constructor
    when it copies. *)
Definition transfers (x : T) : Prop :=
  if is_nothrow_move_constructible || negb is_copy_constructible
  then move_throws x = false else copy_throws x = false.

(** What a transfer leaves in the cells it read: the moved-from values
    when it moves, the values themselves when it copies. *)
Definition left_behind (xs : list T) : list T :=
  if is_nothrow_move_constructible || negb is_copy_constructible
  then moved_from <$> xs else xs.

(** The capacity after an append to a vector of [size] elements in [cap]
    cells. *)
Definition next_capacity (size cap : nat) : nat :=
  if bool_decide (size < cap)%nat then cap
  else if bool_decide (size = 0%nat) then 1%nat else (cap * 2)%nat.

(** What a shift to the left leaves in the last cell it read. *)
Definition vacated_last (c : T) (ys : list T) : T :=
  match last ys with
  | Some y => moved_from y
  | None => c
  end.

(** What a shift to the right leaves in the first cell it read. *)
Definition vacated_first (c : T) (ys : list T) : T :=
  match ys with
  | y :: _ => moved_from y
  | [] => c
  end.

(** The transfer policy copies. *)
Definition copies : Prop :=
  is_nothrow_move_constructible || negb is_copy_constructible = false.

(** The transfer policy moves. *)
Definition moves : Prop :=
  is_nothrow_move_constructible || negb is_copy_constructible = true.
End Canonical.

(** * Properties *)

(** ** Cells of a block, addressed through the end of a prefix *)

Section BlockFacts.
Context {T : Type} `{!Element T}.
Local Abbreviation block := (list (option T)).
Implicit Types (b pre post : block) (xs ys : list T).

Lemma cell_middle pre c post :
  cell (pre ++ c :: post) (Z.of_nat (length pre)) = Some c.
Proof.
  unfold cell. rewrite bool_decide_eq_true_2 by lia.
  rewrite Nat2Z.id. by apply list_lookup_middle.
Qed.

Lemma put_middle pre c post c' :
  put (pre ++ c :: post) (Z.of_nat (length pre)) c' = pre ++ c' :: post.
Proof.
  unfold put. rewrite bool_decide_eq_true_2 by lia. rewrite Nat2Z.id.
  rewrite insert_app_r_alt by lia. by rewrite Nat.sub_diag.
Qed.

Lemma cell_nat b (i : nat) : cell b (Z.of_nat i) = b !! i.
Proof.
  unfold cell. rewrite bool_decide_eq_true_2 by lia. by rewrite Nat2Z.id.
Qed.

Lemma cell_negative b p : p < 0 → cell b p = None.
Proof. intros. unfold cell. by rewrite bool_decide_eq_false_2 by lia. Qed.

Lemma next_cell pre c :
  Z.of_nat (length pre) + 1 = Z.of_nat (length (pre ++ [c])).
Proof. rewrite length_app. simpl. lia. Qed.

Lemma destroy_at_middle {St} pre x post :
  destroy_at (St:=St) (pre ++ Some x :: post) (Z.of_nat (length pre))
  = Done (pre ++ None :: post).
Proof. unfold destroy_at. by rewrite cell_middle, put_middle. Qed.

Lemma construct_at_middle {St} pre c post x :
  construct_at (St:=St) (pre ++ c :: post) (Z.of_nat (length pre)) x
  = Done (pre ++ Some x :: post).
Proof. unfold construct_at. by rewrite cell_middle, put_middle. Qed.

Lemma assign_middle {St} pre y post x :
  assign (St:=St) (pre ++ Some y :: post) (Z.of_nat (length pre)) x
  = Done (pre ++ Some x :: post).
Proof. unfold assign. by rewrite cell_middle, put_middle. Qed.

Lemma read_middle {St} pre x post :
  read (St:=St) (pre ++ Some x :: post) (Z.of_nat (length pre)) = Done x.
Proof. unfold read. by rewrite cell_middle. Qed.

(** ** The loops of the standard library on a run of cells *)

Lemma destroy_n_run {St} xs : ∀ pre post,
  destroy_n (St:=St) (pre ++ (Some <$> xs) ++ post)
    (Z.of_nat (length pre)) (length xs)
  = Done (pre ++ replicate (length xs) None ++ post).
Proof.
  induction xs as [|x xs IH]; intros pre post; [done|].
  cbn [fmap list_fmap length destroy_n app replicate].
  rewrite destroy_at_middle. cbn [mbind outcome_bind].
  rewrite (next_cell pre None), (cons_middle None pre), (assoc_L (++) pre), IH.
  by rewrite <- (assoc_L (++) pre).
Qed.

Lemma value_construct_run {St} (cs : block) : ∀ pre post,
  uninitialized_value_construct_n (St:=St) (pre ++ cs ++ post)
    (Z.of_nat (length pre)) (length cs)
  = Done (pre ++ replicate (length cs) (Some T_default) ++ post).
Proof.
  induction cs as [|c cs IH]; intros pre post; [done|].
  cbn [length uninitialized_value_construct_n app replicate].
  rewrite construct_at_middle. cbn [mbind outcome_bind].
  rewrite (next_cell pre (Some T_default)), (cons_middle (Some T_default) pre),
    (assoc_L (++) pre), IH.
  by rewrite <- (assoc_L (++) pre).
Qed.

Lemma left_behind_length xs : length (left_behind xs) = length xs.
Proof. unfold left_behind. case_match; [apply length_fmap | done]. Qed.

Lemma uninitialized_copy_run xs : ∀ spre spost dpre (cs : block) dpost,
  length cs = length xs →
  Forall (λ x, copy_throws x = false) xs →
  uninitialized_copy_n (spre ++ (Some <$> xs) ++ spost)
    (Z.of_nat (length spre)) (length xs)
    (dpre ++ cs ++ dpost) (Z.of_nat (length dpre))
  = Done (dpre ++ (Some <$> xs) ++ dpost).
Proof.
  induction xs as [|x xs IH]; intros spre spost dpre cs dpost Hlen Hok.
  { by destruct cs. }
  destruct cs as [|c cs]; [done|]. inversion_clear Hok as [|? ? Hx Hxs].
  cbn [fmap list_fmap length uninitialized_copy_n app].
  rewrite read_middle. cbn [mbind outcome_bind]. rewrite Hx.
  rewrite construct_at_middle. cbn [mbind outcome_bind].
  rewrite (next_cell spre (Some x)), (next_cell dpre (Some x)).
  rewrite (cons_middle (Some x) spre), (cons_middle (Some x) dpre).
  rewrite (assoc_L (++) spre), (assoc_L (++) dpre).
  rewrite IH by (simpl in Hlen; auto with lia).
  by rewrite <- (assoc_L (++) dpre).
Qed.

Lemma uninitialized_move_run xs : ∀ spre spost dpre (cs : block) dpost,
  length cs = length xs →
  Forall (λ x, move_throws x = false) xs →
  uninitialized_move_n (spre ++ (Some <$> xs) ++ spost)
    (Z.of_nat (length spre)) (length xs)
    (dpre ++ cs ++ dpost) (Z.of_nat (length dpre))
  = Done (spre ++ (Some <$> (moved_from <$> xs)) ++ spost,
          dpre ++ (Some <$> xs) ++ dpost).
Proof.
  induction xs as [|x xs IH]; intros spre spost dpre cs dpost Hlen Hok.
  { by destruct cs. }
  destruct cs as [|c cs]; [done|]. inversion_clear Hok as [|? ? Hx Hxs].
  cbn [fmap list_fmap length uninitialized_move_n app].
  rewrite read_middle. cbn [mbind outcome_bind]. rewrite Hx.
  rewrite construct_at_middle. cbn [mbind outcome_bind].
  rewrite put_middle.
  rewrite (next_cell spre (Some (moved_from x))), (next_cell dpre (Some x)).
  rewrite (cons_middle (Some (moved_from x)) spre), (cons_middle (Some x) dpre).
  rewrite (assoc_L (++) spre), (assoc_L (++) dpre).
  rewrite IH by (simpl in Hlen; auto with lia).
  by rewrite <- (assoc_L (++) dpre), <- (assoc_L (++) spre).
Qed.

Lemma copy_n_run {St} xs : ∀ spre spost dpre (zs : list T) dpost,
  length zs = length xs →
  copy_n (St:=St) (spre ++ (Some <$> xs) ++ spost)
    (Z.of_nat (length spre)) (length xs)
    (dpre ++ (Some <$> zs) ++ dpost) (Z.of_nat (length dpre))
  = Done (dpre ++ (Some <$> xs) ++ dpost).
Proof.
  induction xs as [|x xs IH]; intros spre spost dpre zs dpost Hlen.
  { by destruct zs. }
  destruct zs as [|z zs]; [done|].
  cbn [fmap list_fmap length copy_n app].
  rewrite read_middle. cbn [mbind outcome_bind].
  rewrite assign_middle. cbn [mbind outcome_bind].
  rewrite (next_cell spre (Some x)), (next_cell dpre (Some x)).
  rewrite (cons_middle (Some x) spre), (cons_middle (Some x) dpre).
  rewrite (assoc_L (++) spre), (assoc_L (++) dpre).
  rewrite IH by (simpl in Hlen; auto with lia).
  by rewrite <- (assoc_L (++) dpre).
Qed.

Lemma nothrow_transfers xs : Forall nothrow xs → Forall transfers xs.
Proof.
  intros Hok. eapply Forall_impl; [exact Hok|]. intros x [Hcopy Hmove].
  unfold transfers.
  by destruct (is_nothrow_move_constructible || negb is_copy_constructible).
Qed.

(** A type whose move constructor is [noexcept] is transferred by moves
    that do not raise. *)
Lemma nothrow_move_transfers xs :
  is_nothrow_move_constructible = true → Forall transfers xs.
Proof.
  intros Hmove. apply Forall_forall. intros x _. unfold transfers.
  rewrite Hmove. simpl. by apply nothrow_move_never_throws.
Qed.

Lemma SafeMemoryTransfer_gen xs spre spost dpre (cs : block) dpost :
  length cs = length xs →
  Forall transfers xs →
  Vector.SafeMemoryTransfer (spre ++ (Some <$> xs) ++ spost)
    (Z.of_nat (length spre)) (length xs)
    (dpre ++ cs ++ dpost) (Z.of_nat (length dpre))
  = Done (spre ++ (Some <$> left_behind xs) ++ spost,
          dpre ++ (Some <$> xs) ++ dpost).
Proof.
  intros Hlen Hok. unfold Vector.SafeMemoryTransfer, left_behind.
  unfold transfers in Hok.
  destruct (is_nothrow_move_constructible || negb is_copy_constructible).
  - by apply uninitialized_move_run.
  - by rewrite uninitialized_copy_run.
Qed.

Lemma SafeMemoryTransfer_run xs spre spost dpre (cs : block) dpost :
  length cs = length xs →
  Forall nothrow xs →
  Vector.SafeMemoryTransfer (spre ++ (Some <$> xs) ++ spost)
    (Z.of_nat (length spre)) (length xs)
    (dpre ++ cs ++ dpost) (Z.of_nat (length dpre))
  = Done (spre ++ (Some <$> left_behind xs) ++ spost,
          dpre ++ (Some <$> xs) ++ dpost).
Proof. intros Hlen Hok. by apply SafeMemoryTransfer_gen, nothrow_transfers. Qed.
End BlockFacts.

(** ** Well-formed vectors are the vectors [vector_of xs cap] *)

Section VectorFacts.
Context {T : Type} `{!Element T}.
Local Abbreviation block := (list (option T)).
Implicit Types (b pre post : block) (xs ys : list T) (v : Vector.t T).

Lemma block_of_length xs cap :
  (length xs ≤ cap)%nat → length (block_of xs cap) = cap.
Proof.
  intros. unfold block_of. rewrite length_app, length_fmap, length_replicate. lia.
Qed.

Lemma cells_raw_of b cap :
  (cap = 0%nat → b = []) → RawMemory.cells (raw_of b cap) = b.
Proof.
  intros Hb. unfold RawMemory.cells, raw_of. simpl.
  case_bool_decide as Hc; [done|]. simpl. symmetry. apply Hb. lia.
Qed.

Lemma with_cells_raw_of b cap b' :
  RawMemory.with_cells (raw_of b cap) b' = raw_of b' cap.
Proof. unfold RawMemory.with_cells, raw_of. simpl. by case_bool_decide. Qed.

Lemma ctor_raw_of n : @RawMemory.ctor T n = raw_of (replicate n None) n.
Proof. done. Qed.

Lemma mem_vector_of xs cap :
  (length xs ≤ cap)%nat → Vector.mem (vector_of xs cap) = block_of xs cap.
Proof.
  intros Hle. apply cells_raw_of. intros ->.
  destruct xs; [done | simpl in Hle; lia].
Qed.

Lemma with_mem_vector_of xs cap b :
  Vector.with_mem (vector_of xs cap) b
  = {| Vector.data_ := raw_of b cap; Vector.size_ := length xs |}.
Proof. unfold Vector.with_mem. simpl. by rewrite with_cells_raw_of. Qed.

Lemma block_of_lookup xs cap (i : nat) :
  (length xs ≤ cap)%nat → (i < cap)%nat →
  block_of xs cap !! i = Some (xs !! i).
Proof.
  intros Hle Hi. unfold block_of.
  destruct (decide (i < length xs)%nat) as [Hlt|Hge].
  - rewrite lookup_app_l by (by rewrite length_fmap).
    rewrite list_lookup_fmap.
    destruct (lookup_lt_is_Some_2 xs i Hlt) as [x ->]. done.
  - rewrite lookup_app_r by (rewrite length_fmap; lia).
    rewrite lookup_replicate_2 by (rewrite length_fmap; lia).
    by rewrite lookup_ge_None_2 by lia.
Qed.

Lemma Inv_vector_of xs cap : (length xs ≤ cap)%nat → Inv (vector_of xs cap).
Proof.
  intros Hle. unfold Inv. rewrite mem_vector_of by done.
  split_and!; simpl; [done | by apply block_of_length | | ].
  - unfold Vector.Capacity. simpl. intros ->. done.
  - intros i c Hi.
    assert (i < cap)%nat as Hlt.
    { apply lookup_lt_Some in Hi. by rewrite block_of_length in Hi. }
    rewrite block_of_lookup in Hi by done. injection Hi as <-.
    apply lookup_lt_is_Some.
Qed.

Lemma cells_shape (l : block) : ∀ n,
  (n ≤ length l)%nat →
  (∀ (i : nat) c, l !! i = Some c → (is_Some c ↔ (i < n)%nat)) →
  ∃ xs, length xs = n ∧ l = (Some <$> xs) ++ replicate (length l - n) None.
Proof.
  induction l as [|c l IH]; intros n Hn Hl.
  { exists []. simpl in *. split; [lia | done]. }
  destruct n as [|n].
  - destruct (IH 0%nat) as (xs & Hxs & Heq); [lia | |].
    { intros i c' Hi. rewrite (Hl (S i) c' Hi). lia. }
    exists []. split; [done|]. destruct xs; [|done]. simpl in *.
    rewrite Nat.sub_0_r in Heq. rewrite <- Heq.
    destruct c as [x|]; [|done].
    destruct (Hl 0%nat (Some x) eq_refl) as [Hc _].
    specialize (Hc (mk_is_Some _ _ eq_refl)). lia.
  - destruct (IH n) as (xs & Hxs & Heq); [simpl in Hn; lia | |].
    { intros i c' Hi. rewrite (Hl (S i) c' Hi). lia. }
    destruct (Hl 0%nat c eq_refl) as [_ Hc].
    destruct Hc as [x ->]; [lia|].
    exists (x :: xs). split; [simpl; lia|]. simpl. f_equal. exact Heq.
Qed.

Lemma Inv_inv v :
  Inv v → ∃ xs cap, (length xs ≤ cap)%nat ∧ v = vector_of xs cap.
Proof.
  destruct v as [[bo cap] n]. unfold Inv, Vector.Capacity, Vector.mem.
  simpl. intros (Hn & Hlen & Hnull & Hcells).
  destruct (cells_shape (RawMemory.cells (RawMemory.Build bo cap)) n)
    as (xs & Hxs & Heq); [simpl; lia | done |].
  exists xs, cap. split; [lia|]. unfold vector_of, raw_of, block_of.
  rewrite Hxs. f_equal. f_equal. rewrite Hlen in Heq.
  unfold RawMemory.cells in *. simpl in *.
  case_bool_decide as Hc.
  - destruct bo as [b|]; simpl in *; [by rewrite Heq | lia].
  - rewrite Hnull by lia. done.
Qed.
End VectorFacts.

(** ** Growth: transfer into a new block, [Reserve], [EmplaceBack] *)

Section Growth.
Context {T : Type} `{!Element T}.
Local Abbreviation block := (list (option T)).
Implicit Types (b pre post : block) (xs ys : list T) (v : Vector.t T).

Lemma replicate_split {A} (a : A) (n cap : nat) :
  (n ≤ cap)%nat → replicate cap a = replicate n a ++ replicate (cap - n) a.
Proof. intros. rewrite <- replicate_add. f_equal. lia. Qed.

Lemma FullSafeMemoryTransfer_gen xs cap (cs rest : block) n :
  (length xs ≤ cap)%nat → Forall transfers xs →
  length cs = length xs → n ≠ 0%nat →
  Vector.FullSafeMemoryTransfer (vector_of xs cap) 0 (length xs)
    (raw_of (cs ++ rest) n) 0
  = Done ({| Vector.data_ := raw_of ((Some <$> xs) ++ rest) n;
             Vector.size_ := length xs |},
          raw_of (replicate cap None) cap).
Proof.
  intros Hle Hok Hlen Hn. unfold Vector.FullSafeMemoryTransfer.
  rewrite mem_vector_of by done. rewrite cells_raw_of by done.
  pose proof (SafeMemoryTransfer_gen xs [] (replicate (cap - length xs) None)
                [] cs rest Hlen Hok) as Ht.
  cbn [app length] in Ht. change (Z.of_nat 0) with 0 in Ht.
  unfold block_of. rewrite Ht. clear Ht.
  cbn [unwind mbind outcome_bind].
  pose proof (destroy_n_run (St:=Vector.t T * RawMemory.t T) (left_behind xs) []
                (replicate (cap - length xs) None)) as Hd.
  rewrite left_behind_length in Hd. cbn [app length] in Hd.
  change (Z.of_nat 0) with 0 in Hd.
  rewrite Hd. clear Hd. cbn [mbind outcome_bind].
  rewrite !with_cells_raw_of. cbn [vector_of Vector.data_ Vector.size_].
  rewrite with_cells_raw_of. rewrite <- replicate_split by done. done.
Qed.

Lemma FullSafeMemoryTransfer_run xs cap (cs rest : block) n :
  (length xs ≤ cap)%nat → Forall nothrow xs →
  length cs = length xs → n ≠ 0%nat →
  Vector.FullSafeMemoryTransfer (vector_of xs cap) 0 (length xs)
    (raw_of (cs ++ rest) n) 0
  = Done ({| Vector.data_ := raw_of ((Some <$> xs) ++ rest) n;
             Vector.size_ := length xs |},
          raw_of (replicate cap None) cap).
Proof.
  intros Hle Hok. by apply FullSafeMemoryTransfer_gen, nothrow_transfers.
Qed.

Lemma construct_at_at {St} pre c post x p :
  p = Z.of_nat (length pre) →
  construct_at (St:=St) (pre ++ c :: post) p x = Done (pre ++ Some x :: post).
Proof. intros ->. apply construct_at_middle. Qed.

Lemma block_of_spare xs cap :
  (length xs < cap)%nat →
  block_of xs cap = (Some <$> xs) ++ None :: replicate (cap - length xs - 1) None.
Proof.
  intros. unfold block_of. f_equal.
  destruct (cap - length xs)%nat as [|k] eqn:Hk; [lia|].
  simpl. by rewrite Nat.sub_0_r.
Qed.

Lemma block_of_snoc xs x cap :
  (length xs < cap)%nat →
  block_of (xs ++ [x]) cap
  = (Some <$> xs) ++ Some x :: replicate (cap - length xs - 1) None.
Proof.
  intros. unfold block_of. rewrite fmap_app, length_app, <- (assoc_L (++)).
  simpl. do 3 f_equal. lia.
Qed.

(** With spare capacity [EmplaceBack] touches no element; without, the
    elements are transferred. *)
Lemma EmplaceBack_gen xs cap x :
  (length xs ≤ cap)%nat → (length xs < cap)%nat ∨ Forall transfers xs →
  Vector.EmplaceBack (vector_of xs cap) (Some x)
  = Done (vector_of (xs ++ [x]) (next_capacity (length xs) cap),
          Z.of_nat (length xs)).
Proof.
  intros Hle Hok.
  assert (∀ c, (length xs < c)%nat →
    (let this'' := Vector.with_size
       {| Vector.data_ :=
            raw_of ((Some <$> xs) ++ Some x :: replicate (c - length xs - 1) None) c;
          Vector.size_ := length xs |} (length xs + 1) in
     p ← RawMemory.index (St:=Vector.t T) (Vector.data_ this'')
           (Vector.size_ this'' - 1);
     Done (this'', p))
    = Done (vector_of (xs ++ [x]) c, Z.of_nat (length xs))) as Hfinish.
  { intros c Hc. cbn zeta. unfold Vector.with_size, RawMemory.index. simpl.
    rewrite bool_decide_eq_true_2 by lia. simpl.
    unfold vector_of. rewrite block_of_snoc, length_app by done. simpl.
    unfold RawMemory.GetAddress. do 2 f_equal. lia. }
  unfold Vector.EmplaceBack, next_capacity, Vector.Size, Vector.Capacity.
  cbn [vector_of Vector.size_ Vector.data_ raw_of RawMemory.Capacity
       RawMemory.capacity_].
  fold (raw_of (block_of xs cap) cap). fold (vector_of xs cap).
  case_bool_decide as Hspare.
  - unfold RawMemory.plus. simpl RawMemory.capacity_.
    rewrite bool_decide_eq_true_2 by lia. cbn [assert mbind outcome_bind].
    rewrite mem_vector_of by done. rewrite block_of_spare by done.
    rewrite construct_at_at by (rewrite length_fmap; done).
    cbn [mbind outcome_bind]. rewrite with_mem_vector_of.
    by apply Hfinish.
  - assert (length xs = cap) as Hfull by lia.
    destruct Hok as [?|Hok]; [lia|].
    unfold Vector.EmplaceBack_grow, Vector.Size, Vector.Capacity.
    cbn [vector_of Vector.size_ Vector.data_ raw_of RawMemory.Capacity
         RawMemory.capacity_].
    fold (raw_of (block_of xs cap) cap). fold (vector_of xs cap).
    set (n := if bool_decide (length xs = 0%nat) then 1%nat else (cap * 2)%nat).
    assert (length xs < n)%nat as Hn by (subst n; case_bool_decide; lia).
    rewrite ctor_raw_of. unfold RawMemory.plus. simpl RawMemory.capacity_.
    rewrite bool_decide_eq_true_2 by lia. cbn [assert mbind outcome_bind].
    rewrite cells_raw_of by lia.
    rewrite (replicate_split None (length xs) n) by lia.
    destruct (n - length xs)%nat as [|k] eqn:Hk; [lia|].
    cbn [replicate]. replace k with (n - length xs - 1)%nat by lia.
    rewrite construct_at_at by (rewrite length_replicate; done).
    cbn [mbind outcome_bind]. rewrite with_cells_raw_of.
    rewrite FullSafeMemoryTransfer_gen;
      [| done | done | by rewrite length_replicate | lia].
    cbn [leave mbind outcome_bind fst]. by apply Hfinish.
Qed.

Lemma EmplaceBack_run xs cap x :
  (length xs ≤ cap)%nat → Forall nothrow xs →
  Vector.EmplaceBack (vector_of xs cap) (Some x)
  = Done (vector_of (xs ++ [x]) (next_capacity (length xs) cap),
          Z.of_nat (length xs)).
Proof.
  intros Hle Hok. apply EmplaceBack_gen; [done|].
  right. by apply nothrow_transfers.
Qed.

Lemma PushBack_run xs cap x :
  (length xs ≤ cap)%nat → Forall nothrow xs → nothrow x →
  Vector.PushBack (vector_of xs cap) (Vector.Lvalue x)
  = Done (vector_of (xs ++ [x]) (next_capacity (length xs) cap)).
Proof.
  intros Hle Hok [Hx _]. unfold Vector.PushBack, Vector.construct_from.
  rewrite Hx. by rewrite EmplaceBack_run.
Qed.

Lemma next_capacity_fits size cap :
  (size ≤ cap)%nat → (size + 1 ≤ next_capacity size cap)%nat.
Proof. intros. unfold next_capacity. repeat case_bool_decide; lia. Qed.

Lemma next_capacity_grows size cap : (cap ≤ next_capacity size cap)%nat.
Proof. unfold next_capacity. repeat case_bool_decide; lia. Qed.

Lemma grown_fits n : (n ≤ grown n)%nat.
Proof.
  destruct n as [|[|m]]; [done | done |].
  unfold grown. apply Nat.log2_up_spec. lia.
Qed.

Lemma grown_pos n : (0 < n)%nat → grown n = (2 ^ Nat.log2_up n)%nat.
Proof. destruct n; [lia | done]. Qed.

Lemma grown_step n : next_capacity n (grown n) = grown (S n).
Proof.
  destruct (decide (n ≤ 1)%nat) as [Hsmall|Hn].
  { destruct n as [|[|m]]; [done | done | lia]. }
  rewrite !grown_pos by lia. set (k := Nat.log2_up n).
  destruct (Nat.log2_up_spec n) as [Hlo Hhi]; [lia|]. fold k in Hlo, Hhi.
  assert (0 < k)%nat as Hk.
  { destruct k; [simpl in Hhi; lia | lia]. }
  unfold next_capacity. case_bool_decide as Hspare.
  - f_equal. symmetry. apply Nat.log2_up_unique; [done | lia].
  - rewrite bool_decide_eq_false_2 by lia.
    rewrite (Nat.log2_up_unique (S n) (S k)); [rewrite Nat.pow_succ_r'; lia | lia |].
    simpl Nat.pred. rewrite Nat.pow_succ_r'. lia.
Qed.

Lemma push_all_run ys : ∀ xs cap,
  (length xs ≤ cap)%nat → Forall nothrow xs → Forall nothrow ys →
  ∃ cap', push_all (vector_of xs cap) ys = Done (vector_of (xs ++ ys) cap')
          ∧ (length (xs ++ ys) ≤ cap')%nat
          ∧ (cap = grown (length xs) → cap' = grown (length (xs ++ ys))).
Proof.
  induction ys as [|y ys IH]; intros xs cap Hle Hxs Hys.
  { exists cap. rewrite (right_id_L [] (++)). done. }
  inversion_clear Hys as [|? ? Hy Hys'].
  cbn [push_all]. rewrite PushBack_run by done. cbn [mbind outcome_bind].
  destruct (IH (xs ++ [y]) (next_capacity (length xs) cap))
    as (cap' & Hrun & Hfit & Hcap); [| | done |].
  { rewrite length_app. simpl. by apply next_capacity_fits. }
  { apply Forall_app. split; [done|]. by apply Forall_singleton. }
  exists cap'. rewrite <- (assoc_L (++)) in Hrun, Hfit, Hcap. simpl in *.
  split_and!; [done | done |].
  intros ->. apply Hcap. rewrite grown_step, length_app.
  f_equal. simpl. lia.
Qed.
End Growth.

(** ** Construction, destruction and copy assignment *)

Section CopyFacts.
Context {T : Type} `{!Element T}.
Local Abbreviation block := (list (option T)).
Implicit Types (b pre post : block) (xs ys : list T) (v : Vector.t T).

Lemma alive_raw n : alive (replicate n (@None T)) = [].
Proof. induction n; [done | by simpl]. Qed.

Lemma alive_app b b' : alive (b ++ b') = alive b ++ alive b'.
Proof. apply omap_app. Qed.

Lemma alive_live xs : alive (Some <$> xs) = xs.
Proof. induction xs as [|x xs IH]; [done|]. simpl. by f_equal. Qed.

Lemma alive_block_of xs cap : alive (block_of xs cap) = xs.
Proof.
  unfold block_of. by rewrite alive_app, alive_live, alive_raw, (right_id_L [] (++)).
Qed.

Lemma copy_n_front {St} xs spost (zs : list T) dpost n :
  n = length xs → length zs = length xs →
  copy_n (St:=St) ((Some <$> xs) ++ spost) 0 n ((Some <$> zs) ++ dpost) 0
  = Done ((Some <$> xs) ++ dpost).
Proof. intros -> Hlen. exact (copy_n_run xs [] spost [] zs dpost Hlen). Qed.

Lemma destroy_n_at {St} xs pre post p n :
  p = Z.of_nat (length pre) → n = length xs →
  destroy_n (St:=St) (pre ++ (Some <$> xs) ++ post) p n
  = Done (pre ++ replicate n None ++ post).
Proof. intros -> ->. apply destroy_n_run. Qed.

Lemma destroy_n_front {St} xs post n :
  n = length xs →
  destroy_n (St:=St) ((Some <$> xs) ++ post) 0 n
  = Done (replicate n None ++ post).
Proof. intros ->. exact (destroy_n_run xs [] post). Qed.

Lemma uninitialized_copy_at xs spre spost dpre (cs : block) dpost p q n :
  p = Z.of_nat (length spre) → q = Z.of_nat (length dpre) →
  n = length xs → length cs = length xs →
  Forall (λ x, copy_throws x = false) xs →
  uninitialized_copy_n (spre ++ (Some <$> xs) ++ spost) p n
    (dpre ++ cs ++ dpost) q
  = Done (dpre ++ (Some <$> xs) ++ dpost).
Proof. intros -> -> ->. apply uninitialized_copy_run. Qed.

Lemma uninitialized_copy_front xs spost (cs : block) dpost n :
  n = length xs → length cs = length xs →
  Forall (λ x, copy_throws x = false) xs →
  uninitialized_copy_n ((Some <$> xs) ++ spost) 0 n (cs ++ dpost) 0
  = Done ((Some <$> xs) ++ dpost).
Proof. intros ->. exact (uninitialized_copy_run xs [] spost [] cs dpost). Qed.

Lemma ctor_sized_run n :
  Vector.ctor_sized n = Done (vector_of (replicate n T_default) n).
Proof.
  unfold Vector.ctor_sized. rewrite ctor_raw_of, cells_raw_of.
  2:{ by intros ->. }
  pose proof (value_construct_run (St:=()) (replicate n None) [] []) as Hv.
  rewrite length_replicate, !(right_id_L [] (++)) in Hv.
  cbn [app length] in Hv. change (Z.of_nat 0) with 0 in Hv.
  unfold RawMemory.GetAddress. rewrite Hv. cbn [mbind outcome_bind].
  rewrite with_cells_raw_of. unfold vector_of, block_of.
  rewrite length_replicate, Nat.sub_diag, fmap_replicate.
  cbn [replicate]. by rewrite (right_id_L [] (++)).
Qed.

Lemma ctor_copy_run xs cap :
  (length xs ≤ cap)%nat → Forall (λ x, copy_throws x = false) xs →
  Vector.ctor_copy (vector_of xs cap) = Done (vector_of xs (length xs)).
Proof.
  intros Hle Hok. unfold Vector.ctor_copy.
  rewrite mem_vector_of by done. cbn [vector_of Vector.size_].
  rewrite ctor_raw_of, cells_raw_of.
  2:{ intros Hz. by rewrite Hz. }
  unfold RawMemory.GetAddress, block_of.
  rewrite <- (right_id_L [] (++) (replicate (length xs) None)).
  rewrite uninitialized_copy_front;
    [| done | by rewrite length_replicate | done].
  cbn [unwind mbind outcome_bind]. rewrite with_cells_raw_of.
  unfold vector_of, block_of. rewrite Nat.sub_diag. cbn [replicate].
  by rewrite (right_id_L [] (++)).
Qed.

Lemma dtor_run {St} xs cap :
  (length xs ≤ cap)%nat → Vector.dtor (St:=St) (vector_of xs cap) = Done [].
Proof.
  intros Hle. unfold Vector.dtor. rewrite mem_vector_of by done.
  unfold RawMemory.GetAddress, block_of. cbn [vector_of Vector.size_].
  rewrite destroy_n_front by done. cbn [mbind outcome_bind Vector.data_ vector_of].
  rewrite with_cells_raw_of. unfold RawMemory.lost.
  rewrite cells_raw_of.
  - by rewrite alive_app, !alive_raw.
  - intros ->. destruct xs; [done | simpl in Hle; lia].
Qed.

Lemma size_vector_of xs cap : Vector.size_ (vector_of xs cap) = length xs.
Proof. done. Qed.

Lemma capacity_vector_of xs cap :
  RawMemory.Capacity (Vector.data_ (vector_of xs cap)) = cap.
Proof. done. Qed.

Lemma capacity_vector_of' xs cap :
  RawMemory.capacity_ (Vector.data_ (vector_of xs cap)) = cap.
Proof. done. Qed.

Lemma Swap_vector_of xs ca ys cb :
  Vector.Swap (vector_of xs ca) (vector_of ys cb)
  = (vector_of ys cb, vector_of xs ca).
Proof. done. Qed.

Lemma block_of_split xs cap n :
  block_of xs cap
  = (Some <$> take n xs) ++ (Some <$> drop n xs)
    ++ replicate (cap - length xs) None.
Proof.
  unfold block_of. rewrite (assoc_L (++)), <- fmap_app. by rewrite take_drop.
Qed.

Lemma assign_copy_run xs ys ca cb :
  (length xs ≤ ca)%nat → (length ys ≤ cb)%nat →
  Forall (λ x, copy_throws x = false) ys →
  Vector.assign_copy (vector_of xs ca) (vector_of ys cb)
  = Done (vector_of ys (if bool_decide (ca < length ys)%nat
                        then length ys else ca)).
Proof.
  intros Hxs Hys Hok. unfold Vector.assign_copy.
  rewrite !size_vector_of, !capacity_vector_of.
  case_bool_decide as Hgrow.
  { rewrite ctor_copy_run by done. cbn [unwind mbind outcome_bind].
    rewrite Swap_vector_of. by rewrite dtor_run. }
  rewrite !mem_vector_of by done. unfold RawMemory.GetAddress.
  rewrite !Z.add_0_l.
  case_bool_decide as Hshrink.
  - rewrite (block_of_split xs ca (length ys)). unfold block_of.
    rewrite copy_n_front; [| done | rewrite length_take; lia].
    cbn [mbind outcome_bind].
    rewrite (destroy_n_at (drop (length ys) xs) (Some <$> ys));
      [| by rewrite length_fmap | by rewrite length_drop].
    cbn [mbind outcome_bind]. rewrite with_mem_vector_of.
    unfold Vector.with_size, vector_of, block_of. simpl.
    rewrite <- replicate_add.
    by replace (length xs - length ys + (ca - length xs))%nat
      with (ca - length ys)%nat by lia.
  - rewrite (block_of_split ys cb (length xs)). unfold block_of.
    rewrite copy_n_front; [| rewrite length_take; lia | rewrite length_take; lia].
    cbn [mbind outcome_bind].
    rewrite (replicate_split None (length ys - length xs) (ca - length xs)) by lia.
    rewrite (uninitialized_copy_at (drop (length xs) ys) (Some <$> take (length xs) ys));
      [| rewrite length_fmap, length_take; lia
       | rewrite length_fmap, length_take; lia
       | by rewrite length_drop
       | by rewrite length_replicate, length_drop
       | by apply Forall_drop ].
    cbn [unwind mbind outcome_bind]. rewrite with_mem_vector_of.
    unfold Vector.with_size, vector_of, block_of. simpl.
    rewrite (assoc_L (++)), <- fmap_app, take_drop.
    by replace (ca - length xs - (length ys - length xs))%nat
      with (ca - length ys)%nat by lia.
Qed.

(** Moves and [Swap] on well-formed vectors.  [Swap] and move
    construction keep both operands well-formed; move assignment gives the
    target the source's elements and leaves the source with the target's
    block, still full of the target's former elements, and size 0. *)
Lemma ctor_move_vector_of xs cap :
  Vector.ctor_move (vector_of xs cap) = (vector_of xs cap, vector_of [] 0).
Proof. done. Qed.

Lemma assign_move_vector_of xs ca ys cb :
  Vector.assign_move (vector_of xs ca) (vector_of ys cb)
  = (vector_of ys cb,
     {| Vector.data_ := raw_of (block_of xs ca) ca; Vector.size_ := 0 |}).
Proof. done. Qed.
End CopyFacts.

(** ** Element access on a well-formed vector *)

Section Access.
Context {T : Type} `{!Element T}.
Implicit Types (xs ys : list T) (v : Vector.t T).

Lemma index_vector_of {St} xs cap (i : nat) :
  (length xs ≤ cap)%nat → (i < length xs)%nat →
  ∃ x, xs !! i = Some x ∧ Vector.index (St:=St) (vector_of xs cap) i = Done x.
Proof.
  intros Hle Hi. destruct (lookup_lt_is_Some_2 xs i Hi) as [x Hx].
  exists x. split; [done|].
  unfold Vector.index. rewrite size_vector_of.
  rewrite bool_decide_eq_true_2 by done. cbn [assert mbind outcome_bind].
  unfold RawMemory.index.
  rewrite bool_decide_eq_true_2 by (simpl; lia). cbn [assert mbind outcome_bind].
  unfold read, RawMemory.GetAddress. rewrite Z.add_0_l, cell_nat.
  rewrite mem_vector_of by done. rewrite block_of_lookup by lia.
  by rewrite Hx.
Qed.

Lemma index_vector_of_inv {St} xs cap (i : nat) x :
  (length xs ≤ cap)%nat →
  Vector.index (St:=St) (vector_of xs cap) i = Done x → xs !! i = Some x.
Proof.
  intros Hle Hx. destruct (decide (i < length xs)%nat) as [Hi|Hi].
  - destruct (index_vector_of (St:=St) xs cap i Hle Hi) as (y & Hy & Hidx).
    congruence.
  - unfold Vector.index in Hx. rewrite size_vector_of in Hx.
    by rewrite bool_decide_eq_false_2 in Hx by done.
Qed.

Lemma nothrow_elements xs cap (P : T → Prop) :
  (length xs ≤ cap)%nat →
  (∀ (i : nat) x, Vector.index (St:=()) (vector_of xs cap) i = Done x → P x) →
  Forall P xs.
Proof.
  intros Hle HP. apply Forall_lookup. intros i x Hx. apply (HP i).
  destruct (index_vector_of (St:=()) xs cap i Hle) as (y & Hy & Hidx).
  { by eapply lookup_lt_Some. }
  congruence.
Qed.
End Access.

(** ** Shifting elements inside a block: [std::move], [std::move_backward] *)

Section ShiftFacts.
Context {T : Type} `{!Element T}.
Local Abbreviation block := (list (option T)).
Implicit Types (b pre post : block) (xs ys : list T) (v : Vector.t T).

Lemma read_at {St} pre x post p :
  p = Z.of_nat (length pre) →
  read (St:=St) (pre ++ Some x :: post) p = Done x.
Proof. intros ->. apply read_middle. Qed.

Lemma assign_at {St} pre y post x p :
  p = Z.of_nat (length pre) →
  assign (St:=St) (pre ++ Some y :: post) p x = Done (pre ++ Some x :: post).
Proof. intros ->. apply assign_middle. Qed.

Lemma put_at pre c post c' p :
  p = Z.of_nat (length pre) →
  put (pre ++ c :: post) p c' = pre ++ c' :: post.
Proof. intros ->. apply put_middle. Qed.

Lemma destroy_at_at {St} pre x post p :
  p = Z.of_nat (length pre) →
  destroy_at (St:=St) (pre ++ Some x :: post) p = Done (pre ++ None :: post).
Proof. intros ->. apply destroy_at_middle. Qed.

(** A move assignment from the cell after [pre ++ [c]] into the cell [c]. *)
Lemma move_assign_left {St} pre (c y : T) post p :
  p = Z.of_nat (length pre) →
  move_assign (St:=St) (pre ++ Some c :: Some y :: post) (p + 1) p
  = Done (pre ++ Some y :: Some (moved_from y) :: post).
Proof.
  intros ->. unfold move_assign.
  rewrite (cons_middle (Some c) pre), (assoc_L (++) pre).
  rewrite read_at by (rewrite length_app; simpl; lia).
  cbn [mbind outcome_bind]. rewrite <- (assoc_L (++) pre). cbn [app].
  rewrite assign_middle. cbn [mbind outcome_bind].
  rewrite (cons_middle (Some y) pre), (assoc_L (++) pre).
  rewrite put_at by (rewrite length_app; simpl; lia).
  by rewrite <- (assoc_L (++) pre).
Qed.

(** A move assignment from the cell [y] into the cell after [pre ++ [y]]. *)
Lemma move_assign_right {St} pre (c y : T) post p :
  p = Z.of_nat (length pre) →
  move_assign (St:=St) (pre ++ Some y :: Some c :: post) p (p + 1)
  = Done (pre ++ Some (moved_from y) :: Some y :: post).
Proof.
  intros ->. unfold move_assign. rewrite read_middle.
  cbn [mbind outcome_bind].
  rewrite (cons_middle (Some y) pre), (assoc_L (++) pre).
  rewrite assign_at by (rewrite length_app; simpl; lia).
  cbn [mbind outcome_bind]. rewrite <- (assoc_L (++) pre). cbn [app].
  by rewrite put_middle.
Qed.

Lemma move_forward_run {St} ys : ∀ pre (c : T) post p,
  p = Z.of_nat (length pre) →
  move_forward (St:=St) (pre ++ Some c :: (Some <$> ys) ++ post)
    (p + 1) (length ys) p
  = Done (pre ++ (Some <$> ys) ++ Some (vacated_last c ys) :: post).
Proof.
  induction ys as [|y ys IH]; intros pre c post p Hp; [done|].
  cbn [fmap list_fmap length move_forward app].
  rewrite move_assign_left by done. cbn [mbind outcome_bind].
  rewrite (cons_middle (Some y) pre), (assoc_L (++) pre).
  rewrite IH by (rewrite length_app; simpl; lia).
  rewrite <- (assoc_L (++) pre). cbn [app].
  assert (vacated_last c (y :: ys) = vacated_last (moved_from y) ys) as ->; [|done].
  unfold vacated_last. destruct ys as [|y' ys]; [done|].
  rewrite last_cons_cons. destruct (last (y' :: ys)) eqn:Hlast; [done|].
  by apply last_None in Hlast.
Qed.

Lemma move_back_run {St} ys : ∀ pre (c : T) post p,
  p = Z.of_nat (length pre + length ys) →
  move_back (St:=St) (pre ++ (Some <$> ys) ++ Some c :: post)
    p (length ys) (p + 1)
  = Done (pre ++ Some (vacated_first c ys) :: (Some <$> ys) ++ post).
Proof.
  induction ys as [|y ys IH] using rev_ind; intros pre c post p Hp; [done|].
  rewrite length_app, Nat.add_1_r. cbn [move_back].
  rewrite fmap_app. cbn [fmap list_fmap].
  rewrite <- !(assoc_L (++)). cbn [app].
  rewrite (assoc_L (++) pre (Some <$> ys)).
  replace (p + 1 - 1) with (p - 1 + 1) by lia.
  rewrite move_assign_right
    by (rewrite length_app, length_fmap; rewrite length_app in Hp; simpl in Hp; lia).
  cbn [mbind outcome_bind]. rewrite <- (assoc_L (++) pre).
  rewrite IH by (rewrite length_app in Hp; simpl in Hp; lia).
  assert (vacated_first c (ys ++ [y]) = vacated_first (moved_from y) ys) as ->
    by (by destruct ys).
  done.
Qed.
End ShiftFacts.

(** ** [Erase] and [Emplace] on well-formed vectors *)

Ltac lengths :=
  repeat (progress (rewrite ?length_app, ?length_fmap, ?length_replicate,
                      ?left_behind_length; cbn [length]));
  lia.

Section InsertEraseFacts.
Context {T : Type} `{!Element T}.
Local Abbreviation block := (list (option T)).
Implicit Types (b pre post : block) (xs ys : list T) (v : Vector.t T).

Lemma block_of_around (before : list T) y (after : list T) cap :
  block_of (before ++ y :: after) cap
  = (Some <$> before) ++ Some y :: (Some <$> after)
    ++ replicate (cap - length (before ++ y :: after)) None.
Proof. unfold block_of. by rewrite fmap_app, <- (assoc_L (++)). Qed.

Lemma block_of_without (before after : list T) cap n :
  (n = length before + length after + 1)%nat → (n ≤ cap)%nat →
  block_of (before ++ after) cap
  = ((Some <$> before) ++ (Some <$> after)) ++ None :: replicate (cap - n) None.
Proof.
  intros -> Hle. unfold block_of. rewrite fmap_app, length_app. f_equal.
  destruct (cap - (length before + length after))%nat as [|k] eqn:Hk; [lia|].
  simpl. f_equal. f_equal. lia.
Qed.

Lemma Erase_run (before : list T) y (after : list T) cap :
  (length (before ++ y :: after) ≤ cap)%nat →
  Vector.Erase (vector_of (before ++ y :: after) cap) (Z.of_nat (length before))
  = Done (vector_of (before ++ after) cap, Z.of_nat (length before)).
Proof.
  intros Hle. pose proof Hle as Hlen. rewrite length_app in Hlen. simpl in Hlen.
  unfold Vector.Erase, Vector.cbegin, Vector.cend, Vector.begin, Vector.end_,
    Vector.Size.
  rewrite !size_vector_of. unfold RawMemory.GetAddress.
  rewrite !Z.add_0_l, Z.sub_0_r, Nat2Z.id.
  rewrite !bool_decide_eq_true_2 by (rewrite ?length_app; simpl; lia).
  cbn [andb assert mbind outcome_bind].
  rewrite mem_vector_of by done. unfold std_move.
  rewrite bool_decide_eq_true_2 by (rewrite length_app; simpl; lia).
  replace (Z.to_nat (Z.of_nat (length (before ++ y :: after))
                     - (Z.of_nat (length before) + 1)))
    with (length after) by (rewrite length_app; simpl; lia).
  rewrite block_of_around.
  rewrite move_forward_run by (by rewrite length_fmap).
  cbn [mbind outcome_bind]. rewrite (assoc_L (++) (Some <$> before)).
  rewrite destroy_at_at
    by (rewrite !length_app, !length_fmap; simpl; lia).
  cbn [mbind outcome_bind]. rewrite with_mem_vector_of.
  unfold Vector.with_size, vector_of. cbn [Vector.data_ Vector.size_].
  rewrite (block_of_without before after cap (length (before ++ y :: after)))
    by (rewrite ?length_app; simpl; lia).
  do 3 f_equal. rewrite !length_app. simpl. lia.
Qed.

Lemma move_back_at {St} ys pre (c : T) post p q :
  p = Z.of_nat (length pre + length ys) → q = p + 1 →
  move_back (St:=St) (pre ++ (Some <$> ys) ++ Some c :: post) p (length ys) q
  = Done (pre ++ Some (vacated_first c ys) :: (Some <$> ys) ++ post).
Proof. intros Hp ->. by apply move_back_run. Qed.

Lemma block_of_last_spare (front : list T) z cap :
  (length front + 1 < cap)%nat →
  block_of (front ++ [z]) cap
  = (Some <$> front) ++ Some z :: None
    :: replicate (cap - length front - 2) None.
Proof.
  intros. rewrite block_of_snoc by lia. do 2 f_equal.
  destruct (cap - length front - 1)%nat as [|k] eqn:Hk; [lia|].
  simpl. do 2 f_equal. lia.
Qed.

Lemma Emplace_spare_run (before mid : list T) z cap y :
  (length (before ++ mid ++ [z]) < cap)%nat → move_throws z = false →
  Vector.Emplace (vector_of (before ++ mid ++ [z]) cap)
    (Z.of_nat (length before)) (Some y)
  = Done (vector_of (before ++ y :: mid ++ [z]) cap, Z.of_nat (length before)).
Proof.
  intros Hlt Hz. rewrite (assoc_L (++) before mid [z]) in *.
  pose proof Hlt as Hlen. rewrite !length_app in Hlen. simpl in Hlen.
  unfold Vector.Emplace, Vector.Emplace_move_last, Vector.cbegin, Vector.cend,
    Vector.begin, Vector.end_, Vector.Size, Vector.Capacity.
  rewrite !size_vector_of, !capacity_vector_of. unfold RawMemory.GetAddress.
  rewrite !Z.add_0_l, Z.sub_0_r, Nat2Z.id.
  rewrite !bool_decide_eq_true_2 by lengths.
  cbn [andb assert mbind outcome_bind].
  rewrite mem_vector_of by lia.
  rewrite block_of_last_spare by lengths.
  rewrite read_at by lengths.
  cbn [mbind outcome_bind]. rewrite Hz.
  rewrite (cons_middle (Some z) (Some <$> before ++ mid)),
    (assoc_L (++) (Some <$> before ++ mid) [Some z]).
  rewrite construct_at_at
    by lengths.
  cbn [mbind outcome_bind].
  rewrite <- (assoc_L (++) (Some <$> before ++ mid) [Some z]). cbn [app].
  rewrite put_at by lengths.
  unfold move_backward.
  rewrite bool_decide_eq_true_2 by lengths.
  replace (Z.to_nat (Z.of_nat (length ((before ++ mid) ++ [z])) - 1
                     - Z.of_nat (length before)))
    with (length mid) by lengths.
  rewrite fmap_app, <- (assoc_L (++) (Some <$> before) (Some <$> mid)).
  rewrite move_back_at
    by lengths.
  cbn [mbind outcome_bind]. unfold RawMemory.index.
  rewrite capacity_vector_of'.
  rewrite bool_decide_eq_true_2 by lia. cbn [assert mbind outcome_bind].
  unfold RawMemory.GetAddress. rewrite Z.add_0_l.
  rewrite assign_at by (by rewrite length_fmap).
  cbn [mbind outcome_bind]. rewrite with_mem_vector_of.
  unfold Vector.with_size, vector_of. cbn [Vector.data_ Vector.size_].
  unfold block_of. rewrite !fmap_app, !length_app. cbn [fmap list_fmap length].
  rewrite !length_app. cbn [length].
  rewrite <- !(assoc_L (++)). cbn [app].
  replace (cap - (length before + S (length mid + 1)))%nat
    with (cap - (length before + length mid) - 2)%nat by lia.
  replace (length before + S (length mid + 1))%nat
    with (length before + length mid + 1 + 1)%nat by lia.
  rewrite fmap_app, <- (assoc_L (++) (Some <$> mid)). done.
Qed.

Lemma SafeMemoryTransfer_at xs spre spost dpre (cs : block) dpost p q n :
  p = Z.of_nat (length spre) → q = Z.of_nat (length dpre) →
  n = length xs → length cs = length xs → Forall transfers xs →
  Vector.SafeMemoryTransfer (spre ++ (Some <$> xs) ++ spost) p n
    (dpre ++ cs ++ dpost) q
  = Done (spre ++ (Some <$> left_behind xs) ++ spost,
          dpre ++ (Some <$> xs) ++ dpost).
Proof. intros -> -> ->. apply SafeMemoryTransfer_gen. Qed.

Lemma SafeMemoryTransfer_front xs spost (cs : block) dpost n :
  n = length xs → length cs = length xs → Forall transfers xs →
  Vector.SafeMemoryTransfer ((Some <$> xs) ++ spost) 0 n (cs ++ dpost) 0
  = Done ((Some <$> left_behind xs) ++ spost, (Some <$> xs) ++ dpost).
Proof. intros ->. exact (SafeMemoryTransfer_gen xs [] spost [] cs dpost). Qed.

Lemma Emplace_grow_gen (before after : list T) y :
  Forall transfers (before ++ after) →
  Vector.Emplace (vector_of (before ++ after) (length (before ++ after)))
    (Z.of_nat (length before)) (Some y)
  = Done (vector_of (before ++ y :: after)
            (if bool_decide (length (before ++ after) = 0%nat) then 1%nat
             else (length (before ++ after) * 2)%nat),
          Z.of_nat (length before)).
Proof.
  intros Hok. apply Forall_app in Hok as [Hbefore Hafter].
  set (n := length (before ++ after)).
  assert (n = length before + length after)%nat as Hn by (subst n; lengths).
  unfold Vector.Emplace, Vector.cbegin, Vector.cend,
    Vector.begin, Vector.end_, Vector.Size, Vector.Capacity.
  rewrite !size_vector_of, !capacity_vector_of. unfold RawMemory.GetAddress.
  fold n. rewrite !Z.add_0_l, Z.sub_0_r, Nat2Z.id.
  rewrite (bool_decide_eq_true_2 (0 ≤ Z.of_nat (length before))) by lia.
  rewrite (bool_decide_eq_true_2 (Z.of_nat (length before) ≤ Z.of_nat n)) by lia.
  cbn [andb assert mbind outcome_bind].
  rewrite bool_decide_eq_false_2 by lia.
  unfold Vector.Emplace_grow, Vector.begin, Vector.end_, Vector.Size,
    Vector.Capacity.
  rewrite !size_vector_of, !capacity_vector_of. unfold RawMemory.GetAddress.
  fold n. rewrite !Z.add_0_l.
  set (m := if bool_decide (n = 0%nat) then 1%nat else (n * 2)%nat).
  assert (n < m)%nat as Hm by (subst m; case_bool_decide; lia).
  rewrite ctor_raw_of, cells_raw_of by lia.
  rewrite (replicate_split None (length before) m) by lia.
  destruct (m - length before)%nat as [|k] eqn:Hk; [lia|]. cbn [replicate].
  rewrite construct_at_at by lengths. cbn [mbind outcome_bind].
  rewrite mem_vector_of by (fold n; lia). unfold block_of at 1.
  rewrite fmap_app, <- (assoc_L (++) (Some <$> before)).
  rewrite SafeMemoryTransfer_front; [| done | lengths | done].
  rewrite (replicate_split None (length after) k) by lia.
  rewrite (cons_middle (Some y) (Some <$> before)),
    (assoc_L (++) (Some <$> before) [Some y]).
  replace (Z.to_nat (Z.of_nat n - 0 - Z.of_nat (length before)))
    with (length after) by lia.
  rewrite SafeMemoryTransfer_at; [| lengths | lengths | done | lengths | done].
  rewrite (assoc_L (++) (Some <$> left_behind before)), <- fmap_app.
  rewrite destroy_n_front by (rewrite length_app, !left_behind_length; lia).
  cbn [mbind outcome_bind]. rewrite !with_cells_raw_of.
  cbn [vector_of Vector.data_ Vector.size_]. rewrite with_cells_raw_of.
  cbn [RawMemory.Swap leave fst]. unfold Vector.with_size.
  cbn [Vector.data_ Vector.size_ raw_of RawMemory.buffer_ RawMemory.capacity_].
  fold (raw_of (((Some <$> before) ++ [Some y]) ++ (Some <$> after)
                ++ replicate (k - length after) None) m).
  cbn [mbind outcome_bind Vector.data_ Vector.size_].
  unfold vector_of, block_of.
  rewrite fmap_app, <- !(assoc_L (++)). cbn [fmap list_fmap app].
  replace (m - length (before ++ y :: after))%nat with (k - length after)%nat
    by lengths.
  by replace (length (before ++ y :: after)) with (n + 1)%nat by lengths.
Qed.

Lemma Emplace_grow_run (before after : list T) y :
  Forall nothrow (before ++ after) →
  Vector.Emplace (vector_of (before ++ after) (length (before ++ after)))
    (Z.of_nat (length before)) (Some y)
  = Done (vector_of (before ++ y :: after)
            (if bool_decide (length (before ++ after) = 0%nat) then 1%nat
             else (length (before ++ after) * 2)%nat),
          Z.of_nat (length before)).
Proof. intros Hok. by apply Emplace_grow_gen, nothrow_transfers. Qed.

Lemma Emplace_at_end_spare_fault (front : list T) z cap built :
  (length (front ++ [z]) < cap)%nat → move_throws z = false →
  Vector.Emplace (vector_of (front ++ [z]) cap)
    (Vector.end_ (vector_of (front ++ [z]) cap)) built
  = Undefined (InvalidRange (Z.of_nat (length (front ++ [z])))
                            (Z.of_nat (length (front ++ [z])) - 1)).
Proof.
  intros Hlt Hz.
  unfold Vector.Emplace, Vector.Emplace_move_last, Vector.cbegin, Vector.cend,
    Vector.begin, Vector.end_, Vector.Size, Vector.Capacity.
  rewrite !size_vector_of, !capacity_vector_of. unfold RawMemory.GetAddress.
  rewrite !Z.add_0_l, Z.sub_0_r, Nat2Z.id.
  rewrite !bool_decide_eq_true_2 by (revert Hlt; lengths).
  cbn [andb assert mbind outcome_bind].
  rewrite mem_vector_of by lia.
  rewrite block_of_last_spare by (revert Hlt; lengths).
  rewrite read_at by lengths.
  cbn [mbind outcome_bind]. rewrite Hz.
  rewrite (cons_middle (Some z) (Some <$> front)),
    (assoc_L (++) (Some <$> front) [Some z]).
  rewrite construct_at_at by lengths.
  cbn [mbind outcome_bind]. unfold move_backward.
  by rewrite bool_decide_eq_false_2 by lia.
Qed.

(** [Insert] at a position before [end()] of a vector with spare capacity
    inserts; only the last element is move-constructed. *)
Lemma Insert_inside_run (before mid : list T) z cap y :
  (length (before ++ mid ++ [z]) < cap)%nat →
  move_throws z = false → copy_throws y = false →
  Vector.Insert (vector_of (before ++ mid ++ [z]) cap)
    (Z.of_nat (length before)) (Vector.Lvalue y)
  = Done (vector_of (before ++ y :: mid ++ [z]) cap, Z.of_nat (length before)).
Proof.
  intros Hlt Hz Hy. unfold Vector.Insert, Vector.construct_from. rewrite Hy.
  by apply Emplace_spare_run.
Qed.

(** [Insert] into a full vector, at any position up to [end()], inserts
    into a new block. *)
Lemma Insert_full_run (before after : list T) y :
  Forall nothrow (before ++ after) → copy_throws y = false →
  Vector.Insert (vector_of (before ++ after) (length (before ++ after)))
    (Z.of_nat (length before)) (Vector.Lvalue y)
  = Done (vector_of (before ++ y :: after)
            (if bool_decide (length (before ++ after) = 0%nat) then 1%nat
             else (length (before ++ after) * 2)%nat),
          Z.of_nat (length before)).
Proof.
  intros Hok Hy. unfold Vector.Insert, Vector.construct_from. rewrite Hy.
  by apply Emplace_grow_run.
Qed.

(** Insertion then erasure at the returned position gives the elements
    back, when the position is before [end()] ... *)
Lemma insert_then_erase_inside (before mid : list T) z cap y :
  (length (before ++ mid ++ [z]) < cap)%nat →
  move_throws z = false → copy_throws y = false →
  insert_then_erase (vector_of (before ++ mid ++ [z]) cap)
    (Z.of_nat (length before)) (Vector.Lvalue y)
  = Done (vector_of (before ++ mid ++ [z]) cap, Z.of_nat (length before)).
Proof.
  intros Hlt Hz Hy. unfold insert_then_erase.
  rewrite Insert_inside_run by done. cbn [mbind outcome_bind].
  apply Erase_run. revert Hlt. lengths.
Qed.

(** ... or when the vector is full. *)
Lemma insert_then_erase_full (before after : list T) y :
  Forall nothrow (before ++ after) → copy_throws y = false →
  insert_then_erase (vector_of (before ++ after) (length (before ++ after)))
    (Z.of_nat (length before)) (Vector.Lvalue y)
  = Done (vector_of (before ++ after)
            (if bool_decide (length (before ++ after) = 0%nat) then 1%nat
             else (length (before ++ after) * 2)%nat),
          Z.of_nat (length before)).
Proof.
  intros Hok Hy. unfold insert_then_erase.
  rewrite Insert_full_run by done. cbn [mbind outcome_bind].
  apply Erase_run. case_bool_decide as Hz; revert Hz; lengths.
Qed.
End InsertEraseFacts.

(** ** A copy that raises during a transfer into a new block *)

Section FailureFacts.
Context {T : Type} `{!Element T}.
Local Abbreviation block := (list (option T)).
Implicit Types (b pre post : block) (xs ys : list T) (v : Vector.t T).

(** [std::uninitialized_copy_n] into raw cells leaves them raw when a copy
    raises. *)
Lemma uninitialized_copy_raise xs : ∀ spre spost dpre dpost,
  Exists (λ x, copy_throws x = true) xs →
  uninitialized_copy_n (spre ++ (Some <$> xs) ++ spost)
    (Z.of_nat (length spre)) (length xs)
    (dpre ++ replicate (length xs) None ++ dpost) (Z.of_nat (length dpre))
  = Raised (dpre ++ replicate (length xs) None ++ dpost).
Proof.
  induction xs as [|x xs IH]; intros spre spost dpre dpost Hex.
  { by apply Exists_nil in Hex. }
  cbn [fmap list_fmap length uninitialized_copy_n app replicate].
  rewrite read_middle. cbn [mbind outcome_bind].
  destruct (copy_throws x) eqn:Hx; [done|].
  apply Exists_cons in Hex as [Hex|Hex]; [congruence|].
  rewrite construct_at_middle. cbn [mbind outcome_bind].
  rewrite (next_cell spre (Some x)), (next_cell dpre (Some x)).
  rewrite (cons_middle (Some x) spre), (cons_middle (Some x) dpre).
  rewrite (assoc_L (++) spre), (assoc_L (++) dpre).
  rewrite IH by done. rewrite <- (assoc_L (++) dpre). cbn [app].
  by rewrite destroy_at_middle.
Qed.

Lemma uninitialized_copy_raise_at xs spre spost dpre dpost p q n :
  p = Z.of_nat (length spre) → q = Z.of_nat (length dpre) → n = length xs →
  Exists (λ x, copy_throws x = true) xs →
  uninitialized_copy_n (spre ++ (Some <$> xs) ++ spost) p n
    (dpre ++ replicate n None ++ dpost) q
  = Raised (dpre ++ replicate n None ++ dpost).
Proof. intros -> -> ->. apply uninitialized_copy_raise. Qed.

Lemma uninitialized_copy_raise_front xs spost dpost n :
  n = length xs → Exists (λ x, copy_throws x = true) xs →
  uninitialized_copy_n ((Some <$> xs) ++ spost) 0 n
    (replicate n None ++ dpost) 0
  = Raised (replicate n None ++ dpost).
Proof. intros ->. exact (uninitialized_copy_raise xs [] spost [] dpost). Qed.

(** [Reserve] gives the strong guarantee when the policy copies: the
    vector is unchanged and the new block is released raw. *)
Lemma Reserve_grow_raises xs cap n :
  copies → (length xs ≤ cap)%nat → (cap < n)%nat →
  Exists (λ x, copy_throws x = true) xs →
  Vector.Reserve_grow (vector_of xs cap) n
  = Raised (vector_of xs cap, RawMemory.ctor n).
Proof.
  intros Hcopies Hle Hlt Hex.
  unfold Vector.Reserve_grow, Vector.FullSafeMemoryTransfer,
    Vector.SafeMemoryTransfer, Vector.Size, RawMemory.GetAddress.
  rewrite Hcopies, size_vector_of, mem_vector_of, ctor_raw_of, cells_raw_of
    by (done || lia).
  rewrite (replicate_split None (length xs) n) by lia. unfold block_of.
  rewrite uninitialized_copy_raise_front by done.
  cbn [leave unwind mbind outcome_bind].
  by rewrite with_mem_vector_of, with_cells_raw_of.
Qed.

(** [EmplaceBack] on a full vector, when the policy copies and the copy of
    an element raises: the vector is unchanged, and the new block is
    released with the new element alive in it. *)
Lemma EmplaceBack_grow_raises xs y :
  copies → Exists (λ x, copy_throws x = true) xs →
  ∃ new_data,
    Vector.EmplaceBack_grow (vector_of xs (length xs)) (Some y)
    = Raised (vector_of xs (length xs), new_data)
    ∧ RawMemory.lost new_data = [y].
Proof.
  intros Hcopies Hex.
  assert (length xs ≠ 0)%nat as Hne.
  { destruct xs; [by apply Exists_nil in Hex | done]. }
  unfold Vector.EmplaceBack_grow, Vector.FullSafeMemoryTransfer,
    Vector.SafeMemoryTransfer, Vector.Size, Vector.Capacity,
    RawMemory.GetAddress, RawMemory.plus.
  rewrite Hcopies, !size_vector_of, capacity_vector_of.
  rewrite bool_decide_eq_false_2 by done.
  rewrite ctor_raw_of. cbn [raw_of RawMemory.capacity_].
  fold (raw_of (T:=T) (replicate (length xs * 2) None) (length xs * 2)).
  rewrite bool_decide_eq_true_2 by lia. cbn [assert mbind outcome_bind].
  rewrite Z.add_0_l, cells_raw_of by lia.
  rewrite (replicate_split None (length xs) (length xs * 2)) by lia.
  destruct (length xs * 2 - length xs)%nat as [|k] eqn:Hk; [lia|].
  cbn [replicate].
  rewrite construct_at_at by (by rewrite length_replicate).
  cbn [mbind outcome_bind]. rewrite with_cells_raw_of, cells_raw_of by lia.
  rewrite mem_vector_of by done. unfold block_of.
  rewrite uninitialized_copy_raise_front by done.
  cbn [leave unwind mbind outcome_bind].
  rewrite with_mem_vector_of, with_cells_raw_of.
  eexists. split; [done|].
  unfold RawMemory.lost. rewrite cells_raw_of by lia.
  rewrite alive_app, alive_raw. simpl. by rewrite alive_raw.
Qed.

(** [Emplace] on a full vector in the same situation: its handlers
    destruct what the new block holds, the new element included, and the
    vector is unchanged. *)
Lemma Emplace_grow_raises (before after : list T) y :
  copies → Exists (λ x, copy_throws x = true) (before ++ after) →
  let n := length (before ++ after) in
  Vector.Emplace_grow (vector_of (before ++ after) n) (length before) (Some y)
  = Raised (vector_of (before ++ after) n, RawMemory.ctor (n * 2))
  ∧ RawMemory.lost (RawMemory.ctor (T:=T) (n * 2)) = [].
Proof.
  intros Hcopies Hex n.
  assert (n = length before + length after)%nat as Hn by (subst n; lengths).
  assert (n ≠ 0)%nat as Hne.
  { subst n. destruct (before ++ after); [by apply Exists_nil in Hex | done]. }
  split.
  2:{ unfold RawMemory.lost. rewrite ctor_raw_of, cells_raw_of by lia.
      apply alive_raw. }
  unfold Vector.Emplace_grow, Vector.SafeMemoryTransfer, Vector.begin,
    Vector.end_, Vector.Size, Vector.Capacity, RawMemory.GetAddress.
  rewrite Hcopies, !size_vector_of, capacity_vector_of. fold n.
  rewrite bool_decide_eq_false_2 by done. rewrite !Z.add_0_l.
  rewrite ctor_raw_of, cells_raw_of by lia.
  rewrite (replicate_split None (length before) (n * 2)) by lia.
  destruct (n * 2 - length before)%nat as [|k] eqn:Hk; [lia|]. cbn [replicate].
  rewrite construct_at_at by lengths. cbn [mbind outcome_bind].
  rewrite mem_vector_of by (fold n; lia). unfold block_of.
  rewrite fmap_app, <- (assoc_L (++) (Some <$> before)).
  destruct (decide (Exists (λ x, copy_throws x = true) before)) as [Hb|Hb].
  - rewrite uninitialized_copy_raise_front by done. cbn [leave].
    rewrite destroy_at_at by lengths. cbn [mbind outcome_bind].
    rewrite (assoc_L (++) (Some <$> before)), <- fmap_app.
    fold (block_of (before ++ after) n).
    by rewrite with_mem_vector_of, with_cells_raw_of.
  - apply Exists_app in Hex as [Hex|Hex]; [done|].
    apply not_Exists_Forall in Hb; [|apply _].
    rewrite uninitialized_copy_front; [| done | lengths |].
    2:{ eapply Forall_impl; [exact Hb|]. intros x Hx. simpl in Hx.
        by destruct (copy_throws x). }
    cbn [leave].
    rewrite (replicate_split None (length after) k) by lia.
    rewrite (cons_middle (Some y) (Some <$> before)),
      (assoc_L (++) (Some <$> before) [Some y]).
    replace (Z.to_nat (Z.of_nat n - 0 - Z.of_nat (length before)))
      with (length after) by lia.
    rewrite uninitialized_copy_raise_at; [| lengths | lengths | done | done].
    cbn [leave].
    replace (length before + 1)%nat with (length (before ++ [y]))
      by lengths.
    replace ((Some <$> before) ++ [Some y]) with (Some <$> before ++ [y])
      by (by rewrite fmap_app).
    rewrite destroy_n_front by done. cbn [mbind outcome_bind].
    rewrite (assoc_L (++) (Some <$> before) (Some <$> after)), <- fmap_app.
    fold (block_of (before ++ after) n).
    rewrite with_mem_vector_of, with_cells_raw_of.
    do 3 f_equal. rewrite length_app. cbn [length].
    by rewrite replicate_add, <- (assoc_L (++)).
Qed.
End FailureFacts.

(** ** [Reserve] and the loop of [Resize] *)

Section ReserveFacts.
Context {T : Type} `{!Element T}.
Implicit Types (xs ys : list T) (v : Vector.t T).

(** The reallocation of [Reserve]: the elements arrive in the new block
    and the old block, all raw again, is what [new_data] holds when it goes
    out of scope. *)
Lemma Reserve_grow_gen xs cap n :
  (length xs ≤ cap)%nat → Forall transfers xs → (cap < n)%nat →
  Vector.Reserve_grow (vector_of xs cap) n
  = Done (vector_of xs n, raw_of (replicate cap None) cap).
Proof.
  intros Hle Hok Hn.
  unfold Vector.Reserve_grow, Vector.Size, RawMemory.GetAddress.
  rewrite size_vector_of, ctor_raw_of.
  rewrite (replicate_split None (length xs) n) by lia.
  rewrite FullSafeMemoryTransfer_gen;
    [| done | done | by rewrite length_replicate | lia].
  done.
Qed.

Lemma Reserve_gen xs cap n :
  (length xs ≤ cap)%nat → Forall transfers xs →
  Vector.Reserve (vector_of xs cap) n
  = Done (vector_of xs (if bool_decide (n ≤ cap)%nat then cap else n)).
Proof.
  intros Hle Hok. unfold Vector.Reserve. rewrite capacity_vector_of.
  case_bool_decide as Hn; [done|].
  by rewrite Reserve_grow_gen by (done || lia).
Qed.

Lemma Reserve_run xs cap n :
  (length xs ≤ cap)%nat → Forall nothrow xs →
  Vector.Reserve (vector_of xs cap) n
  = Done (vector_of xs (if bool_decide (n ≤ cap)%nat then cap else n)).
Proof. intros Hle Hok. by apply Reserve_gen, nothrow_transfers. Qed.

(** Once [capacity * 2] is within the capacity, [Reserve(capacity * 2)]
    changes nothing and the loop has no way out. *)
Lemma Resize_loop_stuck xs cap new_size capacity :
  (cap < new_size)%nat → (capacity * 2 ≤ cap)%nat →
  ∀ fuel, Vector.Resize_loop fuel (vector_of xs cap) new_size capacity = None.
Proof.
  intros Hlt Hle fuel. induction fuel as [|fuel IH]; simpl.
  - unfold Vector.Capacity. rewrite capacity_vector_of.
    by rewrite bool_decide_eq_true_2 by done.
  - unfold Vector.Capacity. rewrite capacity_vector_of.
    rewrite bool_decide_eq_true_2 by done.
    unfold Vector.Reserve. rewrite capacity_vector_of.
    rewrite bool_decide_eq_true_2 by done. exact IH.
Qed.

(** [PopBack] addresses the cell at index [size_]. *)
Lemma PopBack_fault xs (spare : nat) :
  Vector.PopBack (vector_of xs (length xs + spare))
  = Undefined (match spare with
               | O => OutOfBlock (Z.of_nat (length xs))
               | S _ => NotAlive (Z.of_nat (length xs))
               end).
Proof.
  unfold Vector.PopBack. rewrite mem_vector_of by lia.
  rewrite size_vector_of. unfold destroy_at, RawMemory.GetAddress.
  rewrite Z.add_0_l, cell_nat. destruct spare as [|k].
  - rewrite lookup_ge_None_2; [done|].
    rewrite block_of_length by lia. lia.
  - rewrite block_of_lookup by lia.
    by rewrite lookup_ge_None_2 by lia.
Qed.

Lemma raw_of_allocated (b : list (option T)) cap :
  cap ≠ 0%nat →
  raw_of b cap = {| RawMemory.buffer_ := Some b; RawMemory.capacity_ := cap |}.
Proof. intros. unfold raw_of. by rewrite bool_decide_eq_true_2. Qed.

Lemma value_construct_at {St} (cs : list (option T)) pre post p n :
  p = Z.of_nat (length pre) → n = length cs →
  uninitialized_value_construct_n (St:=St) (pre ++ cs ++ post) p n
  = Done (pre ++ replicate n (Some T_default) ++ post).
Proof. intros -> ->. apply value_construct_run. Qed.

(** [Resize] to a smaller size destructs the tail. *)
Lemma Resize_shrink_run xs cap new_size fuel :
  (length xs ≤ cap)%nat → (new_size < length xs)%nat →
  Vector.Resize fuel (vector_of xs cap) new_size
  = Some (Done (vector_of (take new_size xs) cap)).
Proof.
  intros Hle Hlt. unfold Vector.Resize, Vector.Size.
  rewrite !size_vector_of. rewrite bool_decide_eq_true_2 by done.
  rewrite mem_vector_of by done. unfold RawMemory.GetAddress.
  rewrite Z.add_0_l, (block_of_split xs cap new_size).
  rewrite (destroy_n_at (drop new_size xs) (Some <$> take new_size xs));
    [| rewrite length_fmap, length_take; lia | rewrite length_drop; lia].
  cbn [mbind outcome_bind]. rewrite with_mem_vector_of.
  unfold Vector.with_size, vector_of, block_of.
  cbn [Vector.data_ Vector.size_]. rewrite length_take.
  rewrite <- replicate_add.
  replace (length xs - new_size + (cap - length xs))%nat
    with (cap - new_size `min` length xs)%nat by lia.
  by replace (new_size `min` length xs)%nat with new_size by lia.
Qed.

(** [Resize] to a larger size ends when [new_size] is within the capacity
    or within twice the local [capacity]; the new cells hold [T()]. *)
Lemma Resize_grow_gen xs cap new_size fuel :
  (length xs ≤ cap)%nat → Forall transfers xs → (length xs < new_size)%nat →
  let capacity := if bool_decide (length xs = 0%nat) then 1%nat else cap in
  let cap' := if bool_decide (new_size ≤ cap)%nat then cap
              else (capacity * 2)%nat in
  (new_size ≤ cap')%nat →
  Vector.Resize (S fuel) (vector_of xs cap) new_size
  = Some (Done (vector_of (xs ++ replicate (new_size - length xs) T_default)
                  cap')).
Proof.
  intros Hle Hok Hlt capacity cap' Hfit.
  assert (Vector.Resize_loop (S fuel) (vector_of xs cap) new_size capacity
          = Some (Done (vector_of xs cap'))) as Hloop.
  { cbn [Vector.Resize_loop]. unfold Vector.Capacity.
    rewrite capacity_vector_of. subst cap'.
    case_bool_decide as Hcap.
    - by rewrite bool_decide_eq_false_2 by lia.
    - rewrite bool_decide_eq_true_2 by lia. rewrite Reserve_gen by done.
      rewrite bool_decide_eq_false_2 by lia.
      destruct fuel; cbn [Vector.Resize_loop]; unfold Vector.Capacity;
        rewrite capacity_vector_of; by rewrite bool_decide_eq_false_2 by lia. }
  unfold Vector.Resize, Vector.Size, Vector.Capacity.
  rewrite !size_vector_of, capacity_vector_of.
  rewrite bool_decide_eq_false_2 by lia. rewrite bool_decide_eq_true_2 by done.
  fold capacity. rewrite Hloop. f_equal.
  rewrite mem_vector_of by lia. rewrite size_vector_of.
  unfold RawMemory.GetAddress, block_of. rewrite Z.add_0_l.
  rewrite (replicate_split None (new_size - length xs) (cap' - length xs)) by lia.
  rewrite value_construct_at;
    [| by rewrite length_fmap | by rewrite length_replicate].
  cbn [mbind outcome_bind]. rewrite with_mem_vector_of.
  unfold Vector.with_size, vector_of, block_of.
  cbn [Vector.data_ Vector.size_].
  rewrite fmap_app, fmap_replicate, length_app, length_replicate.
  rewrite <- (assoc_L (++)).
  replace (cap' - length xs - (new_size - length xs))%nat
    with (cap' - (length xs + (new_size - length xs)))%nat by lia.
  by replace (length xs + (new_size - length xs))%nat with new_size by lia.
Qed.

Lemma Resize_grow_run xs cap new_size fuel :
  (length xs ≤ cap)%nat → Forall nothrow xs → (length xs < new_size)%nat →
  let capacity := if bool_decide (length xs = 0%nat) then 1%nat else cap in
  let cap' := if bool_decide (new_size ≤ cap)%nat then cap
              else (capacity * 2)%nat in
  (new_size ≤ cap')%nat →
  Vector.Resize (S fuel) (vector_of xs cap) new_size
  = Some (Done (vector_of (xs ++ replicate (new_size - length xs) T_default)
                  cap')).
Proof.
  intros Hle Hok. by apply Resize_grow_gen, nothrow_transfers.
Qed.

(** [Resize] to a larger size does not end otherwise. *)
Lemma Resize_diverges xs cap new_size :
  (length xs ≤ cap)%nat → Forall nothrow xs → (length xs < new_size)%nat →
  let capacity := if bool_decide (length xs = 0%nat) then 1%nat else cap in
  (cap < new_size)%nat → (capacity * 2 < new_size)%nat →
  ∀ fuel, Vector.Resize fuel (vector_of xs cap) new_size = None.
Proof.
  intros Hle Hok Hlt capacity Hcap Hdouble fuel.
  unfold Vector.Resize, Vector.Size, Vector.Capacity.
  rewrite !size_vector_of, capacity_vector_of.
  rewrite bool_decide_eq_false_2 by lia. rewrite bool_decide_eq_true_2 by done.
  fold capacity.
  destruct (decide (capacity * 2 ≤ cap)%nat) as [Hnoop|Hreserve].
  { by rewrite Resize_loop_stuck. }
  destruct fuel as [|fuel]; cbn [Vector.Resize_loop]; unfold Vector.Capacity;
    rewrite capacity_vector_of, bool_decide_eq_true_2 by done; [done|].
  rewrite Reserve_run by done. rewrite bool_decide_eq_false_2 by done.
  by rewrite Resize_loop_stuck by lia.
Qed.
End ReserveFacts.

(** ** Operations that keep the invariant *)

Section InvariantFacts.
Context {T : Type} `{!Element T}.
Implicit Types (xs ys : list T) (v a b other : Vector.t T).

Lemma Inv_ctor_default : Inv (Vector.ctor_default : Vector.t T).
Proof. exact (Inv_vector_of [] 0 (Nat.le_refl 0)). Qed.

(** [Swap] and move construction leave both operands well-formed; move
    assignment does so for its target. *)
Lemma Inv_Swap a b :
  Inv a → Inv b → Inv (fst (Vector.Swap a b)) ∧ Inv (snd (Vector.Swap a b)).
Proof.
  intros Ha Hb.
  destruct (Inv_inv a Ha) as (xs & ca & Hxs & ->).
  destruct (Inv_inv b Hb) as (ys & cb & Hys & ->).
  rewrite Swap_vector_of. split; by apply Inv_vector_of.
Qed.

Lemma Inv_ctor_move other :
  Inv other →
  Inv (fst (Vector.ctor_move other)) ∧ Inv (snd (Vector.ctor_move other))
  ∧ Vector.Size (snd (Vector.ctor_move other)) = 0%nat.
Proof.
  intros Ho. destruct (Inv_inv other Ho) as (xs & cap & Hxs & ->).
  rewrite ctor_move_vector_of.
  split_and!; [by apply Inv_vector_of | by apply Inv_vector_of | done].
Qed.

Lemma Inv_assign_move_target a b :
  Inv b → Inv (fst (Vector.assign_move a b)).
Proof.
  intros Hb. destruct (Inv_inv b Hb) as (ys & cb & Hys & ->).
  destruct a as [[bo ca] n]. by apply Inv_vector_of.
Qed.

(** Appending, reserving and erasing keep the invariant when they return. *)
Lemma Inv_EmplaceBack v x :
  Inv v →
  (∀ (i : nat) y, Vector.index (St:=()) v i = Done y → nothrow y) →
  ∃ v', Vector.EmplaceBack v (Some x) = Done (v', Vector.end_ v) ∧ Inv v'.
Proof.
  intros Hv Hok. destruct (Inv_inv v Hv) as (xs & cap & Hxs & ->).
  rewrite EmplaceBack_run; [| done | by eapply nothrow_elements].
  eexists. split.
  - unfold Vector.end_, Vector.Size, RawMemory.GetAddress.
    by rewrite size_vector_of, Z.add_0_l.
  - apply Inv_vector_of. rewrite length_app. simpl.
    by apply next_capacity_fits.
Qed.

Lemma Inv_Reserve v n :
  Inv v →
  (∀ (i : nat) y, Vector.index (St:=()) v i = Done y → nothrow y) →
  ∃ v', Vector.Reserve v n = Done v' ∧ Inv v'
        ∧ Vector.Size v' = Vector.Size v
        ∧ Vector.Capacity v' = (Vector.Capacity v `max` n)%nat.
Proof.
  intros Hv Hok. destruct (Inv_inv v Hv) as (xs & cap & Hxs & ->).
  rewrite Reserve_run; [| done | by eapply nothrow_elements].
  eexists. split; [done|]. unfold Vector.Size, Vector.Capacity.
  rewrite !size_vector_of, !capacity_vector_of.
  split_and!; [| done | case_bool_decide; lia].
  apply Inv_vector_of. case_bool_decide; lia.
Qed.

Lemma Inv_Erase (before : list T) y (after : list T) cap :
  (length (before ++ y :: after) ≤ cap)%nat →
  ∃ v', Vector.Erase (vector_of (before ++ y :: after) cap)
          (Z.of_nat (length before))
        = Done (v', Z.of_nat (length before))
        ∧ Inv v'.
Proof.
  intros Hle. rewrite Erase_run by done. eexists. split; [done|].
  apply Inv_vector_of. revert Hle. lengths.
Qed.
End InvariantFacts.

(** ** Further facts on the operations *)

Section OperationFacts.
Context {T : Type} `{!Element T}.
Implicit Types (xs ys : list T) (v : Vector.t T).

(** [operator[]] on a well-formed vector is the lookup in its elements. *)
Lemma index_lookup {St} xs cap (i : nat) :
  (length xs ≤ cap)%nat →
  Vector.index (St:=St) (vector_of xs cap) i
  = match xs !! i with
    | Some x => Done x
    | None => Undefined AssertionFailed
    end.
Proof.
  intros Hle. destruct (decide (i < length xs)%nat) as [Hi|Hi].
  - destruct (index_vector_of (St:=St) xs cap i Hle Hi) as (x & -> & ->). done.
  - rewrite lookup_ge_None_2 by lia. unfold Vector.index.
    rewrite size_vector_of. by rewrite bool_decide_eq_false_2 by done.
Qed.

Lemma nonempty_snoc {A} (l : list A) : l ≠ [] → ∃ mid z, l = mid ++ [z].
Proof.
  destruct l as [|z mid _] using rev_ind; [done|]. intros _. by exists mid, z.
Qed.

(** [Emplace] away from the case [pos == end()] with spare capacity. *)
Lemma Emplace_gen (before after : list T) cap y :
  (length (before ++ after) ≤ cap)%nat →
  ((length (before ++ after) < cap)%nat
   ∧ ∃ mid z, after = mid ++ [z] ∧ move_throws z = false)
  ∨ (length (before ++ after) = cap ∧ Forall transfers (before ++ after)) →
  Vector.Emplace (vector_of (before ++ after) cap)
    (Z.of_nat (length before)) (Some y)
  = Done (vector_of (before ++ y :: after)
            (next_capacity (length (before ++ after)) cap),
          Z.of_nat (length before)).
Proof.
  intros Hle [(Hlt & mid & z & -> & Hz)|[Hfull Hok]]; unfold next_capacity.
  - rewrite bool_decide_eq_true_2 by done. by apply Emplace_spare_run.
  - rewrite bool_decide_eq_false_2 by lia. rewrite <- Hfull.
    by apply Emplace_grow_gen.
Qed.

(** Copy construction from a vector one of whose elements raises when
    copied. *)
Lemma ctor_copy_raises xs cap :
  (length xs ≤ cap)%nat → Exists (λ x, copy_throws x = true) xs →
  Vector.ctor_copy (vector_of xs cap) = Raised ().
Proof.
  intros Hle Hex. unfold Vector.ctor_copy.
  rewrite mem_vector_of by done. cbn [vector_of Vector.size_].
  rewrite ctor_raw_of, cells_raw_of.
  2:{ intros Hz. by rewrite Hz. }
  unfold RawMemory.GetAddress, block_of.
  rewrite <- (right_id_L [] (++) (replicate (length xs) None)).
  by rewrite uninitialized_copy_raise_front.
Qed.

(** Appends within the capacity touch no element and keep the block. *)
Lemma push_all_spare ys : ∀ xs cap,
  (length xs + length ys ≤ cap)%nat →
  Forall (λ y, copy_throws y = false) ys →
  push_all (vector_of xs cap) ys = Done (vector_of (xs ++ ys) cap).
Proof.
  induction ys as [|y ys IH]; intros xs cap Hle Hys.
  { by rewrite (right_id_L [] (++)). }
  simpl in Hle. inversion_clear Hys as [|? ? Hy Hys'].
  cbn [push_all]. unfold Vector.PushBack, Vector.construct_from.
  rewrite Hy, EmplaceBack_gen by (auto with lia).
  cbn [leave fst id mbind outcome_bind]. unfold next_capacity.
  rewrite bool_decide_eq_true_2 by lia.
  rewrite IH; [| rewrite length_app; simpl; lia | done].
  by rewrite <- (assoc_L (++)).
Qed.

(** *** Arguments that refer into the vector *)

(** An argument from outside the vector is the value it builds. *)
Lemma from_outside v pos (a : Vector.forwarded T) :
  Vector.EmplaceBack_from v (Vector.Outside a)
  = Vector.EmplaceBack v (Vector.construct_from a)
  ∧ Vector.PushBack_from v (Vector.Outside a) = Vector.PushBack v a
  ∧ Vector.Emplace_from v pos (Vector.Outside a)
    = Vector.Emplace v pos (Vector.construct_from a)
  ∧ Vector.Insert_from v pos (Vector.Outside a) = Vector.Insert v pos a.
Proof. done. Qed.

Lemma read_cells {St} (ys : list T) (rest : list (option T)) (i : nat) y :
  ys !! i = Some y → read (St:=St) ((Some <$> ys) ++ rest) (Z.of_nat i) = Done y.
Proof.
  intros Hy. unfold read. rewrite cell_nat.
  rewrite lookup_app_l by (rewrite length_fmap; by eapply lookup_lt_Some).
  by rewrite list_lookup_fmap, Hy.
Qed.

(** While the block is untouched, a reference to the element [i] is the
    value of that element. *)
Lemma EmplaceBack_from_inside xs cap (i : nat) x :
  (length xs ≤ cap)%nat → xs !! i = Some x →
  Vector.EmplaceBack_from (vector_of xs cap) (Vector.Inside (Z.of_nat i))
  = Vector.EmplaceBack (vector_of xs cap)
      (if copy_throws x then None else Some x).
Proof.
  intros Hle Hx.
  unfold Vector.EmplaceBack_from, Vector.EmplaceBack,
    Vector.EmplaceBack_grow_from, Vector.EmplaceBack_grow, Vector.construct_in.
  rewrite mem_vector_of by done. unfold block_of.
  by rewrite !(read_cells xs _ i x Hx).
Qed.

(** The same for [Emplace] on a full vector. *)
Lemma Emplace_from_full xs (i : nat) x pos :
  xs !! i = Some x →
  Vector.Emplace_from (vector_of xs (length xs)) pos (Vector.Inside (Z.of_nat i))
  = Vector.Emplace (vector_of xs (length xs)) pos
      (if copy_throws x then None else Some x).
Proof.
  intros Hx. unfold Vector.Emplace_from, Vector.Emplace, Vector.construct_in.
  unfold Vector.Size, Vector.Capacity.
  rewrite size_vector_of, capacity_vector_of.
  rewrite !(bool_decide_eq_false_2 (length xs < length xs)%nat) by lia.
  rewrite mem_vector_of by done. unfold block_of.
  by rewrite !(read_cells xs _ i x Hx).
Qed.

(** With spare capacity the reference is read after the shift. *)
Lemma Emplace_from_spare_run (before mid : list T) z cap (i : nat) y :
  (length (before ++ mid ++ [z]) < cap)%nat → move_throws z = false →
  (before ++ vacated_first (moved_from z) mid :: mid ++ [z]) !! i = Some y →
  copy_throws y = false →
  Vector.Emplace_from (vector_of (before ++ mid ++ [z]) cap)
    (Z.of_nat (length before)) (Vector.Inside (Z.of_nat i))
  = Done (vector_of (before ++ y :: mid ++ [z]) cap, Z.of_nat (length before)).
Proof.
  intros Hlt Hz Hi Hy. rewrite (assoc_L (++) before mid [z]) in Hlt |- *.
  pose proof Hlt as Hlen. rewrite !length_app in Hlen. simpl in Hlen.
  unfold Vector.Emplace_from, Vector.Emplace_move_last, Vector.cbegin,
    Vector.cend, Vector.begin, Vector.end_, Vector.Size, Vector.Capacity.
  rewrite !size_vector_of, !capacity_vector_of. unfold RawMemory.GetAddress.
  rewrite !Z.add_0_l, Z.sub_0_r, Nat2Z.id.
  rewrite !bool_decide_eq_true_2 by lengths.
  cbn [andb assert mbind outcome_bind].
  rewrite mem_vector_of by lia.
  rewrite block_of_last_spare by lengths.
  rewrite read_at by lengths.
  cbn [mbind outcome_bind]. rewrite Hz.
  rewrite (cons_middle (Some z) (Some <$> before ++ mid)),
    (assoc_L (++) (Some <$> before ++ mid) [Some z]).
  rewrite construct_at_at by lengths.
  cbn [mbind outcome_bind].
  rewrite <- (assoc_L (++) (Some <$> before ++ mid) [Some z]). cbn [app].
  rewrite put_at by lengths.
  unfold move_backward.
  rewrite bool_decide_eq_true_2 by lengths.
  replace (Z.to_nat (Z.of_nat (length ((before ++ mid) ++ [z])) - 1
                     - Z.of_nat (length before)))
    with (length mid) by lengths.
  rewrite fmap_app, <- (assoc_L (++) (Some <$> before) (Some <$> mid)).
  rewrite move_back_at by lengths.
  cbn [mbind outcome_bind]. unfold Vector.construct_in.
  set (c := vacated_first (moved_from z) mid) in *.
  set (rest := replicate (cap - length (before ++ mid) - 2) (@None T)).
  replace ((Some <$> before) ++ Some c :: (Some <$> mid) ++ Some z :: rest)
    with ((Some <$> before ++ c :: mid ++ [z]) ++ rest) at 1.
  2:{ rewrite !fmap_app, <- !(assoc_L (++)). cbn [fmap list_fmap app].
      by rewrite fmap_app, <- !(assoc_L (++)). }
  rewrite (read_cells _ rest i y Hi). cbn [mbind outcome_bind]. rewrite Hy.
  unfold RawMemory.index.
  rewrite capacity_vector_of'.
  rewrite bool_decide_eq_true_2 by lia. cbn [assert mbind outcome_bind].
  unfold RawMemory.GetAddress. rewrite Z.add_0_l.
  rewrite assign_at by (by rewrite length_fmap).
  cbn [mbind outcome_bind]. rewrite with_mem_vector_of.
  unfold Vector.with_size, vector_of. cbn [Vector.data_ Vector.size_].
  subst rest.
  unfold block_of. rewrite !fmap_app, !length_app. cbn [fmap list_fmap length].
  rewrite !length_app. cbn [length].
  rewrite <- !(assoc_L (++)). cbn [app].
  replace (cap - (length before + S (length mid + 1)))%nat
    with (cap - (length before + length mid) - 2)%nat by lia.
  replace (length before + S (length mid + 1))%nat
    with (length before + length mid + 1 + 1)%nat by lia.
  rewrite fmap_app, <- (assoc_L (++) (Some <$> mid)). done.
Qed.

(** [std::uninitialized_move_n] into raw cells, when the move of an
    element raises: the cells are left raw, and the elements before that
    one are left moved-from. *)
Lemma uninitialized_move_raise (before : list T) x (after : list T) :
  ∀ spre spost dpre dpost,
  Forall (λ y, move_throws y = false) before → move_throws x = true →
  uninitialized_move_n (spre ++ (Some <$> before ++ x :: after) ++ spost)
    (Z.of_nat (length spre)) (length (before ++ x :: after))
    (dpre ++ replicate (length (before ++ x :: after)) None ++ dpost)
    (Z.of_nat (length dpre))
  = Raised (spre ++ (Some <$> (moved_from <$> before) ++ x :: after) ++ spost,
            dpre ++ replicate (length (before ++ x :: after)) None ++ dpost).
Proof.
  induction before as [|y before IH]; intros spre spost dpre dpost Hok Hx.
  { cbn [app fmap list_fmap length uninitialized_move_n replicate].
    rewrite read_middle. cbn [mbind outcome_bind]. by rewrite Hx. }
  inversion_clear Hok as [|? ? Hy Hok'].
  cbn [app fmap list_fmap length uninitialized_move_n replicate].
  rewrite read_middle. cbn [mbind outcome_bind]. rewrite Hy.
  rewrite construct_at_middle. cbn [mbind outcome_bind].
  rewrite put_middle.
  rewrite (next_cell spre (Some y)), (next_cell dpre (Some y)).
  rewrite (cons_middle (Some (moved_from y)) spre),
    (cons_middle (Some y) dpre).
  rewrite (assoc_L (++) spre), (assoc_L (++) dpre).
  replace (length (spre ++ [Some y])) with (length (spre ++ [Some (moved_from y)]))
    by (by rewrite !length_app).
  rewrite IH by done. rewrite <- (assoc_L (++) dpre). cbn [app].
  rewrite destroy_at_middle. cbn [mbind outcome_bind].
  by rewrite <- (assoc_L (++) spre).
Qed.
End OperationFacts.

(** ** Counts that fit in [size_t] *)

Section AllocationFacts.
Context {T : Type} `{!Sized T}.

(** For a count that fits, the source's allocation is the block of [n]
    cells. *)
Lemma Allocate_size_t_fits (n : nat) :
  RawMemory.fits (T:=T) n →
  RawMemory.Allocate_size_t (T:=T) n = RawMemory.Allocate n.
Proof.
  unfold RawMemory.fits, RawMemory.Allocate_size_t, RawMemory.Allocate.
  intros Hfits. case_bool_decide; [|done]. do 2 f_equal.
  pose proof (sizeof_T_pos (T:=T)) as Hpos.
  rewrite Z.mod_small by lia.
  rewrite Z.div_mul by lia. apply Nat2Z.id.
Qed.

(** For a count that does not fit, the product wraps and the block is
    shorter than [n] cells. *)
Lemma Allocate_size_t_wraps (n : nat) :
  ¬ RawMemory.fits (T:=T) n →
  ∃ b, RawMemory.Allocate_size_t (T:=T) n = Some b ∧ (length b < n)%nat.
Proof.
  unfold RawMemory.fits, RawMemory.Allocate_size_t. intros Hwrap.
  pose proof (sizeof_T_pos (T:=T)) as Hpos.
  pose proof (sizeof_T_le (T:=T)) as Hle.
  rewrite bool_decide_eq_true_2 by (intros ->; simpl in Hwrap; lia).
  eexists. split; [done|]. rewrite length_replicate.
  set (product := Z.of_nat n * sizeof_T) in *.
  assert (0 ≤ product `mod` (SIZE_MAX + 1) ≤ product - (SIZE_MAX + 1))
    as [Hlo Hhi].
  { pose proof (Z.mod_pos_bound product (SIZE_MAX + 1)) as Hbound.
    pose proof (Z.div_mod product (SIZE_MAX + 1)) as Hdiv.
    assert (1 ≤ product `div` (SIZE_MAX + 1)).
    { apply Z.div_le_lower_bound; lia. }
    nia. }
  assert ((product `mod` (SIZE_MAX + 1)) `div` sizeof_T < Z.of_nat n).
  { apply Z.div_lt_upper_bound; [done|]. subst product. lia. }
  assert (0 ≤ (product `mod` (SIZE_MAX + 1)) `div` sizeof_T)
    by (apply Z.div_pos; lia).
  lia.
Qed.
End AllocationFacts.

(** [Allocate(1 << 62)] for [int]: the product is [2^64], which wraps to
    0 bytes. *)
Lemma Allocate_size_t_int :
  RawMemory.Allocate_size_t (T:=Z) (Z.to_nat 4611686018427387904) = Some [].
Proof.
  unfold RawMemory.Allocate_size_t.
  rewrite bool_decide_eq_true_2 by lia.
  rewrite Z2Nat.id by lia. done.
Qed.

(** ** A move that raises during a transfer into a new block *)

Section MoveFailureFacts.
Context {T : Type} `{!Element T}.
Local Abbreviation block := (list (option T)).
Implicit Types (b pre post : block) (xs ys : list T) (v : Vector.t T).

Lemma uninitialized_move_raise_at (front : list T) x (back : list T)
    spre spost dpre dpost p q n :
  p = Z.of_nat (length spre) → q = Z.of_nat (length dpre) →
  n = length (front ++ x :: back) →
  Forall (λ y, move_throws y = false) front → move_throws x = true →
  uninitialized_move_n (spre ++ (Some <$> front ++ x :: back) ++ spost) p n
    (dpre ++ replicate n None ++ dpost) q
  = Raised (spre ++ (Some <$> (moved_from <$> front) ++ x :: back) ++ spost,
            dpre ++ replicate n None ++ dpost).
Proof. intros -> -> ->. apply uninitialized_move_raise. Qed.

Lemma uninitialized_move_raise_front (front : list T) x (back : list T)
    spost dpost n :
  n = length (front ++ x :: back) →
  Forall (λ y, move_throws y = false) front → move_throws x = true →
  uninitialized_move_n ((Some <$> front ++ x :: back) ++ spost) 0 n
    (replicate n None ++ dpost) 0
  = Raised ((Some <$> (moved_from <$> front) ++ x :: back) ++ spost,
            replicate n None ++ dpost).
Proof.
  intros ->. exact (uninitialized_move_raise front x back [] spost [] dpost).
Qed.

Lemma uninitialized_move_front xs spost (cs : block) dpost n :
  n = length xs → length cs = length xs →
  Forall (λ x, move_throws x = false) xs →
  uninitialized_move_n ((Some <$> xs) ++ spost) 0 n (cs ++ dpost) 0
  = Done ((Some <$> (moved_from <$> xs)) ++ spost, (Some <$> xs) ++ dpost).
Proof. intros ->. exact (uninitialized_move_run xs [] spost [] cs dpost). Qed.

(** [EmplaceBack] on a full vector, when the policy moves and the move of
    the element [x] raises: the elements before [x] are left moved-from,
    and the new block is released with the new element alive in it. *)
Lemma EmplaceBack_grow_move_raises (front : list T) x (back : list T) y :
  moves → Forall (λ z, move_throws z = false) front → move_throws x = true →
  let n := length (front ++ x :: back) in
  ∃ new_data,
    Vector.EmplaceBack_grow (vector_of (front ++ x :: back) n) (Some y)
    = Raised (vector_of ((moved_from <$> front) ++ x :: back) n, new_data)
    ∧ RawMemory.lost new_data = [y].
Proof.
  intros Hmoves Hok Hx n.
  assert (n ≠ 0)%nat as Hne by (subst n; rewrite length_app; simpl; lia).
  unfold Vector.EmplaceBack_grow, Vector.FullSafeMemoryTransfer,
    Vector.SafeMemoryTransfer, Vector.Size, Vector.Capacity,
    RawMemory.GetAddress, RawMemory.plus.
  rewrite Hmoves, !size_vector_of, capacity_vector_of. fold n.
  rewrite bool_decide_eq_false_2 by done.
  rewrite ctor_raw_of. cbn [raw_of RawMemory.capacity_].
  fold (raw_of (T:=T) (replicate (n * 2) None) (n * 2)).
  rewrite bool_decide_eq_true_2 by lia. cbn [assert mbind outcome_bind].
  rewrite Z.add_0_l, cells_raw_of by lia.
  rewrite (replicate_split None n (n * 2)) by lia.
  destruct (n * 2 - n)%nat as [|k] eqn:Hk; [lia|].
  cbn [replicate].
  rewrite construct_at_at by (by rewrite length_replicate).
  cbn [mbind outcome_bind]. rewrite with_cells_raw_of, cells_raw_of by lia.
  rewrite mem_vector_of by done. unfold block_of.
  rewrite uninitialized_move_raise_front by done.
  cbn [leave unwind mbind outcome_bind].
  rewrite with_mem_vector_of, with_cells_raw_of.
  eexists. split.
  - f_equal. f_equal. unfold vector_of, block_of.
    replace (length ((moved_from <$> front) ++ x :: back)) with n
      by (subst n; rewrite !length_app, length_fmap; done).
    done.
  - unfold RawMemory.lost. rewrite cells_raw_of by lia.
    rewrite alive_app, alive_raw.
    change (alive (Some y :: ?l)) with (y :: alive l).
    by rewrite alive_raw.
Qed.

(** [Emplace] on a full vector in the same situation, the element [x]
    lying before the position ... *)
Lemma Emplace_grow_move_raises_before (front mid after : list T) x y :
  moves → Forall (λ z, move_throws z = false) front → move_throws x = true →
  let n := length ((front ++ x :: mid) ++ after) in
  Vector.Emplace_grow (vector_of ((front ++ x :: mid) ++ after) n)
    (length (front ++ x :: mid)) (Some y)
  = Raised (vector_of (((moved_from <$> front) ++ x :: mid) ++ after) n,
            RawMemory.ctor (n * 2)).
Proof.
  intros Hmoves Hok Hx n.
  set (before := front ++ x :: mid) in *.
  assert (n = length before + length after)%nat as Hn by (subst n; lengths).
  assert (length before ≠ 0)%nat as Hb
    by (subst before; rewrite length_app; simpl; lia).
  unfold Vector.Emplace_grow, Vector.SafeMemoryTransfer, Vector.begin,
    Vector.end_, Vector.Size, Vector.Capacity, RawMemory.GetAddress.
  rewrite Hmoves, !size_vector_of, capacity_vector_of. fold n.
  rewrite bool_decide_eq_false_2 by lia. rewrite !Z.add_0_l.
  rewrite ctor_raw_of, cells_raw_of by lia.
  rewrite (replicate_split None (length before) (n * 2)) by lia.
  destruct (n * 2 - length before)%nat as [|k] eqn:Hk; [lia|]. cbn [replicate].
  rewrite construct_at_at by lengths. cbn [mbind outcome_bind].
  rewrite mem_vector_of by (fold n; lia). unfold block_of.
  rewrite fmap_app, <- (assoc_L (++) (Some <$> before)).
  subst before.
  rewrite uninitialized_move_raise_front by done.
  rewrite destroy_at_at by lengths. cbn [mbind outcome_bind].
  rewrite with_mem_vector_of, with_cells_raw_of.
  do 2 f_equal.
  - unfold vector_of, block_of.
    replace (length (((moved_from <$> front) ++ x :: mid) ++ after))
      with (length ((front ++ x :: mid) ++ after))
      by (rewrite !length_app, length_fmap; done).
    rewrite (fmap_app Some _ after).
    by rewrite <- (assoc_L (++) (Some <$> _) (Some <$> after)).
Qed.

(** ... and at or after it. *)
Lemma Emplace_grow_move_raises_after (before mid back : list T) x y :
  moves → Forall (λ z, move_throws z = false) (before ++ mid) →
  move_throws x = true →
  let n := length (before ++ mid ++ x :: back) in
  Vector.Emplace_grow (vector_of (before ++ mid ++ x :: back) n)
    (length before) (Some y)
  = Raised (vector_of ((moved_from <$> before ++ mid) ++ x :: back) n,
            RawMemory.ctor (n * 2)).
Proof.
  intros Hmoves Hok Hx n. apply Forall_app in Hok as [Hbefore Hmid].
  set (after := mid ++ x :: back) in *.
  assert (n = length before + length after)%nat as Hn by (subst n; lengths).
  assert (length after ≠ 0)%nat as Ha
    by (subst after; rewrite length_app; simpl; lia).
  unfold Vector.Emplace_grow, Vector.SafeMemoryTransfer, Vector.begin,
    Vector.end_, Vector.Size, Vector.Capacity, RawMemory.GetAddress.
  rewrite Hmoves, !size_vector_of, capacity_vector_of. fold n.
  rewrite bool_decide_eq_false_2 by lia. rewrite !Z.add_0_l.
  rewrite ctor_raw_of, cells_raw_of by lia.
  rewrite (replicate_split None (length before) (n * 2)) by lia.
  destruct (n * 2 - length before)%nat as [|k] eqn:Hk; [lia|]. cbn [replicate].
  rewrite construct_at_at by lengths. cbn [mbind outcome_bind].
  rewrite mem_vector_of by (fold n; lia). unfold block_of.
  rewrite fmap_app, <- (assoc_L (++) (Some <$> before)).
  rewrite uninitialized_move_front; [| done | lengths | done].
  rewrite (replicate_split None (length after) k) by lia.
  rewrite (cons_middle (Some y) (Some <$> before)),
    (assoc_L (++) (Some <$> before) [Some y]).
  replace (Z.to_nat (Z.of_nat n - 0 - Z.of_nat (length before)))
    with (length after) by lia.
  subst after.
  rewrite uninitialized_move_raise_at;
    [| lengths | lengths | done | done | done].
  replace (length before + 1)%nat with (length (before ++ [y]))
    by lengths.
  replace ((Some <$> before) ++ [Some y]) with (Some <$> before ++ [y])
    by (by rewrite fmap_app).
  rewrite destroy_n_front by done. cbn [mbind outcome_bind].
  rewrite with_mem_vector_of, with_cells_raw_of.
  do 2 f_equal.
  - unfold vector_of, block_of.
    replace (length ((moved_from <$> before ++ mid) ++ x :: back))
      with (length (before ++ mid ++ x :: back))
      by (rewrite !length_app, !length_fmap, !length_app; simpl; lia).
    rewrite !fmap_app, <- !(assoc_L (++)). done.
  - f_equal. rewrite length_app. cbn [length].
    by rewrite replicate_add, <- (assoc_L (++)).
Qed.

(** Both cases: a vector given as [before ++ after] for the position and
    as [front ++ x :: back] for the element whose move raises. *)
Lemma Emplace_grow_move_raises (before after front back : list T) x y :
  moves → before ++ after = front ++ x :: back →
  Forall (λ z, move_throws z = false) front → move_throws x = true →
  let n := length (before ++ after) in
  Vector.Emplace_grow (vector_of (before ++ after) n) (length before) (Some y)
  = Raised (vector_of ((moved_from <$> front) ++ x :: back) n,
            RawMemory.ctor (n * 2)).
Proof.
  intros Hmoves Heq Hok Hx n. subst n.
  destruct (app_eq_inv _ _ _ _ Heq) as [(k & -> & Hk)|(k & -> & ->)].
  - destruct k as [|x' mid].
    + simpl in Hk. subst after. rewrite (right_id_L [] (++)) in *.
      pose proof (Emplace_grow_move_raises_after front [] back x y Hmoves)
        as Hrun.
      rewrite (right_id_L [] (++)) in Hrun. by apply Hrun.
    + injection Hk as <- ->.
      rewrite (assoc_L (++) (moved_from <$> front) (x :: mid) after).
      by apply Emplace_grow_move_raises_before.
  - by apply Emplace_grow_move_raises_after.
Qed.
End MoveFailureFacts.

(** * The end-to-end scenarios of the specification, on [int] *)

Section Scenarios.
Import Vector.

Example grown_values :
  grown <$> seq 0 10 = [0; 1; 2; 4; 4; 8; 8; 8; 8; 16]%nat.
Proof. by vm_compute. Qed.

Example scenario_push_back :
  push_all (T:=Z) ctor_default [1; 2; 3] = Done (vector_of [1; 2; 3] 4).
Proof. by vm_compute. Qed.

Example scenario_insert :
  Insert (vector_of [1; 2; 3] 4) (begin (vector_of [1; 2; 3] 4) + 1) (Lvalue 99)
  = Done (vector_of [1; 99; 2; 3] 4, 1).
Proof. by vm_compute. Qed.

Example scenario_erase :
  Erase (vector_of [1; 2; 3; 4] 4) (begin (vector_of [1; 2; 3; 4] 4) + 1)
  = Done (vector_of [1; 3; 4] 4, 1).
Proof. by vm_compute. Qed.

Example scenario_resize :
  Resize 1 (vector_of [1; 2; 3] 4) 5 = Some (Done (vector_of [1; 2; 3; 0; 0] 8))
  ∧ Resize 0 (vector_of [1; 2; 3; 0; 0] 8) 2 = Some (Done (vector_of [1; 2] 8)).
Proof. by vm_compute. Qed.

Example scenario_assign :
  assign_copy (vector_of [7; 8] 5) (vector_of [1; 2; 3; 4; 5] 8)
  = Done (vector_of [1; 2; 3; 4; 5] 5)
  ∧ assign_copy (vector_of [7; 8] 2) (vector_of [1; 2; 3; 4; 5] 8)
    = Done (vector_of [1; 2; 3; 4; 5] 5).
Proof. by vm_compute. Qed.

Example scenario_move :
  ctor_move (vector_of [1; 2] 2) = (vector_of [1; 2] 2, ctor_default)
  ∧ push_all (ctor_move (vector_of [1; 2] 2)).2 [5] = Done (vector_of [5] 1).
Proof. by vm_compute. Qed.
End Scenarios.

(** * The claims *)

Section Claims.
Context {T : Type} `{!Element T}.
Implicit Types (xs ys : list T) (v : Vector.t T).

(** C1 (defect of the code).  [PopBack] hands to [std::destroy_at] the
    cell at index [size_], one past the last live element, and not the
    cell at index [size_ - 1]: on a well-formed vector that cell is raw
    storage, or lies past the block when the vector is full, so the call
    is undefined and the last element is never destructed.  With the
    cell at [size_ - 1] in its place, the same two statements remove the
    last element and leave the others as they are. *)
Theorem PopBack_destroys_past_the_last xs (x : T) (spare : nat) :
  let v := vector_of (xs ++ [x]) (length (xs ++ [x]) + spare) in
  Vector.PopBack v
  = Undefined (match spare with
               | O => OutOfBlock (Vector.end_ v)
               | S _ => NotAlive (Vector.end_ v)
               end)
  ∧ (b ← destroy_at (St:=Vector.t T) (Vector.mem v) (Vector.end_ v - 1);
     Done (Vector.with_size (Vector.with_mem v b) (Vector.size_ v - 1)))
    = Done (vector_of xs (length (xs ++ [x]) + spare)).
Proof.
  intros v. split.
  - unfold v, Vector.end_, Vector.Size, RawMemory.GetAddress.
    rewrite size_vector_of, Z.add_0_l. apply PopBack_fault.
  - unfold v, Vector.end_, Vector.Size, RawMemory.GetAddress.
    rewrite !size_vector_of, Z.add_0_l, mem_vector_of by lia.
    rewrite block_of_snoc by lengths.
    rewrite destroy_at_at by lengths. cbn [mbind outcome_bind].
    rewrite with_mem_vector_of. unfold Vector.with_size, vector_of, block_of.
    cbn [Vector.data_ Vector.size_]. rewrite length_app.
    replace (length xs + length [x] - 1)%nat with (length xs) by (simpl; lia).
    do 3 f_equal.
    destruct (length xs + length [x] + spare - length xs)%nat as [|k] eqn:Hk;
      [simpl in Hk; lia|].
    simpl. by rewrite Nat.sub_0_r.
Qed.

(** C2 (defect of the code).  [Resize] does not terminate on every input:
    the local [capacity] is never updated inside the loop, so the capacity
    is doubled once at most.  On the empty vector, [Resize(n)] with
    [n >= 3] reserves 2 cells and then repeats [Reserve(2)] for ever:
    whatever the fuel, the loop does not end. *)
Theorem Resize_does_not_terminate (fuel k : nat) :
  Vector.Resize fuel (Vector.ctor_default (T:=T)) (3 + k) = None.
Proof.
  change (Vector.ctor_default (T:=T)) with (vector_of (T:=T) [] 0).
  unfold Vector.Resize. rewrite size_vector_of. simpl length.
  rewrite bool_decide_eq_false_2 by lia.
  rewrite bool_decide_eq_true_2 by lia.
  unfold Vector.Size. rewrite size_vector_of. simpl length.
  rewrite bool_decide_eq_true_2 by done.
  destruct fuel as [|fuel]; cbn [Vector.Resize_loop].
  - unfold Vector.Capacity. rewrite capacity_vector_of.
    by rewrite bool_decide_eq_true_2 by lia.
  - unfold Vector.Capacity. rewrite capacity_vector_of.
    rewrite bool_decide_eq_true_2 by lia.
    rewrite Reserve_run by (simpl; auto with lia).
    rewrite bool_decide_eq_false_2 by lia.
    by rewrite Resize_loop_stuck by lia.
Qed.

(** C4 (amended).  Move construction leaves the source block empty: null
    address, zero capacity.  Move assignment from another block exchanges
    the two blocks: the source is left with the address and the capacity
    the target had before, so it is empty only if the target was; a move
    assignment of a block to itself changes nothing. *)
Theorem RawMemory_move_leaves_source (this other : RawMemory.t T) :
  RawMemory.ctor_move other = (other, RawMemory.ctor_default)
  ∧ RawMemory.buffer_ (RawMemory.ctor_move other).2 = None
  ∧ RawMemory.capacity_ (RawMemory.ctor_move other).2 = 0%nat
  ∧ RawMemory.assign_move this other = (other, this)
  ∧ RawMemory.assign_move_self this = this.
Proof. by destruct this, other. Qed.

(** C5 (amended).  During a growth by reallocation of a full, well-formed
    vector, in [Emplace] and in [EmplaceBack], whatever raises, the
    constructor of the new element, a copy or a move of an element
    during the transfer: the vector keeps its size and its capacity, and
    [Emplace] releases the new block with no object left alive in it.
    The elements are unchanged too when the constructor of the new
    element raises, and when the transfer copies and a copy raises.  When
    the transfer moves and the move of an element raises, the elements
    before that one are left moved-from and the others are unchanged. *)
Theorem growth_failure_keeps_vector (before after : list T) (y : T) :
  let v := vector_of (before ++ after) (length (before ++ after)) in
  let pos := Z.of_nat (length before) in
  (Vector.Emplace v pos None = Raised v
   ∧ Vector.EmplaceBack v None = Raised v
   ∧ ∃ new_data, Vector.Emplace_grow v (length before) None
                 = Raised (v, new_data)
                 ∧ RawMemory.lost new_data = [])
  ∧ (copies → Exists (λ x, copy_throws x = true) (before ++ after) →
     Vector.Emplace v pos (Some y) = Raised v
     ∧ (∃ new_data, Vector.Emplace_grow v (length before) (Some y)
                    = Raised (v, new_data)
                    ∧ RawMemory.lost new_data = [])
     ∧ Vector.EmplaceBack v (Some y) = Raised v)
  ∧ (moves →
     ∀ (front : list T) x (back : list T),
       before ++ after = front ++ x :: back →
       Forall (λ z, move_throws z = false) front → move_throws x = true →
       let v' := vector_of ((moved_from <$> front) ++ x :: back)
                   (length (before ++ after)) in
       Vector.Emplace v pos (Some y) = Raised v'
       ∧ (∃ new_data, Vector.Emplace_grow v (length before) (Some y)
                      = Raised (v', new_data)
                      ∧ RawMemory.lost new_data = [])
       ∧ Vector.EmplaceBack v (Some y) = Raised v'
       ∧ Vector.Size v' = Vector.Size v
       ∧ Vector.Capacity v' = Vector.Capacity v).
Proof.
  intros v pos.
  assert (∀ built w nd,
            Vector.Emplace_grow v (length before) built = Raised (w, nd) →
            Vector.Emplace v pos built = Raised w) as Hemplace.
  { intros built w nd Hgrow. subst v pos.
    unfold Vector.Emplace, Vector.cbegin, Vector.cend, Vector.Size,
      Vector.Capacity, RawMemory.GetAddress.
    rewrite size_vector_of, capacity_vector_of, !Z.add_0_l, Z.sub_0_r, Nat2Z.id.
    rewrite (bool_decide_eq_true_2 (0 ≤ Z.of_nat (length before))) by lia.
    rewrite (bool_decide_eq_true_2 (Z.of_nat (length before) ≤ _)) by lengths.
    cbn [andb assert mbind outcome_bind].
    rewrite bool_decide_eq_false_2 by lia. by rewrite Hgrow. }
  assert (∀ built w nd,
            Vector.EmplaceBack_grow v built = Raised (w, nd) →
            Vector.EmplaceBack v built = Raised w) as Hback.
  { intros built w nd Hgrow. subst v.
    unfold Vector.EmplaceBack, Vector.Size, Vector.Capacity.
    rewrite size_vector_of, capacity_vector_of.
    rewrite bool_decide_eq_false_2 by lia. by rewrite Hgrow. }
  assert (∀ m, RawMemory.lost (RawMemory.ctor (T:=T) m) = []) as Hraw.
  { intros m. unfold RawMemory.lost. rewrite ctor_raw_of, cells_raw_of.
    - apply alive_raw.
    - by intros ->. }
  split; [|split].
  - split_and!.
    + by eapply Hemplace.
    + apply (Hback None v
               (RawMemory.ctor
                  (if bool_decide (length (before ++ after) = 0%nat) then 1%nat
                   else (length (before ++ after) * 2)%nat))).
      subst v.
      unfold Vector.EmplaceBack_grow, RawMemory.plus, Vector.Size,
        Vector.Capacity.
      rewrite size_vector_of, capacity_vector_of. simpl RawMemory.capacity_.
      destruct (decide (length (before ++ after) = 0%nat)) as [Hz|Hz];
        [rewrite !(bool_decide_eq_true_2 _ Hz)
        |rewrite !(bool_decide_eq_false_2 _ Hz)];
        by rewrite bool_decide_eq_true_2 by lia.
    + eexists. split; [done | apply Hraw].
  - intros Hcopies Hex.
    destruct (Emplace_grow_raises before after y Hcopies Hex) as [Hgrow Hlost].
    destruct (EmplaceBack_grow_raises (before ++ after) y Hcopies Hex)
      as (nd & Hbackgrow & _).
    split_and!.
    + by eapply Hemplace.
    + eexists. split; [exact Hgrow | exact Hlost].
    + by eapply Hback.
  - intros Hmoves front x back Heq Hok Hx v'.
    pose proof (Emplace_grow_move_raises before after front back x y
                  Hmoves Heq Hok Hx) as Hgrow.
    destruct (EmplaceBack_grow_move_raises front x back y Hmoves Hok Hx)
      as (nd & Hbackgrow & _).
    rewrite <- Heq in Hbackgrow.
    split_and!.
    + by eapply Hemplace.
    + eexists. split; [exact Hgrow | apply Hraw].
    + by eapply Hback.
    + subst v v'. unfold Vector.Size. rewrite !size_vector_of, Heq.
      by rewrite !length_app, length_fmap.
    + done.
Qed.

(** C6.  Copy assignment between two well-formed vectors, when no copy of
    an element of the right-hand side raises: the target ends well-formed
    with the size and the elements of the right-hand side; if that size
    was within the target's capacity the capacity is unchanged; if it
    exceeded it, the target is the copy-constructed vector, swapped in. *)
Theorem assign_copy_copies (a b : Vector.t T) :
  Inv a → Inv b →
  (∀ (i : nat) x, Vector.index (St:=()) b i = Done x → copy_throws x = false) →
  ∃ a', Vector.assign_copy a b = Done a'
    ∧ Inv a'
    ∧ Vector.Size a' = Vector.Size b
    ∧ (∀ i : nat, (i < Vector.Size b)%nat →
         ∃ x, Vector.index (St:=()) b i = Done x
              ∧ Vector.index (St:=()) a' i = Done x)
    ∧ ((Vector.Size b ≤ Vector.Capacity a)%nat →
         Vector.Capacity a' = Vector.Capacity a)
    ∧ ((Vector.Capacity a < Vector.Size b)%nat →
         Vector.ctor_copy b = Done a'
         ∧ Vector.Capacity a' = Vector.Size b).
Proof.
  intros Ha Hb Hcopy.
  destruct (Inv_inv a Ha) as (xs & ca & Hxs & ->).
  destruct (Inv_inv b Hb) as (ys & cb & Hys & ->).
  assert (Forall (λ x, copy_throws x = false) ys) as Hok
    by (by eapply nothrow_elements).
  rewrite assign_copy_run by done.
  unfold Vector.Size, Vector.Capacity.
  rewrite !size_vector_of, !capacity_vector_of.
  set (cap := if bool_decide (ca < length ys)%nat then length ys else ca).
  assert (length ys ≤ cap)%nat as Hcap by (subst cap; case_bool_decide; lia).
  eexists. split; [done|]. split_and!.
  - by apply Inv_vector_of.
  - done.
  - intros i Hi.
    destruct (index_vector_of (St:=()) ys cb i Hys Hi) as (x & Hx & Hbx).
    destruct (index_vector_of (St:=()) ys cap i Hcap Hi) as (y & Hy & Hay).
    exists x. split; [done|]. congruence.
  - intros Hfit. subst cap. by rewrite bool_decide_eq_false_2 by lia.
  - intros Hgrow. subst cap. rewrite bool_decide_eq_true_2 by done.
    split; [by apply ctor_copy_run | done].
Qed.

(** C8.  Appending values whose copy and move constructors do not raise,
    one after the other, to the empty vector of capacity 0: after [n]
    appends the size is [n] and the capacity is [grown n], that is 0, 1,
    2, 4, 4, 8, 8, 8, 8, 16, ...; the capacity is at least the size; and
    one more append ([PushBack] or [EmplaceBack]) leaves the capacity as
    it is when there is room, makes it 1 when it was 0 and doubles it
    otherwise, so it never decreases. *)
Theorem append_doubles_capacity xs :
  Forall nothrow xs →
  ∃ v, push_all Vector.ctor_default xs = Done v
    ∧ Vector.Size v = length xs
    ∧ Vector.Capacity v = grown (length xs)
    ∧ (Vector.Size v ≤ Vector.Capacity v)%nat
    ∧ ∀ x, nothrow x →
        ∃ v', Vector.PushBack v (Vector.Lvalue x) = Done v'
          ∧ Vector.EmplaceBack v (Some x) = Done (v', Vector.end_ v)
          ∧ push_all Vector.ctor_default (xs ++ [x]) = Done v'
          ∧ Vector.Size v' = (Vector.Size v + 1)%nat
          ∧ Vector.Capacity v'
            = (if bool_decide (Vector.Size v < Vector.Capacity v)%nat
               then Vector.Capacity v
               else if bool_decide (Vector.Capacity v = 0)%nat then 1
                    else 2 * Vector.Capacity v)%nat
          ∧ (Vector.Capacity v ≤ Vector.Capacity v')%nat
          ∧ (Vector.Size v' ≤ Vector.Capacity v')%nat.
Proof.
  intros Hok.
  change (Vector.ctor_default (T:=T)) with (vector_of (T:=T) [] 0).
  destruct (push_all_run xs [] 0%nat) as (cap & Hrun & Hfit & Hcap);
    [done | done | done |].
  specialize (Hcap eq_refl). simpl in Hrun, Hfit, Hcap. subst cap.
  exists (vector_of xs (grown (length xs))).
  unfold Vector.Size, Vector.Capacity, Vector.end_, Vector.Size.
  rewrite !size_vector_of, !capacity_vector_of.
  split_and!; [done | done | done | apply grown_fits |].
  intros x Hx.
  exists (vector_of (xs ++ [x]) (next_capacity (length xs) (grown (length xs)))).
  rewrite !size_vector_of, !capacity_vector_of, length_app.
  pose proof (grown_fits (length xs)) as Hsize.
  split_and!.
  - by apply PushBack_run.
  - rewrite EmplaceBack_run by done.
    unfold RawMemory.GetAddress. by rewrite Z.add_0_l.
  - destruct (push_all_run (xs ++ [x]) [] 0%nat) as (cap & Hrun' & _ & Hcap');
      [done | done | | ].
    { apply Forall_app. split; [done|]. by apply Forall_singleton. }
    specialize (Hcap' eq_refl). simpl in Hrun', Hcap'. subst cap.
    rewrite Hrun', length_app. simpl. rewrite Nat.add_1_r.
    by rewrite <- grown_step.
  - done.
  - unfold next_capacity. repeat case_bool_decide; lia.
  - apply next_capacity_grows.
  - simpl. by apply next_capacity_fits.
Qed.


(** C3 (defect of the code).  [Emplace] and [Insert] at [end()] of an
    empty vector with spare capacity, as [Reserve] leaves one, do not
    append: the branch with spare capacity starts by reading the element
    before [end()], which here lies before the block. *)
Theorem Emplace_at_end_of_empty_reads_before_block
    (k : nat) (built : option T) (value : Vector.forwarded T) :
  let v : Vector.t T := vector_of [] (S k) in
  Vector.Reserve Vector.ctor_default (S k) = Done v
  ∧ Vector.Emplace v (Vector.end_ v) built = Undefined (OutOfBlock (-1))
  ∧ Vector.Insert v (Vector.end_ v) value = Undefined (OutOfBlock (-1)).
Proof.
  intros v.
  assert (∀ built, Vector.Emplace v (Vector.end_ v) built
                   = Undefined (OutOfBlock (-1))) as Hemplace.
  { intros b. subst v. unfold Vector.Emplace, Vector.Emplace_move_last.
    unfold Vector.cbegin, Vector.cend, Vector.end_, Vector.Size, Vector.Capacity.
    rewrite size_vector_of, capacity_vector_of.
    unfold RawMemory.GetAddress. simpl length.
    change (0 + Z.of_nat 0) with 0.
    rewrite !bool_decide_eq_true_2 by lia. cbn [andb assert mbind outcome_bind].
    unfold read. by rewrite cell_negative by lia. }
  split_and!; [| apply Hemplace | apply Hemplace].
  change (Vector.ctor_default (T:=T)) with (vector_of (T:=T) [] 0).
  rewrite Reserve_run by (simpl; auto with lia).
  by rewrite bool_decide_eq_false_2 by lia.
Qed.

(** C9 (defect of the code).  Two operations break the invariant on
    well-formed operands.  Move assignment exchanges the blocks and sets
    the source's size to 0 without destructing the target's elements: the
    source is left with live objects beyond its size, and its destructor
    releases the block with all of them still alive.  [PopBack] asks for
    the destruction of the cell past the last element (see C1). *)
Theorem move_assignment_and_PopBack_break_invariant
    (x : T) xs (spare : nat) ys (spare' : nat) :
  let a := vector_of (x :: xs) (length (x :: xs) + spare) in
  let b := vector_of ys (length ys + spare') in
  Inv a ∧ Inv b
  ∧ ¬ Inv (Vector.assign_move a b).2
  ∧ Vector.dtor (St:=()) (Vector.assign_move a b).2 = Done (x :: xs)
  ∧ ∃ u, Vector.PopBack a = Undefined u.
Proof.
  intros a b.
  assert (Vector.mem (Vector.assign_move a b).2
          = block_of (x :: xs) (length (x :: xs) + spare)) as Hmem.
  { subst a b. unfold Vector.assign_move, RawMemory.assign_move,
      RawMemory.Swap, Vector.mem, vector_of.
    cbn [snd Vector.data_ RawMemory.buffer_ RawMemory.capacity_].
    rewrite (raw_of_allocated _ (length (x :: xs) + spare)) by (simpl; lia).
    done. }
  split_and!.
  - apply Inv_vector_of. lia.
  - apply Inv_vector_of. lia.
  - intros (_ & _ & _ & Hcells).
    destruct (Hcells 0%nat (Some x)) as [Hlive _].
    { by rewrite Hmem. }
    specialize (Hlive (mk_is_Some _ _ eq_refl)).
    unfold Vector.assign_move in Hlive. simpl in Hlive. lia.
  - unfold Vector.dtor.
    replace (Vector.size_ (Vector.assign_move a b).2) with 0%nat by done.
    cbn [destroy_n mbind outcome_bind]. unfold RawMemory.lost.
    f_equal. rewrite <- (alive_block_of (x :: xs) (length (x :: xs) + spare)).
    by rewrite <- Hmem.
  - eexists. apply PopBack_fault.
Qed.
End Claims.

(** * The claims on concrete element types *)

Section ConcreteClaims.
Import Vector.

(** C4, as stated, fails: after the move assignment of a 3-cell block to
    a 2-cell block, the source holds the 2-cell block. *)
Lemma RawMemory_move_assign_source_not_empty :
  let source :=
    (RawMemory.assign_move (T:=Z) (RawMemory.ctor 2) (RawMemory.ctor 3)).2 in
  RawMemory.buffer_ source ≠ None ∧ RawMemory.capacity_ source ≠ 0%nat.
Proof. by vm_compute. Qed.

(** C5, as stated, fails: [handle] is transferred by move and its move
    raises on 13.  The vector [[7; 13]], built in place, is full;
    [Emplace] at [end()] moves 7 into the new block, then the move of 13
    raises: the vector is left holding [[0; 13]]. *)
Lemma growth_failure_changes_moved_elements :
  let v : Vector.t handle := vector_of [Handle 7; Handle 13] 2 in
  (v1 ← EmplaceBack ctor_default (Some (Handle 7));
   EmplaceBack v1.1 (Some (Handle 13)))
  = Done (v, 1)
  ∧ Emplace v (end_ v) (Some (Handle 5))
    = Raised (vector_of [Handle 0; Handle 13] 2)
  ∧ vector_of [Handle 0; Handle 13] 2 ≠ v.
Proof. vm_compute. split_and!; [done | done | discriminate]. Qed.

(** The growing branch of [EmplaceBack] has no handler.  [fragile] is
    copied on transfer and its copy raises on 0.  The vector [[0]], built
    in place by [EmplaceBack], is full; [PushBack(5)] builds 5 in the new
    block and then copies 0, which raises: the vector is unchanged, but the
    new block is released with 5 still alive in it.  [Emplace] at [end()]
    on the same vector destructs it first. *)
Lemma EmplaceBack_loses_new_element_on_failure :
  let v : Vector.t fragile := vector_of [Fragile 0] 1 in
  EmplaceBack ctor_default (Some (Fragile 0)) = Done (v, 0)
  ∧ EmplaceBack_grow v (Some (Fragile 5))
    = Raised (v, raw_of [None; Some (Fragile 5)] 2)
  ∧ RawMemory.lost (raw_of [None; Some (Fragile 5)] 2) = [Fragile 5]
  ∧ PushBack v (Lvalue (Fragile 5)) = Raised v
  ∧ Emplace_grow v 1 (Some (Fragile 5))
    = Raised (v, raw_of [None; None] 2)
  ∧ RawMemory.lost (raw_of (T:=fragile) [None; None] 2) = [].
Proof. by vm_compute. Qed.

(** C7 (defect of the code).  Three appends give [[1; 2; 3]] in 4 cells.
    [Insert] at [end()] then takes the branch with spare capacity, which
    calls [std::move_backward] on the range from [end()] to [end() - 1]:
    the insertion is undefined, and so is the erasure after it.  Before
    that call the branch has moved the last element away: on a type whose
    move empties its source, the cells are [[1]; [2]; []; [3]]. *)
Theorem Insert_at_end_then_Erase_is_undefined :
  let v : Vector.t Z := vector_of [1; 2; 3] 4 in
  push_all ctor_default [1; 2; 3] = Done v
  ∧ Insert v (end_ v) (Lvalue 99) = Undefined (InvalidRange 3 2)
  ∧ insert_then_erase v (end_ v) (Lvalue 99) = Undefined (InvalidRange 3 2)
  ∧ Emplace_move_last (vector_of (T:=owner) [[1]; [2]; [3]]%nat 4)
    = Done [Some [1]; Some [2]; Some []; Some [3]]%nat.
Proof. by vm_compute. Qed.
End ConcreteClaims.

(** * The claims with hypotheses, at concrete vectors *)

(** C6 at a 2-element vector of capacity 5 assigned from a 5-element one. *)
Lemma assign_copy_copies_witness :
  let a : Vector.t Z := vector_of [1; 2] 5 in
  let b : Vector.t Z := vector_of [1; 2; 3; 4; 5] 8 in
  Inv a ∧ Inv b ∧
  ∃ a', Vector.assign_copy a b = Done a'
    ∧ Inv a'
    ∧ Vector.Size a' = Vector.Size b
    ∧ (∀ i : nat, (i < Vector.Size b)%nat →
         ∃ x, Vector.index (St:=()) b i = Done x
              ∧ Vector.index (St:=()) a' i = Done x)
    ∧ ((Vector.Size b ≤ Vector.Capacity a)%nat →
         Vector.Capacity a' = Vector.Capacity a)
    ∧ ((Vector.Capacity a < Vector.Size b)%nat →
         Vector.ctor_copy b = Done a'
         ∧ Vector.Capacity a' = Vector.Size b).
Proof.
  intros a b.
  assert (Inv a) as Ha by (apply Inv_vector_of; simpl; lia).
  assert (Inv b) as Hb by (apply Inv_vector_of; simpl; lia).
  split; [exact Ha|]. split; [exact Hb|].
  apply (assign_copy_copies a b Ha Hb). intros i x _. reflexivity.
Defined.

(** C8 at three appends of [int] values. *)
Lemma append_doubles_capacity_witness :
  Forall (nothrow (T:=Z)) [1; 2; 3] ∧
  ∃ v, push_all Vector.ctor_default [1; 2; 3] = Done v
    ∧ Vector.Size v = 3%nat
    ∧ Vector.Capacity v = 4%nat.
Proof.
  assert (Forall (nothrow (T:=Z)) [1; 2; 3]) as Hok
    by (repeat constructor).
  split; [exact Hok|].
  destruct (append_doubles_capacity [1; 2; 3] Hok)
    as (v & Hrun & Hsize & Hcap & _).
  exists v. split; [exact Hrun|]. split; [exact Hsize | exact Hcap].
Defined.


(** C5 at the full vector [[0]] of [fragile], whose copy raises on 0, and
    at the full vector [[7; 13]] of [handle], whose move raises on 13. *)
Lemma growth_failure_keeps_vector_witness :
  let v : Vector.t fragile := vector_of [Fragile 0] 1 in
  let w : Vector.t handle := vector_of [Handle 7; Handle 13] 2 in
  copies (T:=fragile) ∧ Exists (λ x : fragile, copy_throws x = true) [Fragile 0] ∧
  moves (T:=handle) ∧ move_throws (Handle 13) = true ∧
  Vector.Emplace v 1 (Some (Fragile 5)) = Raised v
  ∧ Vector.EmplaceBack v (Some (Fragile 5)) = Raised v
  ∧ Vector.Emplace w 2 (Some (Handle 5))
    = Raised (vector_of [Handle 0; Handle 13] 2)
  ∧ Vector.EmplaceBack w (Some (Handle 5))
    = Raised (vector_of [Handle 0; Handle 13] 2).
Proof.
  intros v w.
  assert (copies (T:=fragile)) as Hcopies by reflexivity.
  assert (Exists (λ x : fragile, copy_throws x = true) ([Fragile 0] ++ []))
    as Hex by (apply Exists_cons; left; reflexivity).
  assert (moves (T:=handle)) as Hmoves by reflexivity.
  assert (move_throws (Handle 13) = true) as Hx by reflexivity.
  assert (Forall (λ z : handle, move_throws z = false) [Handle 7]) as Hok
    by (repeat constructor).
  split; [exact Hcopies|]. split; [exact Hex|].
  split; [exact Hmoves|]. split; [exact Hx|].
  destruct (proj1 (proj2 (growth_failure_keeps_vector
                            [Fragile 0] [] (Fragile 5)))
              Hcopies Hex)
    as (Hemplace & _ & Hback).
  destruct (proj2 (proj2 (growth_failure_keeps_vector
                            [Handle 7; Handle 13] [] (Handle 5)))
              Hmoves [Handle 7] (Handle 13) [] eq_refl Hok Hx)
    as (Hemplace' & _ & Hback' & _).
  split; [exact Hemplace|]. split; [exact Hback|].
  split; [exact Hemplace' | exact Hback'].
Defined.

(** * Further properties of the operations *)

Section Operations.
Context {T : Type} `{!Element T} `{!Sized T}.
Implicit Types (xs ys : list T) (v : Vector.t T).

(** X1.  [Reserve(n)], for a count [n] that fits, on a well-formed
    vector whose elements transfer without raising: the block [Allocate]
    computes in [size_t] is the block of [n] cells, and [Reserve] returns
    with the same elements in the same order and the capacity
    [max(capacity, n)]; it never shrinks, and does nothing when [n] is
    within the capacity.  When it reallocates, the block it releases has
    the old capacity and holds no live object. *)
Theorem Reserve_keeps_the_elements xs cap n :
  (length xs ≤ cap)%nat → Forall transfers xs → RawMemory.fits (T:=T) n →
  RawMemory.Allocate_size_t (T:=T) n = RawMemory.Allocate n
  ∧ Vector.Reserve (vector_of xs cap) n = Done (vector_of xs (cap `max` n))
  ∧ ((cap < n)%nat →
     ∃ old, Vector.Reserve_grow (vector_of xs cap) n
            = Done (vector_of xs n, old)
            ∧ RawMemory.Capacity old = cap
            ∧ RawMemory.lost old = []).
Proof.
  intros Hle Hok Hfits. split; [by apply Allocate_size_t_fits|]. split.
  - rewrite Reserve_gen by done. do 2 f_equal. case_bool_decide; lia.
  - intros Hn. rewrite Reserve_grow_gen by done. eexists. split; [done|].
    split; [done|]. unfold RawMemory.lost. rewrite cells_raw_of.
    + apply alive_raw.
    + by intros ->.
Qed.

(** X2.  For an element type whose move constructor is [noexcept], the
    transfer into a new block moves, so growth does not depend on the copy
    constructor: on every well-formed vector [PushBack(T&&)] returns, so
    does [Insert(pos, T&&)] at every position but [end()] of a vector
    with spare capacity, and so does [Reserve(n)] for a count [n] that
    fits. *)
Theorem noexcept_move_growth_never_raises xs cap n x :
  is_nothrow_move_constructible = true → (length xs ≤ cap)%nat →
  (RawMemory.fits (T:=T) n →
   Vector.Reserve (vector_of xs cap) n = Done (vector_of xs (cap `max` n)))
  ∧ Vector.PushBack (vector_of xs cap) (Vector.Rvalue x)
    = Done (vector_of (xs ++ [x]) (next_capacity (length xs) cap))
  ∧ ∀ before after,
      xs = before ++ after → after ≠ [] ∨ length xs = cap →
      let v := vector_of xs cap in
      let v' := vector_of (before ++ x :: after)
                  (next_capacity (length xs) cap) in
      Vector.Insert v (Vector.begin v + Z.of_nat (length before))
        (Vector.Rvalue x)
      = Done (v', Vector.begin v' + Z.of_nat (length before)).
Proof.
  intros Hmove Hle.
  pose proof (nothrow_move_transfers xs Hmove) as Hok.
  pose proof (nothrow_move_never_throws Hmove) as Hnever.
  split_and!.
  - intros _. rewrite Reserve_gen by done. do 2 f_equal.
    case_bool_decide; lia.
  - unfold Vector.PushBack, Vector.construct_from. rewrite Hnever.
    rewrite EmplaceBack_gen by auto. done.
  - intros before after -> Hpos v v'. subst v v'.
    unfold Vector.Insert, Vector.construct_from, Vector.begin,
      RawMemory.GetAddress.
    rewrite Hnever, !Z.add_0_l. apply Emplace_gen; [done|].
    destruct (decide (length (before ++ after) = cap)) as [Hfull|Hspare].
    + right. done.
    + left. split; [lia|]. destruct Hpos as [Hne|?]; [|done].
      destruct (nonempty_snoc after Hne) as (mid & z & ->).
      exists mid, z. split; [done|]. apply Hnever.
Qed.

(** X4.  [Insert(pos, value)] on a well-formed vector, when no
    constructor raises and [pos] is not [end()] of a vector with spare
    capacity: the value is inserted before the element at [pos], the
    elements from [pos] on move one place up, the capacity is kept when
    there is room, becomes 1 from 0 and doubles otherwise, and the
    returned iterator names the inserted element. *)
Theorem Insert_inserts_before_pos (before after : list T) cap value y :
  (length (before ++ after) ≤ cap)%nat →
  Vector.construct_from value = Some y →
  Forall nothrow (before ++ after) →
  after ≠ [] ∨ length (before ++ after) = cap →
  let v := vector_of (before ++ after) cap in
  let v' := vector_of (before ++ y :: after)
              (next_capacity (length (before ++ after)) cap) in
  Vector.Insert v (Vector.begin v + Z.of_nat (length before)) value
  = Done (v', Vector.begin v' + Z.of_nat (length before)).
Proof.
  intros Hle Hy Hok Hpos v v'. subst v v'.
  unfold Vector.Insert, Vector.begin, RawMemory.GetAddress.
  rewrite Hy, !Z.add_0_l. apply Emplace_gen; [done|].
  destruct (decide (length (before ++ after) = cap)) as [Hfull|Hspare].
  - right. split; [done|]. by apply nothrow_transfers.
  - left. split; [lia|]. destruct Hpos as [Hne|?]; [|done].
    destruct (nonempty_snoc after Hne) as (mid & z & ->).
    exists mid, z. split; [done|].
    rewrite !Forall_app, Forall_singleton in Hok.
    by destruct Hok as (_ & _ & _ & Hz).
Qed.

(** X5.  [Erase] at the position of the element [i] of a well-formed
    vector returns a well-formed vector one shorter, of the same capacity:
    the elements before [i] are unchanged, the elements after it have
    moved one place down, and the returned iterator is at [i] again. *)
Theorem Erase_removes_the_element v (i : nat) :
  Inv v → (i < Vector.Size v)%nat →
  ∃ v', Vector.Erase v (Vector.begin v + Z.of_nat i)
        = Done (v', Vector.begin v' + Z.of_nat i)
    ∧ Inv v'
    ∧ Vector.Size v' = (Vector.Size v - 1)%nat
    ∧ Vector.Capacity v' = Vector.Capacity v
    ∧ (∀ j : nat, (j < i)%nat →
         Vector.index (St:=()) v' j = Vector.index (St:=()) v j)
    ∧ (∀ j : nat, (i ≤ j)%nat →
         Vector.index (St:=()) v' j = Vector.index (St:=()) v (j + 1)).
Proof.
  intros Hinv Hi. destruct (Inv_inv v Hinv) as (xs & cap & Hle & ->).
  unfold Vector.Size in *. rewrite size_vector_of in *.
  destruct (lookup_lt_is_Some_2 xs i Hi) as [y Hy].
  pose proof (take_drop_middle xs i y Hy) as Hsplit.
  assert (length (take i xs) = i) as Hlen by (rewrite length_take; lia).
  set (before := take i xs) in *. set (after := drop (S i) xs) in *.
  rewrite <- Hsplit in *. clear Hsplit Hy.
  assert (length (before ++ after) ≤ cap)%nat as Hle'.
  { revert Hle. rewrite !length_app. simpl. lia. }
  exists (vector_of (before ++ after) cap).
  unfold Vector.begin, Vector.Capacity, RawMemory.GetAddress.
  rewrite !Z.add_0_l, !capacity_vector_of, size_vector_of.
  rewrite <- Hlen at 1 2. rewrite Erase_run by done.
  split_and!.
  - done.
  - by apply Inv_vector_of.
  - rewrite !length_app. simpl. lia.
  - done.
  - intros j Hj. rewrite !index_lookup by done.
    by rewrite !lookup_app_l by lia.
  - intros j Hj. rewrite !index_lookup by done.
    rewrite !lookup_app_r by lia.
    by replace (j + 1 - length before)%nat with (S (j - length before)) by lia.
Qed.

(** X6.  [Resize(new_size)] returns whenever [new_size] is within the
    capacity or within twice the local [capacity] (1 on an empty vector,
    the capacity otherwise): the vector keeps its first [new_size]
    elements, the missing ones are value-initialised, and the capacity is
    unchanged, or doubled by the one reallocation. *)
Theorem Resize_within_reach xs cap new_size fuel :
  (length xs ≤ cap)%nat → Forall transfers xs →
  let capacity := if bool_decide (length xs = 0%nat) then 1%nat else cap in
  (new_size ≤ cap `max` (capacity * 2))%nat →
  Vector.Resize (S fuel) (vector_of xs cap) new_size
  = Some (Done (vector_of
                  (take new_size xs
                   ++ replicate (new_size - length xs) T_default)
                  (if bool_decide (new_size ≤ cap)%nat then cap
                   else (capacity * 2)%nat))).
Proof.
  intros Hle Hok capacity Hreach.
  destruct (decide (new_size < length xs)%nat) as [Hshrink|Hge].
  { rewrite Resize_shrink_run by done.
    replace (new_size - length xs)%nat with 0%nat by lia.
    cbn [replicate]. rewrite (right_id_L [] (++)).
    by rewrite bool_decide_eq_true_2 by lia. }
  rewrite take_ge by lia.
  destruct (decide (new_size = length xs)) as [->|Hne].
  { rewrite Nat.sub_diag. cbn [replicate]. rewrite (right_id_L [] (++)).
    rewrite bool_decide_eq_true_2 by done.
    unfold Vector.Resize. rewrite size_vector_of.
    by rewrite !bool_decide_eq_false_2 by lia. }
  apply Resize_grow_gen; [done | done | lia |].
  fold capacity. case_bool_decide; lia.
Qed.

(** X7.  The destructor of a well-formed vector destructs every element
    before the block is released: no object is lost. *)
Theorem destructor_destroys_every_element v :
  Inv v → Vector.dtor (St:=()) v = Done [].
Proof.
  intros Hinv. destruct (Inv_inv v Hinv) as (xs & cap & Hle & ->).
  by apply dtor_run.
Qed.

(** X8.  [Vector(n)], for a count [n] that fits, holds [n]
    value-initialised elements: every index below [n] reads [T()], the
    index [n] fails the assertion, and the destructor of the new vector
    loses nothing. *)
Theorem sized_construction_value_initialises (n : nat) :
  RawMemory.fits (T:=T) n →
  ∃ v, Vector.ctor_sized n = Done v
    ∧ (∀ i : nat, (i < n)%nat → Vector.index (St:=()) v i = Done T_default)
    ∧ Vector.index (St:=()) v n = Undefined AssertionFailed
    ∧ Vector.dtor (St:=()) v = Done [].
Proof.
  intros _. rewrite ctor_sized_run. eexists. split; [done|].
  assert (length (replicate n (T_default (T:=T))) ≤ n)%nat as Hn
    by (by rewrite length_replicate).
  split_and!.
  - intros i Hi. rewrite index_lookup by done.
    by rewrite lookup_replicate_2.
  - rewrite index_lookup by done.
    by rewrite lookup_ge_None_2 by (by rewrite length_replicate).
  - by apply dtor_run.
Qed.

(** X9.  The copy constructor on a well-formed vector: when no copy of
    an element raises, the new vector reads as the source at every index;
    when the copy of some element raises, the constructor raises. *)
Theorem copy_construction_copies_or_raises other :
  Inv other →
  ((∀ (i : nat) x, Vector.index (St:=()) other i = Done x →
                   copy_throws x = false) →
   ∃ v, Vector.ctor_copy other = Done v
     ∧ ∀ i : nat, Vector.index (St:=()) v i = Vector.index (St:=()) other i)
  ∧ (∀ (i : nat) x, Vector.index (St:=()) other i = Done x →
                    copy_throws x = true →
                    Vector.ctor_copy other = Raised ()).
Proof.
  intros Hinv. destruct (Inv_inv other Hinv) as (xs & cap & Hle & ->). split.
  - intros Hok. rewrite ctor_copy_run; [| done | by eapply nothrow_elements].
    eexists. split; [done|]. intros i. by rewrite !index_lookup.
  - intros i x Hx Hthrows. apply ctor_copy_raises; [done|].
    apply Exists_exists. exists x. split; [|done].
    eapply list_elem_of_lookup_2. by eapply index_vector_of_inv.
Qed.

(** X10.  When a copy raises during a copy assignment between
    well-formed vectors (assignments themselves do not raise).  If the
    target's capacity is too small, the target is unchanged: the copy was
    made aside.  If the right-hand side fits and is not shorter than the
    target, the target's elements have been assigned already when the
    remaining ones are copy-constructed: the target is left well-formed,
    of its old size, holding the first elements of the right-hand side.
    If the right-hand side is shorter than the target nothing is
    copy-constructed and the assignment returns. *)
Theorem assign_copy_failure xs ys ca cb :
  (length xs ≤ ca)%nat → (length ys ≤ cb)%nat →
  let a := vector_of xs ca in
  let b := vector_of ys cb in
  ((ca < length ys)%nat → Exists (λ y, copy_throws y = true) ys →
   Vector.assign_copy a b = Raised a)
  ∧ ((length xs ≤ length ys ≤ ca)%nat →
     Exists (λ y, copy_throws y = true) (drop (length xs) ys) →
     Vector.assign_copy a b = Raised (vector_of (take (length xs) ys) ca))
  ∧ ((length ys < length xs)%nat →
     Vector.assign_copy a b = Done (vector_of ys ca)).
Proof.
  intros Hxs Hys a b. subst a b. split_and!.
  - intros Hgrow Hex. unfold Vector.assign_copy.
    rewrite !size_vector_of, !capacity_vector_of.
    rewrite bool_decide_eq_true_2 by done.
    by rewrite ctor_copy_raises.
  - intros [Hlo Hhi] Hex. unfold Vector.assign_copy.
    rewrite !size_vector_of, !capacity_vector_of.
    rewrite !bool_decide_eq_false_2 by lia.
    rewrite !mem_vector_of by done. unfold RawMemory.GetAddress.
    rewrite !Z.add_0_l.
    rewrite (block_of_split ys cb (length xs)). unfold block_of.
    rewrite copy_n_front; [| rewrite length_take; lia | rewrite length_take; lia].
    cbn [mbind outcome_bind].
    rewrite (replicate_split None (length ys - length xs) (ca - length xs))
      by lia.
    rewrite (uninitialized_copy_raise_at (drop (length xs) ys)
               (Some <$> take (length xs) ys));
      [| rewrite length_fmap, length_take; lia
       | rewrite length_fmap, length_take; lia
       | by rewrite length_drop
       | done ].
    cbn [unwind]. rewrite with_mem_vector_of.
    unfold vector_of, block_of. rewrite length_take.
    replace (length xs `min` length ys)%nat with (length xs) by lia.
    by rewrite <- replicate_split by lia.
  - intros Hshrink. unfold Vector.assign_copy.
    rewrite !size_vector_of, !capacity_vector_of.
    rewrite bool_decide_eq_false_2 by lia.
    rewrite bool_decide_eq_true_2 by done.
    rewrite !mem_vector_of by done. unfold RawMemory.GetAddress.
    rewrite !Z.add_0_l.
    rewrite (block_of_split xs ca (length ys)). unfold block_of.
    rewrite copy_n_front; [| done | rewrite length_take; lia].
    cbn [mbind outcome_bind].
    rewrite (destroy_n_at (drop (length ys) xs) (Some <$> ys));
      [| by rewrite length_fmap | by rewrite length_drop].
    cbn [mbind outcome_bind]. rewrite with_mem_vector_of.
    unfold Vector.with_size, vector_of, block_of. simpl.
    rewrite <- replicate_add.
    by replace (length xs - length ys + (ca - length xs))%nat
      with (ca - length ys)%nat by lia.
Qed.

(** X11.  [PushBack] on a well-formed vector with spare capacity, or
    whose elements transfer without raising: the new vector is
    well-formed and one longer, the new value is read at the old size,
    which is the cell [EmplaceBack] returns a reference to, and every
    former index reads as before. *)
Theorem PushBack_appends v value x :
  Inv v →
  (Vector.Size v < Vector.Capacity v)%nat
  ∨ (∀ (i : nat) y, Vector.index (St:=()) v i = Done y → transfers y) →
  Vector.construct_from value = Some x →
  ∃ v', Vector.PushBack v value = Done v'
    ∧ Vector.EmplaceBack v (Some x)
      = Done (v', Vector.begin v' + Z.of_nat (Vector.Size v))
    ∧ Inv v'
    ∧ Vector.Size v' = (Vector.Size v + 1)%nat
    ∧ Vector.index (St:=()) v' (Vector.Size v) = Done x
    ∧ ∀ i : nat, (i < Vector.Size v)%nat →
        Vector.index (St:=()) v' i = Vector.index (St:=()) v i.
Proof.
  intros Hinv Hok Hx. destruct (Inv_inv v Hinv) as (xs & cap & Hle & ->).
  unfold Vector.Size, Vector.Capacity in *.
  rewrite size_vector_of, capacity_vector_of in *.
  assert ((length xs < cap)%nat ∨ Forall transfers xs) as Hok'.
  { destruct Hok as [?|Hok]; [by left | right]. by eapply nothrow_elements. }
  assert (length (xs ++ [x]) ≤ next_capacity (length xs) cap)%nat as Hfit.
  { rewrite length_app. simpl. by apply next_capacity_fits. }
  exists (vector_of (xs ++ [x]) (next_capacity (length xs) cap)).
  unfold Vector.PushBack. rewrite Hx, EmplaceBack_gen by done.
  unfold Vector.begin, RawMemory.GetAddress. rewrite Z.add_0_l.
  split_and!.
  - done.
  - done.
  - by apply Inv_vector_of.
  - rewrite size_vector_of, length_app. simpl. lia.
  - rewrite index_lookup by done.
    by rewrite lookup_app_r, Nat.sub_diag by lia.
  - intros i Hi. rewrite !index_lookup by done.
    by rewrite lookup_app_l by lia.
Qed.

(** X12.  When the constructor of the new element raises on a vector
    with spare capacity: [PushBack] leaves the vector unchanged, and
    [Insert] at a position before [end()] does not.  [Insert] has by then
    shifted the elements from [pos] on: the vector keeps its size, the
    cell at [pos] is moved-from, the former last element lies beyond the
    size, so that the vector is not well-formed any more and its
    destructor loses that element. *)
Theorem constructor_failure_with_spare_capacity
    (before mid : list T) z cap value :
  (length (before ++ mid ++ [z]) < cap)%nat → move_throws z = false →
  Vector.construct_from value = None →
  let v := vector_of (before ++ mid ++ [z]) cap in
  let c := vacated_first (moved_from z) mid in
  let left :=
    Vector.with_size (vector_of (before ++ c :: mid ++ [z]) cap)
      (Vector.Size v) in
  Vector.PushBack v value = Raised v
  ∧ Vector.Insert v (Vector.begin v + Z.of_nat (length before)) value
    = Raised left
  ∧ ¬ Inv left
  ∧ Vector.dtor (St:=()) left = Done [z].
Proof.
  intros Hlt Hz Hvalue v c left.
  pose proof Hlt as Hlen. rewrite !length_app in Hlen. simpl in Hlen.
  assert (Vector.mem left
          = (Some <$> before ++ c :: mid) ++ Some z
            :: replicate (cap - length (before ++ c :: mid) - 1) None)
    as Hmem.
  { subst left. unfold Vector.with_size, Vector.mem.
    cbn [Vector.data_ vector_of]. rewrite cells_raw_of by lia.
    replace (before ++ c :: mid ++ [z]) with ((before ++ c :: mid) ++ [z])
      by (by rewrite <- (assoc_L (++))).
    apply block_of_snoc. lengths. }
  split_and!.
  - subst v. unfold Vector.PushBack, Vector.EmplaceBack, RawMemory.plus,
      Vector.Size, Vector.Capacity.
    rewrite Hvalue, size_vector_of, capacity_vector_of, capacity_vector_of'.
    rewrite bool_decide_eq_true_2 by done.
    by rewrite bool_decide_eq_true_2 by lia.
  - subst v left c. rewrite (assoc_L (++) before mid [z]) in *.
    unfold Vector.Insert, Vector.Emplace, Vector.Emplace_move_last,
      Vector.cbegin, Vector.cend, Vector.begin, Vector.end_, Vector.Size,
      Vector.Capacity.
    rewrite Hvalue, !size_vector_of, !capacity_vector_of.
    unfold RawMemory.GetAddress.
    rewrite !Z.add_0_l, Z.sub_0_r, Nat2Z.id.
    rewrite !bool_decide_eq_true_2 by lengths.
    cbn [andb assert mbind outcome_bind].
    rewrite mem_vector_of by lia.
    rewrite block_of_last_spare by lengths.
    rewrite read_at by lengths.
    cbn [mbind outcome_bind]. rewrite Hz.
    rewrite (cons_middle (Some z) (Some <$> before ++ mid)),
      (assoc_L (++) (Some <$> before ++ mid) [Some z]).
    rewrite construct_at_at by lengths.
    cbn [mbind outcome_bind].
    rewrite <- (assoc_L (++) (Some <$> before ++ mid) [Some z]). cbn [app].
    rewrite put_at by lengths.
    unfold move_backward.
    rewrite bool_decide_eq_true_2 by lengths.
    replace (Z.to_nat (Z.of_nat (length ((before ++ mid) ++ [z])) - 1
                       - Z.of_nat (length before)))
      with (length mid) by lengths.
    rewrite fmap_app, <- (assoc_L (++) (Some <$> before) (Some <$> mid)).
    rewrite move_back_at by lengths.
    cbn [mbind outcome_bind]. rewrite with_mem_vector_of.
    unfold Vector.with_size, vector_of. cbn [Vector.data_ Vector.size_].
    do 3 f_equal.
    unfold block_of. rewrite !fmap_app, !length_app. cbn [fmap list_fmap length].
    rewrite !length_app. cbn [length].
    rewrite <- !(assoc_L (++)). cbn [app]. rewrite fmap_app.
    rewrite <- !(assoc_L (++)). cbn [app].
    do 4 f_equal. f_equal. lia.
  - intros (_ & _ & _ & Hcells).
    destruct (Hcells (length (before ++ c :: mid)) (Some z)) as [Hlive _].
    { rewrite Hmem. rewrite lookup_app_r by (by rewrite length_fmap).
      by rewrite length_fmap, Nat.sub_diag. }
    specialize (Hlive (mk_is_Some _ _ eq_refl)).
    subst left v. unfold Vector.with_size, Vector.Size in Hlive.
    cbn [Vector.size_ vector_of] in Hlive. revert Hlive. lengths.
  - unfold Vector.dtor. rewrite Hmem.
    replace (Vector.size_ left) with (length (before ++ c :: mid))
      by (subst left v; unfold Vector.with_size, Vector.Size;
          cbn [Vector.size_ vector_of]; lengths).
    unfold RawMemory.GetAddress. rewrite destroy_n_front by done.
    cbn [mbind outcome_bind]. unfold RawMemory.lost.
    subst left. unfold Vector.with_size. cbn [Vector.data_ vector_of].
    rewrite with_cells_raw_of, cells_raw_of by lia.
    rewrite alive_app, alive_raw.
    change (alive (Some z :: ?l)) with (z :: alive l).
    by rewrite alive_raw.
Qed.

(** X13.  After [Reserve(n)], for a count [n] that fits, appends that
    fit in [max(capacity, n)] do not reallocate: the capacity stays
    [max(capacity, n)], and the appended values follow the elements
    already there. *)
Theorem Reserve_then_PushBack_keeps_capacity xs ys cap n :
  (length xs ≤ cap)%nat → Forall transfers xs → RawMemory.fits (T:=T) n →
  Forall (λ y, copy_throws y = false) ys →
  (length xs + length ys ≤ cap `max` n)%nat →
  (v ← Vector.Reserve (vector_of xs cap) n; push_all v ys)
  = Done (vector_of (xs ++ ys) (cap `max` n)).
Proof.
  intros Hle Hxs _ Hys Hfit. rewrite Reserve_gen by done.
  cbn [mbind outcome_bind].
  replace (if bool_decide (n ≤ cap)%nat then cap else n) with (cap `max` n)%nat
    by (case_bool_decide; lia).
  by apply push_all_spare.
Qed.

(** X14.  Erasing an element that is not the last and inserting its
    value back at the returned iterator restores the vector: same
    elements, same capacity, same iterator. *)
Theorem Erase_then_Insert_restores (before : list T) y (mid : list T) z cap :
  (length (before ++ y :: mid ++ [z]) ≤ cap)%nat →
  move_throws z = false → copy_throws y = false →
  let v := vector_of (before ++ y :: mid ++ [z]) cap in
  ('(v', p) ← Vector.Erase v (Vector.begin v + Z.of_nat (length before));
   Vector.Insert v' p (Vector.Lvalue y))
  = Done (v, Vector.begin v + Z.of_nat (length before)).
Proof.
  intros Hle Hz Hy v. subst v.
  unfold Vector.begin, RawMemory.GetAddress. rewrite Z.add_0_l.
  rewrite Erase_run by done. cbn [mbind outcome_bind].
  apply Insert_inside_run; [| done | done].
  revert Hle. lengths.
Qed.

(** X15.  [PushBack(v[i])] appends a copy of the element [i], also
    when it reallocates: the new element is built in the new block before
    the elements are transferred.  [Insert(pos, v[i])] on a full vector
    inserts a copy of the element [i] for the same reason. *)
Theorem own_element_is_copied_before_growth xs cap (i : nat) x :
  (length xs ≤ cap)%nat → xs !! i = Some x → copy_throws x = false →
  (length xs < cap)%nat ∨ Forall transfers xs →
  let v := vector_of xs cap in
  let own := Vector.Inside (Vector.begin v + Z.of_nat i) in
  Vector.PushBack_from v own
  = Done (vector_of (xs ++ [x]) (next_capacity (length xs) cap))
  ∧ ∀ before after,
      xs = before ++ after → length xs = cap → Forall transfers xs →
      let v' := vector_of (before ++ x :: after)
                  (next_capacity (length xs) cap) in
      Vector.Insert_from v (Vector.begin v + Z.of_nat (length before)) own
      = Done (v', Vector.begin v' + Z.of_nat (length before)).
Proof.
  intros Hle Hx Hcopy Hok v own. subst v own.
  unfold Vector.begin, RawMemory.GetAddress. rewrite !Z.add_0_l. split.
  - unfold Vector.PushBack_from.
    rewrite (EmplaceBack_from_inside xs cap i x) by done.
    by rewrite Hcopy, EmplaceBack_gen by done.
  - intros before after -> <- Hxs. cbv zeta. unfold Vector.Insert_from.
    rewrite (Emplace_from_full _ i x) by done. rewrite Hcopy, !Z.add_0_l.
    apply Emplace_gen; [done|]. by right.
Qed.

(** X16.  [Insert(pos, v[i])] on a vector with spare capacity, at a
    position before [end()], builds the new element after the shift, from
    what the cell [i] holds then: the element [i] when [i] is before
    [pos], the moved-from element when [i] is at [pos], and the element
    [i - 1] when [i] is after [pos]. *)
Theorem Insert_of_own_element_with_spare_capacity
    (before mid : list T) z cap (i : nat) y :
  let xs := before ++ mid ++ [z] in
  let v := vector_of xs cap in
  (length xs < cap)%nat → (i < length xs)%nat → move_throws z = false →
  (before ++ vacated_first (moved_from z) mid :: mid ++ [z]) !! i = Some y →
  copy_throws y = false →
  let v' := vector_of (before ++ y :: mid ++ [z]) cap in
  Vector.Insert_from v (Vector.begin v + Z.of_nat (length before))
    (Vector.Inside (Vector.begin v + Z.of_nat i))
  = Done (v', Vector.begin v' + Z.of_nat (length before))
  ∧ ((i < length before)%nat → xs !! i = Some y)
  ∧ (i = length before → ∃ x, xs !! i = Some x ∧ y = moved_from x)
  ∧ ((length before < i)%nat → xs !! (i - 1)%nat = Some y).
Proof.
  intros xs v Hlt _ Hz Hi Hy v'. subst xs v v'.
  unfold Vector.begin, RawMemory.GetAddress. rewrite !Z.add_0_l. split_and!.
  - by apply Emplace_from_spare_run.
  - intros Hbefore. rewrite lookup_app_l in Hi by done.
    by rewrite lookup_app_l.
  - intros ->. rewrite list_lookup_middle in Hi by done.
    injection Hi as <-. rewrite lookup_app_r, Nat.sub_diag by done.
    destruct mid as [|m mid]; eexists; (split; [done|]); done.
  - intros Hafter. rewrite lookup_app_r in Hi by lia.
    rewrite lookup_app_r by lia.
    destruct (i - length before)%nat as [|k] eqn:Hk; [lia|].
    replace (i - 1 - length before)%nat with k by lia. done.
Qed.
(** X17.  [Reserve(n)] beyond the capacity of a well-formed vector, for
    a count [n] that fits, when the transfer of the element [x] raises.
    If the transfer copies, the vector is unchanged.  If the element type
    cannot be copied, the transfer moves: the elements before [x] are
    left moved-from, the others and the size and capacity are unchanged.
    In both cases the new block is released with no live object in it. *)
Theorem Reserve_failure_guarantees (before : list T) x (after : list T) cap n :
  let xs := before ++ x :: after in
  let v := vector_of xs cap in
  (length xs ≤ cap)%nat → (cap < n)%nat → RawMemory.fits (T:=T) n →
  (copies → copy_throws x = true →
   Vector.Reserve v n = Raised v
   ∧ Vector.Reserve_grow v n = Raised (v, RawMemory.ctor n))
  ∧ (is_copy_constructible = false →
     Forall (λ y, move_throws y = false) before → move_throws x = true →
     let v' := vector_of ((moved_from <$> before) ++ x :: after) cap in
     Vector.Reserve v n = Raised v'
     ∧ Vector.Reserve_grow v n = Raised (v', RawMemory.ctor n))
  ∧ RawMemory.lost (RawMemory.ctor (T:=T) n) = [].
Proof.
  intros xs v Hle Hn _. subst xs v. split_and!.
  - intros Hcopies Hx.
    assert (Vector.Reserve_grow (vector_of (before ++ x :: after) cap) n
            = Raised (vector_of (before ++ x :: after) cap, RawMemory.ctor n))
      as Hgrow.
    { apply Reserve_grow_raises; [done | done | done |].
      apply Exists_app. right. by apply Exists_cons_hd. }
    split; [|done]. unfold Vector.Reserve. rewrite capacity_vector_of.
    rewrite bool_decide_eq_false_2 by lia. by rewrite Hgrow.
  - intros Hmoves Hok Hx v'. subst v'.
    assert (Vector.Reserve_grow (vector_of (before ++ x :: after) cap) n
            = Raised (vector_of ((moved_from <$> before) ++ x :: after) cap,
                      RawMemory.ctor n)) as Hgrow.
    { unfold Vector.Reserve_grow, Vector.FullSafeMemoryTransfer,
        Vector.SafeMemoryTransfer, Vector.Size, RawMemory.GetAddress.
      rewrite Hmoves, orb_true_r.
      rewrite size_vector_of, mem_vector_of, ctor_raw_of, cells_raw_of
        by (done || lia).
      rewrite (replicate_split None (length (before ++ x :: after)) n) by lia.
      unfold block_of.
      pose proof (uninitialized_move_raise before x after []
                    (replicate (cap - length (before ++ x :: after)) None) []
                    (replicate (n - length (before ++ x :: after)) None)
                    Hok Hx) as Hraise.
      cbn [app length] in Hraise. change (Z.of_nat 0) with 0 in Hraise.
      rewrite Hraise. cbn [unwind mbind outcome_bind].
      rewrite with_mem_vector_of, with_cells_raw_of.
      unfold vector_of, block_of. do 3 f_equal.
      - do 2 f_equal. rewrite !length_app, length_fmap. done.
      - rewrite !length_app, length_fmap. done. }
    split; [|done]. unfold Vector.Reserve. rewrite capacity_vector_of.
    rewrite bool_decide_eq_false_2 by lia. by rewrite Hgrow.
  - unfold RawMemory.lost. rewrite ctor_raw_of, cells_raw_of by lia.
    apply alive_raw.
Qed.
(** X18.  [Swap] exchanges the whole states of two vectors, elements,
    size and capacity, and touches no element: a second [Swap] restores
    both.  Move construction hands the state of the source to the new
    vector and leaves the source as a default-constructed vector, which
    is well-formed and on which [PushBack] starts again from capacity
    0. *)
Theorem Swap_and_move_construction (a b : Vector.t T) x :
  Vector.Swap a b = (b, a)
  ∧ (let '(a', b') := Vector.Swap a b in Vector.Swap a' b') = (a, b)
  ∧ Vector.ctor_move b = (b, Vector.ctor_default)
  ∧ Inv (snd (Vector.ctor_move b))
  ∧ (copy_throws x = false →
     Vector.PushBack (snd (Vector.ctor_move b)) (Vector.Lvalue x)
     = Done (vector_of [x] 1)).
Proof.
  destruct a as [[abuf acap] asize], b as [[bbuf bcap] bsize].
  split_and!; [done | done | done | |].
  - exact (Inv_vector_of [] 0 (Nat.le_refl 0)).
  - intros Hx. cbn [snd Vector.ctor_move RawMemory.ctor_move RawMemory.Swap].
    change (Vector.PushBack (vector_of [] 0) (Vector.Lvalue x)
            = Done (vector_of [x] 1)).
    unfold Vector.PushBack, Vector.construct_from. rewrite Hx.
    rewrite EmplaceBack_gen by (simpl; auto). done.
Qed.
End Operations.

(** * The further properties at concrete vectors *)

(** X1 at the vector [[1; 2; 3]] of capacity 4, reserved to 10. *)
Lemma Reserve_keeps_the_elements_witness :
  (length [1; 2; 3] ≤ 4)%nat ∧ Forall (transfers (T:=Z)) [1; 2; 3]
  ∧ RawMemory.fits (T:=Z) 10
  ∧ Vector.Reserve (vector_of [1; 2; 3] 4) 10 = Done (vector_of [1; 2; 3] 10).
Proof.
  assert (length [1; 2; 3] ≤ 4)%nat as Hle by (simpl; lia).
  assert (Forall (transfers (T:=Z)) [1; 2; 3]) as Hok by (repeat constructor).
  assert (RawMemory.fits (T:=Z) 10) as Hfits
    by (unfold RawMemory.fits; simpl; lia).
  split; [exact Hle|]. split; [exact Hok|]. split; [exact Hfits|].
  exact (proj1 (proj2 (Reserve_keeps_the_elements [1; 2; 3] 4 10
                         Hle Hok Hfits))).
Defined.

(** X2 at a full vector of [heavy], whose copies always raise. *)
Lemma noexcept_move_growth_never_raises_witness :
  let v : Vector.t heavy := vector_of [Heavy 1; Heavy 2] 2 in
  is_nothrow_move_constructible (T:=heavy) = true
  ∧ (length [Heavy 1; Heavy 2] ≤ 2)%nat
  ∧ Forall (λ x : heavy, copy_throws x = true) [Heavy 1; Heavy 2]
  ∧ Vector.Reserve v 5 = Done (vector_of [Heavy 1; Heavy 2] 5)
  ∧ Vector.PushBack v (Vector.Rvalue (Heavy 3))
    = Done (vector_of [Heavy 1; Heavy 2; Heavy 3] 4).
Proof.
  intros v.
  assert (is_nothrow_move_constructible (T:=heavy) = true) as Hmove
    by reflexivity.
  assert (length [Heavy 1; Heavy 2] ≤ 2)%nat as Hle by (simpl; lia).
  split; [exact Hmove|]. split; [exact Hle|].
  split; [repeat constructor|].
  assert (RawMemory.fits (T:=heavy) 5) as Hfits
    by (unfold RawMemory.fits; simpl; lia).
  destruct (noexcept_move_growth_never_raises
              [Heavy 1; Heavy 2] 2 5 (Heavy 3) Hmove Hle)
    as (Hreserve & Hpush & _).
  split; [exact (Hreserve Hfits) | exact Hpush].
Defined.

(** X4 at the insertion of 99 before the second element of [[1; 2; 3]]. *)
Lemma Insert_inserts_before_pos_witness :
  (length ([1] ++ [2; 3]) ≤ 4)%nat
  ∧ Vector.construct_from (Vector.Lvalue 99) = Some 99
  ∧ Forall (nothrow (T:=Z)) ([1] ++ [2; 3])
  ∧ Vector.Insert (vector_of [1; 2; 3] 4) 1 (Vector.Lvalue 99)
    = Done (vector_of [1; 99; 2; 3] 4, 1).
Proof.
  assert (length ([1] ++ [2; 3]) ≤ 4)%nat as Hle by (simpl; lia).
  assert (Forall (nothrow (T:=Z)) ([1] ++ [2; 3])) as Hok
    by (repeat constructor).
  assert (Vector.construct_from (Vector.Lvalue 99) = Some 99) as Hvalue
    by reflexivity.
  split; [exact Hle|]. split; [exact Hvalue|]. split; [exact Hok|].
  apply (Insert_inserts_before_pos [1] [2; 3] 4 (Vector.Lvalue 99) 99
           Hle Hvalue Hok).
  left. discriminate.
Defined.

(** X5 at the erasure of the second element of [[1; 2; 3; 4]]. *)
Lemma Erase_removes_the_element_witness :
  let v : Vector.t Z := vector_of [1; 2; 3; 4] 4 in
  Inv v ∧ (1 < Vector.Size v)%nat
  ∧ ∃ v', Vector.Erase v 1 = Done (v', 1)
      ∧ Vector.Size v' = 3%nat
      ∧ Vector.index (St:=()) v' 1 = Vector.index (St:=()) v 2.
Proof.
  intros v.
  assert (Inv v) as Hinv by (apply Inv_vector_of; simpl; lia).
  assert (1 < Vector.Size v)%nat as Hi by (simpl; lia).
  split; [exact Hinv|]. split; [exact Hi|].
  destruct (Erase_removes_the_element v 1 Hinv Hi)
    as (v' & Hrun & _ & Hsize & _ & _ & Hafter).
  exists v'. split; [exact Hrun|]. split; [exact Hsize|].
  apply (Hafter 1%nat). lia.
Defined.

(** X6 at [[1; 2; 3]] in 4 cells, resized to 5. *)
Lemma Resize_within_reach_witness :
  (length [1; 2; 3] ≤ 4)%nat ∧ Forall (transfers (T:=Z)) [1; 2; 3]
  ∧ (5 ≤ 4 `max` (4 * 2))%nat
  ∧ Vector.Resize 1 (vector_of [1; 2; 3] 4) 5
    = Some (Done (vector_of [1; 2; 3; 0; 0] 8)).
Proof.
  assert (length [1; 2; 3] ≤ 4)%nat as Hle by (simpl; lia).
  assert (Forall (transfers (T:=Z)) [1; 2; 3]) as Hok by (repeat constructor).
  assert (5 ≤ 4 `max` (4 * 2))%nat as Hreach by (simpl; lia).
  split; [exact Hle|]. split; [exact Hok|]. split; [exact Hreach|].
  exact (Resize_within_reach [1; 2; 3] 4 5 0 Hle Hok Hreach).
Defined.

(** X7 at [[1; 2]] in 4 cells. *)
Lemma destructor_destroys_every_element_witness :
  Inv (vector_of (T:=Z) [1; 2] 4)
  ∧ Vector.dtor (St:=()) (vector_of (T:=Z) [1; 2] 4) = Done [].
Proof.
  assert (Inv (vector_of (T:=Z) [1; 2] 4)) as Hinv
    by (apply Inv_vector_of; simpl; lia).
  split; [exact Hinv|].
  exact (destructor_destroys_every_element _ Hinv).
Defined.

(** X9 at a vector of [fragile] whose second element raises when copied. *)
Lemma copy_construction_copies_or_raises_witness :
  let other : Vector.t fragile := vector_of [Fragile 1; Fragile 0] 2 in
  Inv other ∧ Vector.ctor_copy other = Raised ().
Proof.
  intros other.
  assert (Inv other) as Hinv by (apply Inv_vector_of; simpl; lia).
  assert (Vector.index (St:=()) other 1 = Done (Fragile 0)) as Hsecond
    by reflexivity.
  assert (copy_throws (Fragile 0) = true) as Hthrows by reflexivity.
  split; [exact Hinv|].
  exact (proj2 (copy_construction_copies_or_raises other Hinv)
           1%nat (Fragile 0) Hsecond Hthrows).
Defined.

(** X10 at [[1]] in 3 cells assigned from [[2; 0]], where the copy of 0
    raises. *)
Lemma assign_copy_failure_witness :
  let a : Vector.t fragile := vector_of [Fragile 1] 3 in
  let b : Vector.t fragile := vector_of [Fragile 2; Fragile 0] 2 in
  (length [Fragile 1] ≤ 3)%nat ∧ (length [Fragile 2; Fragile 0] ≤ 2)%nat
  ∧ Vector.assign_copy a b = Raised (vector_of [Fragile 2] 3).
Proof.
  intros a b.
  assert (length [Fragile 1] ≤ 3)%nat as Hxs by (simpl; lia).
  assert (length [Fragile 2; Fragile 0] ≤ 2)%nat as Hys by (simpl; lia).
  split; [exact Hxs|]. split; [exact Hys|].
  destruct (assign_copy_failure [Fragile 1] [Fragile 2; Fragile 0] 3 2 Hxs Hys)
    as (_ & Hpartial & _).
  apply Hpartial.
  - simpl. lia.
  - apply Exists_cons. left. reflexivity.
Defined.

(** X11 at the full vector [[1; 2]]. *)
Lemma PushBack_appends_witness :
  let v : Vector.t Z := vector_of [1; 2] 2 in
  Inv v
  ∧ ∃ v', Vector.PushBack v (Vector.Lvalue 3) = Done v'
      ∧ Vector.Size v' = 3%nat
      ∧ Vector.index (St:=()) v' 2 = Done 3.
Proof.
  intros v.
  assert (Inv v) as Hinv by (apply Inv_vector_of; simpl; lia).
  split; [exact Hinv|].
  destruct (PushBack_appends v (Vector.Lvalue 3) 3 Hinv)
    as (v' & Hrun & _ & _ & Hsize & Hlast & _).
  - right. intros i y _. reflexivity.
  - reflexivity.
  - exists v'. split; [exact Hrun|]. split; [exact Hsize | exact Hlast].
Defined.

(** X12 at [[1; 2; 3]] of [fragile] in 4 cells and the value 0, whose
    copy raises. *)
Lemma constructor_failure_with_spare_capacity_witness :
  let v : Vector.t fragile := vector_of [Fragile 1; Fragile 2; Fragile 3] 4 in
  (length ([Fragile 1] ++ [Fragile 2] ++ [Fragile 3]) < 4)%nat
  ∧ move_throws (Fragile 3) = false
  ∧ Vector.construct_from (Vector.Lvalue (Fragile 0)) = None
  ∧ Vector.PushBack v (Vector.Lvalue (Fragile 0)) = Raised v
  ∧ Vector.Insert v 1 (Vector.Lvalue (Fragile 0))
    = Raised (Vector.with_size
                (vector_of [Fragile 1; Fragile 2; Fragile 2; Fragile 3] 4) 3).
Proof.
  intros v.
  assert (length ([Fragile 1] ++ [Fragile 2] ++ [Fragile 3]) < 4)%nat as Hlt
    by (simpl; lia).
  assert (move_throws (Fragile 3) = false) as Hmove by reflexivity.
  assert (Vector.construct_from (Vector.Lvalue (Fragile 0)) = None) as Hvalue
    by reflexivity.
  split; [exact Hlt|]. split; [exact Hmove|]. split; [exact Hvalue|].
  destruct (constructor_failure_with_spare_capacity
              [Fragile 1] [Fragile 2] (Fragile 3) 4
              (Vector.Lvalue (Fragile 0)) Hlt Hmove Hvalue)
    as (Hpush & Hinsert & _).
  split; [exact Hpush | exact Hinsert].
Defined.

(** X13 at [[1]] in 1 cell, reserved to 4, then three appends. *)
Lemma Reserve_then_PushBack_keeps_capacity_witness :
  (length [1] ≤ 1)%nat ∧ Forall (transfers (T:=Z)) [1]
  ∧ RawMemory.fits (T:=Z) 4
  ∧ Forall (λ y : Z, copy_throws y = false) [2; 3; 4]
  ∧ (length [1] + length [2; 3; 4] ≤ 1 `max` 4)%nat
  ∧ (v ← Vector.Reserve (vector_of [1] 1) 4; push_all v [2; 3; 4])
    = Done (vector_of [1; 2; 3; 4] 4).
Proof.
  assert (length [1] ≤ 1)%nat as Hle by (simpl; lia).
  assert (Forall (transfers (T:=Z)) [1]) as Hxs by (repeat constructor).
  assert (Forall (λ y : Z, copy_throws y = false) [2; 3; 4]) as Hys
    by (repeat constructor).
  assert (length [1] + length [2; 3; 4] ≤ 1 `max` 4)%nat as Hfit
    by (simpl; lia).
  assert (RawMemory.fits (T:=Z) 4) as Hfits
    by (unfold RawMemory.fits; simpl; lia).
  split; [exact Hle|]. split; [exact Hxs|]. split; [exact Hfits|].
  split; [exact Hys|]. split; [exact Hfit|].
  exact (Reserve_then_PushBack_keeps_capacity [1] [2; 3; 4] 1 4
           Hle Hxs Hfits Hys Hfit).
Defined.

(** X14 at the second element of the full vector [[1; 2; 3; 4]]. *)
Lemma Erase_then_Insert_restores_witness :
  let v : Vector.t Z := vector_of [1; 2; 3; 4] 4 in
  (length ([1] ++ 2 :: [3] ++ [4]) ≤ 4)%nat
  ∧ ('(v', p) ← Vector.Erase v 1; Vector.Insert v' p (Vector.Lvalue 2))
    = Done (v, 1).
Proof.
  intros v.
  assert (length ([1] ++ 2 :: [3] ++ [4]) ≤ 4)%nat as Hle by (simpl; lia).
  assert (move_throws 4 = false) as Hmove by reflexivity.
  assert (copy_throws 2 = false) as Hcopy by reflexivity.
  split; [exact Hle|].
  exact (Erase_then_Insert_restores [1] 2 [3] 4 4 Hle Hmove Hcopy).
Defined.

(** X15 at the full vector [[1; 2]] and its first element. *)
Lemma own_element_is_copied_before_growth_witness :
  let v : Vector.t Z := vector_of [1; 2] 2 in
  (length [1; 2] ≤ 2)%nat ∧ [1; 2] !! 0%nat = Some 1
  ∧ Vector.PushBack_from v (Vector.Inside 0) = Done (vector_of [1; 2; 1] 4)
  ∧ Vector.Insert_from v 1 (Vector.Inside 0)
    = Done (vector_of [1; 1; 2] 4, 1).
Proof.
  intros v.
  assert (length [1; 2] ≤ 2)%nat as Hle by (simpl; lia).
  assert (Forall (transfers (T:=Z)) [1; 2]) as Hok by (repeat constructor).
  assert ([1; 2] !! 0%nat = Some 1) as Hfirst by reflexivity.
  assert (copy_throws 1 = false) as Hcopy by reflexivity.
  split; [exact Hle|]. split; [exact Hfirst|].
  destruct (own_element_is_copied_before_growth [1; 2] 2 0 1
              Hle Hfirst Hcopy (or_intror Hok))
    as (Hpush & Hinsert).
  split; [exact Hpush|].
  exact (Hinsert [1] [2] eq_refl eq_refl Hok).
Defined.

(** X16 at [[[1]; [2]; [3]]] of [owner] in 4 cells: [Insert(begin(), v[2])]
    inserts a copy of [[2]], the element before the one named. *)
Lemma Insert_of_own_element_with_spare_capacity_witness :
  let v : Vector.t owner := vector_of [[1]; [2]; [3]]%nat 4 in
  (length ([] ++ [[1]; [2]] ++ [[3]])%nat < 4)%nat
  ∧ (2 < length ([] ++ [[1]; [2]] ++ [[3]])%nat)%nat
  ∧ Vector.index (St:=()) v 2 = Done [3]%nat
  ∧ Vector.Insert_from v 0 (Vector.Inside 2)
    = Done (vector_of [[2]; [1]; [2]; [3]]%nat 4, 0).
Proof.
  intros v.
  assert (length ([] ++ [[1]; [2]] ++ [[3]])%nat < 4)%nat as Hlt
    by (simpl; lia).
  assert (2 < length ([] ++ [[1]; [2]] ++ [[3]])%nat)%nat as Hi
    by (simpl; lia).
  assert (move_throws (T:=owner) [3]%nat = false) as Hmove by reflexivity.
  assert (([] ++ vacated_first (T:=owner) (moved_from [3]%nat) [[1]; [2]]%nat
           :: [[1]; [2]]%nat ++ [[3]%nat]) !! 2%nat = Some [2]%nat) as Hcell
    by reflexivity.
  assert (copy_throws (T:=owner) [2]%nat = false) as Hcopy by reflexivity.
  split; [exact Hlt|]. split; [exact Hi|]. split; [reflexivity|].
  exact (proj1 (Insert_of_own_element_with_spare_capacity
                  [] [[1]; [2]]%nat [3]%nat 4 2 [2]%nat
                  Hlt Hi Hmove Hcell Hcopy)).
Defined.

(** X17 at the full vector [[7; 13]] of [handle], whose move raises on 13. *)
Lemma Reserve_failure_guarantees_witness :
  let v : Vector.t handle := vector_of [Handle 7; Handle 13] 2 in
  (length ([Handle 7] ++ Handle 13 :: []) ≤ 2)%nat ∧ (2 < 4)%nat
  ∧ RawMemory.fits (T:=handle) 4
  ∧ Vector.Reserve v 4 = Raised (vector_of [Handle 0; Handle 13] 2).
Proof.
  intros v.
  assert (length ([Handle 7] ++ Handle 13 :: []) ≤ 2)%nat as Hle
    by (simpl; lia).
  assert (2 < 4)%nat as Hn by lia.
  assert (is_copy_constructible (T:=handle) = false) as Hmoves by reflexivity.
  assert (Forall (λ y : handle, move_throws y = false) [Handle 7]) as Hok
    by (repeat constructor).
  assert (move_throws (Handle 13) = true) as Hx by reflexivity.
  assert (RawMemory.fits (T:=handle) 4) as Hfits
    by (unfold RawMemory.fits; simpl; lia).
  split; [exact Hle|]. split; [exact Hn|]. split; [exact Hfits|].
  destruct (Reserve_failure_guarantees [Handle 7] (Handle 13) [] 2 4
              Hle Hn Hfits)
    as (_ & Hmove & _).
  exact (proj1 (Hmove Hmoves Hok Hx)).
Defined.

(** X8 at [Vector<int>(3)]. *)
Lemma sized_construction_value_initialises_witness :
  RawMemory.fits (T:=Z) 3
  ∧ ∃ v, Vector.ctor_sized (T:=Z) 3 = Done v
      ∧ Vector.index (St:=()) v 2 = Done 0
      ∧ Vector.index (St:=()) v 3 = Undefined AssertionFailed.
Proof.
  assert (RawMemory.fits (T:=Z) 3) as Hfits
    by (unfold RawMemory.fits; simpl; lia).
  split; [exact Hfits|].
  destruct (sized_construction_value_initialises 3 Hfits)
    as (v & Hrun & Hread & Hpast & _).
  exists v. split; [exact Hrun|]. split; [|exact Hpast].
  apply (Hread 2%nat). lia.
Defined.
